(** * OPD token engine: allocation, queueing, reshuffling and delay handling

    A shallow embedding of the TypeScript engine (models/, engine/, events/)
    and the properties of its specification.

    Conventions of the embedding.
    - A JavaScript [number] that counts things (capacity, emergencyCount,
      the urgent ceilings, minutes) is an integer [Z]; an array index is a
      [nat]; [null]/[undefined] is [None].
    - A valid [Date] is its time value in milliseconds, an integer [Z]; a
      Date that the code computes and that may come out invalid is an
      [option Z], with [TimeClip] deciding validity.
    - A priority score is a rational [Q].  [calculatePriority] is the exact
      value of the source expression, which the state keeps in
      [priorityScore]; [calculatePriority_double] is the double the code
      computes, for every rounding [fl] with the error bound of binary64,
      and lies within 2.3e-10 of the exact value for request times up to
      10^15 ms from the epoch.
    - Token objects are shared between the queue, the token map and the
      callers, so they live in a store [heap] addressed by references
      [tref]; queues hold references, slots hold token ids (strings), and
      the [tokens] map resolves an id to a reference.
    - [new Date()] is the argument [now] of the operation that reads it.
    - A thrown exception is the completion [Thrown]; the state returned with
      it is the state at the throw. *)

From Stdlib Require Import ZArith QArith Qabs Lia Lqa.
From stdpp Require Import base decidable option list list_numbers sorting gmap strings.

(** ** models/Token.ts, models/Slot.ts *)

Inductive PatientSource := WALKIN | FOLLOWUP | ONLINE | REFERRAL | EMERGENCY.
Inductive TokenFlexibility := HIGH | MEDIUM | LOW.
Inductive TokenStatus :=
  REQUESTED | QUEUED | ALLOCATED | CANCELLED | NO_SHOW | COMPLETED | REQUEUED.
Inductive SlotStatus := AVAILABLE | FULL | BLOCKED.

#[global] Instance PatientSource_eq_dec : EqDecision PatientSource.
Proof. solve_decision. Defined.
#[global] Instance TokenFlexibility_eq_dec : EqDecision TokenFlexibility.
Proof. solve_decision. Defined.
#[global] Instance TokenStatus_eq_dec : EqDecision TokenStatus.
Proof. solve_decision. Defined.
#[global] Instance SlotStatus_eq_dec : EqDecision SlotStatus.
Proof. solve_decision. Defined.

#[global] Instance Qlt_dec (x y : Q) : Decision (x < y)%Q.
Proof. unfold Qlt. apply _. Defined.

Module Token.

Record t := mk {
  id : string;
  patientName : string;
  patientAge : Z;
  source : PatientSource;
  status : TokenStatus;
  doctorId : option string;
  slotIndex : option nat;
  priorityScore : Q;
  requestedAt : Z;
  allocatedAt : option Z;
  completedAt : option Z;
  flexibility : option TokenFlexibility
}.

Definition set_status (v : TokenStatus) (k : t) : t :=
  mk (id k) (patientName k) (patientAge k) (source k) v (doctorId k)
     (slotIndex k) (priorityScore k) (requestedAt k) (allocatedAt k)
     (completedAt k) (flexibility k).

Definition set_doctorId (v : option string) (k : t) : t :=
  mk (id k) (patientName k) (patientAge k) (source k) (status k) v
     (slotIndex k) (priorityScore k) (requestedAt k) (allocatedAt k)
     (completedAt k) (flexibility k).

Definition set_slotIndex (v : option nat) (k : t) : t :=
  mk (id k) (patientName k) (patientAge k) (source k) (status k) (doctorId k)
     v (priorityScore k) (requestedAt k) (allocatedAt k)
     (completedAt k) (flexibility k).

Definition set_priorityScore (v : Q) (k : t) : t :=
  mk (id k) (patientName k) (patientAge k) (source k) (status k) (doctorId k)
     (slotIndex k) v (requestedAt k) (allocatedAt k)
     (completedAt k) (flexibility k).

Definition set_allocatedAt (v : option Z) (k : t) : t :=
  mk (id k) (patientName k) (patientAge k) (source k) (status k) (doctorId k)
     (slotIndex k) (priorityScore k) (requestedAt k) v
     (completedAt k) (flexibility k).

End Token.

Module Slot.

Record t := mk {
  startTime : Z;
  endTime : Z;
  capacity : Z;
  allocatedTokenIds : list string;
  status : SlotStatus;
  emergencyCount : Z
}.

Definition set_allocatedTokenIds (v : list string) (s : t) : t :=
  mk (startTime s) (endTime s) (capacity s) v (status s) (emergencyCount s).

Definition set_status (v : SlotStatus) (s : t) : t :=
  mk (startTime s) (endTime s) (capacity s) (allocatedTokenIds s) v
     (emergencyCount s).

Definition set_emergencyCount (v : Z) (s : t) : t :=
  mk (startTime s) (endTime s) (capacity s) (allocatedTokenIds s) (status s) v.

(** [slot.allocatedTokenIds.length] *)
Definition occupancy (s : t) : Z := Z.of_nat (length (allocatedTokenIds s)).

End Slot.

Module Doctor.

(** Modelled from the spec: models/Doctor.ts is not among the sources.  The
    record has the fields the engine reads: the identity, the slot ledger and
    the two optional urgent ceilings (the simulation driver's object literals
    show the same fields; working hours and the slot grid parameters are read
    by the slot generator only). *)
Record t := mk {
  id : string;
  slots : list Slot.t;
  maxEmergenciesPerSlot : option Z;
  maxEmergenciesPerDay : option Z
}.

Definition set_slots (v : list Slot.t) (d : t) : t :=
  mk (id d) v (maxEmergenciesPerSlot d) (maxEmergenciesPerDay d).

End Doctor.

(** ** The mutable state *)

(** A reference to a token object. *)
Definition tref := nat.

Record World := mkWorld {
  heap : tref → Token.t;
  doctor : Doctor.t;
  queues : gmap string (list tref)
}.

Definition set_heap (h : tref → Token.t) (w : World) : World :=
  mkWorld h (doctor w) (queues w).
Definition set_slots (ss : list Slot.t) (w : World) : World :=
  mkWorld (heap w) (Doctor.set_slots ss (doctor w)) (queues w).
Definition set_queues (q : gmap string (list tref)) (w : World) : World :=
  mkWorld (heap w) (doctor w) q.

(** Mutation of the object behind reference [r]. *)
Definition heap_upd (r : tref) (f : Token.t → Token.t) (h : tref → Token.t)
  : tref → Token.t :=
  λ r', if decide (r' = r) then f (h r') else h r'.

Definition slots_of (w : World) : list Slot.t := Doctor.slots (doctor w).

Inductive completion (A : Type) :=
| Normal (a : A)
| Thrown.
Arguments Normal {A} a.
Arguments Thrown {A}.

(** ** engine/priorityCalculator.ts *)

Definition basePriority (s : PatientSource) : Z :=
  match s with
  | EMERGENCY => 1000
  | REFERRAL => 500
  | FOLLOWUP => 300
  | ONLINE => 100
  | WALKIN => 0
  end.

(** The value of the expression, exactly. *)
Definition calculatePriority (k : Token.t) : Q :=
  let tiebreaker := (- inject_Z (Token.requestedAt k) / 1000000000)%Q in
  (inject_Z (basePriority (Token.source k)) + tiebreaker)%Q.

(** The number the code returns: the division and the addition are each
    rounded to a double, [fl] being the rounding; the time value, its
    negation and the constants are exact. *)
Definition calculatePriority_double (fl : Q → Q) (k : Token.t) : Q :=
  let tiebreaker := fl (- inject_Z (Token.requestedAt k) / 1000000000)%Q in
  fl (inject_Z (basePriority (Token.source k)) + tiebreaker)%Q.

(** What rounding to the nearest double guarantees for a magnitude up to
    2^53: an error of at most half a unit in the last place, that is
    2^-53 of the magnitude for a normal number and 2^-1075 below the normal
    range. *)
Definition rounds_to_double (fl : Q → Q) : Prop :=
  ∀ x : Q,
    (Qabs x <= inject_Z (2 ^ 53))%Q →
    (Qabs (fl x - x)
     <= Qabs x * (1 # (2 ^ 53)%positive) + (1 # (2 ^ 1075)%positive))%Q.

(** ** engine/queueManager.ts *)

Module QueueManager.

(** [this.queues.get(doctorId) || []] *)
Definition getQueue (doctorId : string) (w : World) : list tref :=
  default [] (queues w !! doctorId).

Definition score (w : World) (r : tref) : Q := Token.priorityScore (heap w r).

(** The insertion point: the first position whose entry has a strictly lower
    score than the token, or the length of the queue. *)
Definition insertIndex (w : World) (token : tref) (queue : list tref) : nat :=
  match list_find (λ r, (score w r < score w token)%Q) queue with
  | Some (i, _) => i
  | None => length queue
  end.

(** [queue.splice(i, 0, token)] *)
Definition splice_in (i : nat) (token : tref) (queue : list tref) : list tref :=
  take i queue ++ token :: drop i queue.

Definition enqueue (doctorId : string) (token : tref) (w : World) : World :=
  let queue := getQueue doctorId w in
  set_queues
    (<[doctorId := splice_in (insertIndex w token queue) token queue]> (queues w))
    w.

Definition dequeue (doctorId : string) (w : World) : World * option tref :=
  match queues w !! doctorId with
  | None => (w, None)
  | Some [] => (w, None)
  | Some (r :: rest) => (set_queues (<[doctorId := rest]> (queues w)) w, Some r)
  end.

Fixpoint requeue (doctorId : string) (tokens : list tref) (w : World) : World :=
  match tokens with
  | [] => w
  | r :: rest => requeue doctorId rest (enqueue doctorId r w)
  end.

End QueueManager.

(** ** engine/allocationEngine.ts *)

(** [ids.push(id)] followed by the "now full" status update; the source
    repeats these two statements at each of its four placement sites. *)
Definition place (tokenId : string) (s : Slot.t) : Slot.t :=
  let s1 := Slot.set_allocatedTokenIds (Slot.allocatedTokenIds s ++ [tokenId]) s in
  if decide (Slot.occupancy s1 = Slot.capacity s1)
  then Slot.set_status FULL s1 else s1.

(** The four assignments that mark a token allocated to slot [i]. *)
Definition mark_allocated (now : Z) (doctorId : string) (i : nat) (k : Token.t)
  : Token.t :=
  Token.set_allocatedAt (Some now)
    (Token.set_slotIndex (Some i)
      (Token.set_doctorId (Some doctorId)
        (Token.set_status ALLOCATED k))).

(** [indexOf] and [splice(index, 1)] on the occupant list, with the status
    reverted from FULL when capacity frees; shared by freeTokenFromSlot and
    shiftToken. *)
Definition indexOf (x : string) (l : list string) : option nat :=
  fst <$> list_find (λ y, y = x) l.

Definition unplace (tokenId : string) (s : Slot.t) : Slot.t :=
  match indexOf tokenId (Slot.allocatedTokenIds s) with
  | Some index =>
      let s1 := Slot.set_allocatedTokenIds
                  (delete index (Slot.allocatedTokenIds s)) s in
      if decide (Slot.status s1 = FULL ∧ (Slot.occupancy s1 < Slot.capacity s1)%Z)
      then Slot.set_status AVAILABLE s1 else s1
  | None => s
  end.

Module AllocationEngine.

Definition has_room (s : Slot.t) : Prop :=
  Slot.status s = AVAILABLE ∧ (Slot.occupancy s < Slot.capacity s)%Z.

#[global] Instance has_room_dec (s : Slot.t) : Decision (has_room s).
Proof. unfold has_room. apply _. Defined.

Definition allocateToken (now : Z) (token : tref) (w : World)
  : World * option nat :=
  match list_find has_room (slots_of w) with
  | Some (i, slot) =>
      let w1 := set_slots (<[i := place (Token.id (heap w token)) slot]> (slots_of w)) w in
      let w2 := set_heap
                  (heap_upd token (mark_allocated now (Doctor.id (doctor w)) i)
                            (heap w1)) w1 in
      (w2, Some i)
  | None => (w, None)
  end.

(** The [while (true)] loop, with the number of iterations bounded by
    [fuel]; [None] means the bound was reached before the loop exited. *)
Fixpoint allocateFromQueue_loop (fuel : nat) (now : Z) (doctorId : string)
    (allocated : nat) (w : World) : option (World * nat) :=
  match fuel with
  | O => None
  | S fuel' =>
      match QueueManager.dequeue doctorId w with
      | (w1, None) => Some (w1, allocated)
      | (w1, Some token) =>
          match allocateToken now token w1 with
          | (w2, None) => Some (QueueManager.enqueue doctorId token w2, allocated)
          | (w2, Some _) =>
              allocateFromQueue_loop fuel' now doctorId (S allocated) w2
          end
      end
  end.

Definition allocateFromQueue (now : Z) (doctorId : string) (w : World)
  : World * nat :=
  match allocateFromQueue_loop
          (S (length (QueueManager.getQueue doctorId w))) now doctorId 0 w with
  | Some r => r
  | None => (w, 0%nat)
  end.

Definition mark_requeued (k : Token.t) : Token.t :=
  Token.set_allocatedAt None
    (Token.set_slotIndex None (Token.set_status REQUEUED k)).

(** The inner loop of reallocate over one slot's occupant ids; an id the
    token map does not resolve is skipped. *)
Fixpoint requeue_occupants (tokens : gmap string tref) (ids : list string)
    (h : tref → Token.t) (requeuedTokens : list tref)
  : (tref → Token.t) * list tref :=
  match ids with
  | [] => (h, requeuedTokens)
  | tokenId :: rest =>
      match tokens !! tokenId with
      | Some r =>
          requeue_occupants tokens rest (heap_upd r mark_requeued h)
                            (requeuedTokens ++ [r])
      | None => requeue_occupants tokens rest h requeuedTokens
      end
  end.

(** The outer loop of reallocate, over the slots from [fromSlotIndex] on. *)
Fixpoint free_slots (tokens : gmap string tref) (ss : list Slot.t)
    (h : tref → Token.t) (requeuedTokens : list tref)
  : list Slot.t * (tref → Token.t) * list tref :=
  match ss with
  | [] => ([], h, requeuedTokens)
  | slot :: rest =>
      let '(h1, rq1) :=
        requeue_occupants tokens (Slot.allocatedTokenIds slot) h requeuedTokens in
      let '(rest', h2, rq2) := free_slots tokens rest h1 rq1 in
      (Slot.set_allocatedTokenIds [] slot :: rest', h2, rq2)
  end.

(** Steps 1 and 2 of reallocate: the state after the freeing loop and the
    list [requeuedTokens] it has built. *)
Definition reallocate_free (fromSlotIndex : nat) (tokens : gmap string tref)
    (w : World) : World * list tref :=
  let '(cleared, h, requeuedTokens) :=
    free_slots tokens (drop fromSlotIndex (slots_of w)) (heap w) [] in
  (set_heap h (set_slots (take fromSlotIndex (slots_of w) ++ cleared) w),
   requeuedTokens).

Definition reallocate (now : Z) (doctorId : string) (fromSlotIndex : nat)
    (tokens : gmap string tref) (w : World) : World * list tref :=
  let '(w1, requeuedTokens) := reallocate_free fromSlotIndex tokens w in
  let w2 := QueueManager.requeue doctorId requeuedTokens w1 in
  let '(w3, _) := allocateFromQueue now doctorId w2 in
  (w3, requeuedTokens).

Definition clear_allocation (k : Token.t) : Token.t :=
  Token.set_allocatedAt None (Token.set_slotIndex None k).

Definition freeTokenFromSlot (token : tref) (w : World)
  : World * completion unit :=
  match Token.slotIndex (heap w token) with
  | None => (w, Normal ())
  | Some i =>
      match slots_of w !! i with
      | None => (w, Thrown)
      | Some slot =>
          let w1 := set_slots
                      (<[i := unplace (Token.id (heap w token)) slot]> (slots_of w))
                      w in
          (set_heap (heap_upd token clear_allocation (heap w1)) w1, Normal ())
      end
  end.

End AllocationEngine.

(** ** engine/emergencyReshuffler.ts *)

Module EmergencyReshuffler.

Definition flexScore (k : Token.t) : Z :=
  match Token.flexibility k with
  | Some HIGH => 3
  | Some MEDIUM => 2
  | Some LOW => 1
  | None => 0
  end.

Fixpoint findMostFlexible_loop (tokens : gmap string tref) (h : tref → Token.t)
    (ids : list string) (mostFlexible : option tref) (highestFlexibility : Z)
  : option tref :=
  match ids with
  | [] => mostFlexible
  | tokenId :: rest =>
      match tokens !! tokenId with
      | None =>
          findMostFlexible_loop tokens h rest mostFlexible highestFlexibility
      | Some r =>
          if decide (highestFlexibility < flexScore (h r))%Z
          then findMostFlexible_loop tokens h rest (Some r) (flexScore (h r))
          else findMostFlexible_loop tokens h rest mostFlexible highestFlexibility
      end
  end.

Definition findMostFlexibleToken (slot : Slot.t) (tokens : gmap string tref)
    (h : tref → Token.t) : option tref :=
  findMostFlexible_loop tokens h (Slot.allocatedTokenIds slot) None (-1).

(** The test both searches of findNearbySlotWithCapacity apply at index [i]. *)
Definition room_at (ss : list Slot.t) (i : Z) : Prop :=
  match ss !! Z.to_nat i with
  | Some slot => AllocationEngine.has_room slot
  | None => False
  end.

#[global] Instance room_at_dec (ss : list Slot.t) (i : Z) : Decision (room_at ss i).
Proof. unfold room_at. destruct (ss !! Z.to_nat i); apply _. Defined.

(** Forward indices [currentSlotIndex + 1 .. maxSlot], then backward indices
    [currentSlotIndex - 1 .. minSlot].  For a [currentSlotIndex] inside the
    ledger, as at the only call site, every index visited is inside it. *)
Definition findNearbySlotWithCapacity (w : World) (currentSlotIndex : nat)
    (window : Z) : option nat :=
  let c := Z.of_nat currentSlotIndex in
  let minSlot := Z.max 0 (c - window) in
  let maxSlot := Z.min (Z.of_nat (length (slots_of w)) - 1) (c + window) in
  let forward := seqZ (c + 1) (maxSlot - c) in
  let backward := reverse (seqZ minSlot (c - minSlot)) in
  match list_find (room_at (slots_of w)) forward with
  | Some (_, i) => Some (Z.to_nat i)
  | None =>
      match list_find (room_at (slots_of w)) backward with
      | Some (_, i) => Some (Z.to_nat i)
      | None => None
      end
  end.

Definition mark_shifted (now : Z) (toSlotIndex : nat) (k : Token.t) : Token.t :=
  Token.set_allocatedAt (Some now) (Token.set_slotIndex (Some toSlotIndex) k).

Definition shiftToken (now : Z) (token : tref) (fromSlotIndex toSlotIndex : nat)
    (w : World) : World * completion unit :=
  match slots_of w !! fromSlotIndex with
  | None => (w, Thrown)
  | Some fromSlot =>
      let tokenId := Token.id (heap w token) in
      let w1 := set_slots (<[fromSlotIndex := unplace tokenId fromSlot]> (slots_of w)) w in
      match slots_of w1 !! toSlotIndex with
      | None => (w1, Thrown)
      | Some toSlot =>
          let w2 := set_slots (<[toSlotIndex := place tokenId toSlot]> (slots_of w1)) w1 in
          (set_heap (heap_upd token (mark_shifted now toSlotIndex) (heap w2)) w2,
           Normal ())
      end
  end.

Definition allocateEmergencyToSlot (now : Z) (emergencyToken : tref)
    (slotIndex : nat) (w : World) : World * completion (option nat) :=
  match slots_of w !! slotIndex with
  | None => (w, Thrown)
  | Some slot =>
      if decide (Slot.capacity slot ≤ Slot.occupancy slot)%Z
      then (w, Normal None)
      else
        let w1 := set_slots
                    (<[slotIndex := place (Token.id (heap w emergencyToken)) slot]>
                       (slots_of w)) w in
        (set_heap
           (heap_upd emergencyToken
              (mark_allocated now (Doctor.id (doctor w)) slotIndex) (heap w1)) w1,
         Normal (Some slotIndex))
  end.

Definition RESHUFFLE_WINDOW : Z := 2.

(** The scan of attemptReshuffle over the target indices still to visit.
    Nothing is mutated before the iteration that returns. *)
Fixpoint attemptReshuffle_loop (now : Z) (emergencyToken : tref)
    (tokens : gmap string tref) (targets : list nat) (w : World)
  : World * completion (option nat) :=
  match targets with
  | [] => (w, Normal None)
  | targetSlotIndex :: rest =>
      match slots_of w !! targetSlotIndex with
      | None => (w, Thrown)
      | Some targetSlot =>
          if decide (Slot.status targetSlot = BLOCKED)
          then attemptReshuffle_loop now emergencyToken tokens rest w
          else if decide (Slot.occupancy targetSlot < Slot.capacity targetSlot)%Z
          then allocateEmergencyToSlot now emergencyToken targetSlotIndex w
          else
            match findMostFlexibleToken targetSlot tokens (heap w) with
            | None => attemptReshuffle_loop now emergencyToken tokens rest w
            | Some flexibleToken =>
                match findNearbySlotWithCapacity w targetSlotIndex RESHUFFLE_WINDOW with
                | None => attemptReshuffle_loop now emergencyToken tokens rest w
                | Some destinationSlot =>
                    match shiftToken now flexibleToken targetSlotIndex
                                     destinationSlot w with
                    | (w1, Thrown) => (w1, Thrown)
                    | (w1, Normal _) =>
                        allocateEmergencyToSlot now emergencyToken targetSlotIndex w1
                    end
                end
            end
      end
  end.

Definition attemptReshuffle (now : Z) (emergencyToken : tref)
    (tokens : gmap string tref) (w : World) : World * completion (option nat) :=
  attemptReshuffle_loop now emergencyToken tokens
    (seq 0 (length (slots_of w))) w.

End EmergencyReshuffler.

(** ** events/emergencyHandler.ts *)

Definition perSlotCeiling (d : Doctor.t) : Z :=
  default 1%Z (Doctor.maxEmergenciesPerSlot d).

Definition quota_room (d : Doctor.t) (s : Slot.t) : Prop :=
  Slot.status s ≠ BLOCKED ∧ (Slot.occupancy s < Slot.capacity s)%Z
  ∧ (Slot.emergencyCount s < perSlotCeiling d)%Z.

#[global] Instance quota_room_dec d s : Decision (quota_room d s).
Proof. unfold quota_room. apply _. Defined.

Definition allocateWithQuotaCheck (now : Z) (token : tref) (w : World)
  : World * option nat :=
  match list_find (quota_room (doctor w)) (slots_of w) with
  | Some (i, slot) =>
      let w1 := set_slots (<[i := place (Token.id (heap w token)) slot]> (slots_of w)) w in
      (set_heap
         (heap_upd token (mark_allocated now (Doctor.id (doctor w)) i) (heap w1)) w1,
       Some i)
  | None => (w, None)
  end.

Definition countDailyEmergencies (d : Doctor.t) : Z :=
  foldl (λ sum slot, (sum + Slot.emergencyCount slot)%Z) 0%Z (Doctor.slots d).

(** [doctor.slots[i].emergencyCount++] *)
Definition bump_emergencyCount (i : nat) (w : World) : World * completion bool :=
  match slots_of w !! i with
  | None => (w, Thrown)
  | Some slot =>
      (set_slots
         (<[i := Slot.set_emergencyCount (Slot.emergencyCount slot + 1) slot]>
            (slots_of w)) w,
       Normal true)
  end.

Definition mark_queued (doctorId : string) (k : Token.t) : Token.t :=
  Token.set_doctorId (Some doctorId) (Token.set_status QUEUED k).

Definition queue_emergency (token : tref) (w : World) : World * completion bool :=
  let d := Doctor.id (doctor w) in
  (QueueManager.enqueue d token
     (set_heap (heap_upd token (mark_queued d) (heap w)) w),
   Normal false).

Definition dailyQuotaReached (d : Doctor.t) : Prop :=
  match Doctor.maxEmergenciesPerDay d with
  | Some m => (m ≤ countDailyEmergencies d)%Z
  | None => False
  end.

#[global] Instance dailyQuotaReached_dec d : Decision (dailyQuotaReached d).
Proof. unfold dailyQuotaReached. destruct (Doctor.maxEmergenciesPerDay d); apply _. Defined.

(** [reshuffle] is [Some tokens] when both optional arguments, the reshuffler
    and the token map, are passed. *)
Definition handleEmergency (now : Z) (token : tref)
    (reshuffle : option (gmap string tref)) (w : World)
  : World * completion bool :=
  if decide (Token.source (heap w token) ≠ EMERGENCY) then (w, Thrown)
  else
    let w0 := set_heap
                (heap_upd token
                   (λ k, Token.set_priorityScore (calculatePriority k) k)
                   (heap w)) w in
    if decide (dailyQuotaReached (doctor w0)) then queue_emergency token w0
    else
      match allocateWithQuotaCheck now token w0 with
      | (w1, Some slotIndex) => bump_emergencyCount slotIndex w1
      | (w1, None) =>
          match reshuffle with
          | Some tokens =>
              match EmergencyReshuffler.attemptReshuffle now token tokens w1 with
              | (w2, Thrown) => (w2, Thrown)
              | (w2, Normal (Some reshuffledSlot)) =>
                  bump_emergencyCount reshuffledSlot w2
              | (w2, Normal None) => queue_emergency token w2
              end
          | None => queue_emergency token w1
          end
      end.

(** ** Date *)

(** A [Date] holds a time value, a whole number of milliseconds at most
    8.64e15 away from the epoch, or it is invalid.  [TimeClip] is the check
    the constructor and the setters apply to a computed time value, and a
    comparison in which an invalid Date takes part is false.  The Dates kept
    in tokens and slots are valid and are held as [Z]; [option Z] is used
    where the code computes a Date that may come out invalid. *)
Definition MAX_TIME : Z := 8640000000000000.

Definition TimeClip (t : Z) : option Z :=
  if decide (- MAX_TIME ≤ t ≤ MAX_TIME)%Z then Some t else None.

(** [a < b] on Dates. *)
Definition date_lt (a b : option Z) : Prop :=
  match a, b with
  | Some x, Some y => (x < y)%Z
  | _, _ => False
  end.

#[global] Instance date_lt_dec a b : Decision (date_lt a b).
Proof. unfold date_lt. destruct a, b; apply _. Defined.

(** ** events/doctorDelayHandler.ts *)

(** The blocking loop: [i] is the index of the head of [ss], [first] the
    current [firstAffectedSlot] ([None] for -1).  It returns the slots with
    the blocked prefix and the final [firstAffectedSlot]. *)
Fixpoint block_affected (delayEndTime : option Z) (i : nat) (first : option nat)
    (ss : list Slot.t) : list Slot.t * option nat :=
  match ss with
  | [] => ([], first)
  | slot :: rest =>
      if decide (date_lt (Some (Slot.startTime slot)) delayEndTime)
      then
        let first' := match first with None => Some i | Some _ => first end in
        let '(rest', f) := block_affected delayEndTime (S i) first' rest in
        (Slot.set_status BLOCKED slot :: rest', f)
      else (slot :: rest, first)
  end.

(** [now] is the time value of [new Date()], [delayMinutes] a whole number
    of minutes.  [new Date(now.getTime() + delayMinutes * 60000)] is
    evaluated in doubles: the product is a multiple of 32 and so exact
    below 2^58, and the sum is exact up to 2^53; beyond these bounds the
    rounded sum lies outside the Date range as the exact one does.  So the
    Date built is [TimeClip] of the exact sum. *)
Definition handleDoctorDelay (now : Z) (delayMinutes : Z)
    (tokens : gmap string tref) (w : World) : World * list tref :=
  let delayEndTime := TimeClip (now + delayMinutes * 60000) in
  let '(ss, firstAffectedSlot) :=
    block_affected delayEndTime 0 None (slots_of w) in
  let w1 := set_slots ss w in
  match firstAffectedSlot with
  | None => (w1, [])
  | Some i =>
      AllocationEngine.reallocate now (Doctor.id (doctor w1)) i tokens w1
  end.

(** ** Vocabulary of the specification *)

Definition within_capacity (s : Slot.t) : Prop :=
  (Slot.occupancy s ≤ Slot.capacity s)%Z.

(** For all slots, occupant count ≤ capacity. *)
Definition capacity_invariant (w : World) : Prop :=
  Forall within_capacity (slots_of w).

(** For all slots, urgent-occupant count ≤ the per-slot ceiling. *)
Definition ceiling_invariant (w : World) : Prop :=
  Forall (λ s, (Slot.emergencyCount s ≤ perSlotCeiling (doctor w))%Z) (slots_of w).

(** Status as a derived view of occupancy, for a slot that is not blocked. *)
Definition status_derived (s : Slot.t) : Prop :=
  Slot.status s ≠ BLOCKED →
  Slot.status s = (if decide (Slot.occupancy s = Slot.capacity s) then FULL else AVAILABLE).

(** Whether a slot is under a block. *)
Definition is_blocked (s : Slot.t) : bool := bool_decide (Slot.status s = BLOCKED).

(** A queue in descending order of priority score. *)
Definition descending (w : World) (queue : list tref) : Prop :=
  StronglySorted (λ a b, (QueueManager.score w b <= QueueManager.score w a)%Q) queue.

(** Slots in chronological order of their start times. *)
Definition chronological (ss : list Slot.t) : Prop :=
  StronglySorted (λ a b, (Slot.startTime a ≤ Slot.startTime b)%Z) ss.

(** The occupants of a run of slots that the token map resolves, in slot
    order and occupant order. *)
Definition resolved_occupants (tokens : gmap string tref) (ss : list Slot.t)
  : list tref :=
  omap (λ tokenId, tokens !! tokenId) (concat (Slot.allocatedTokenIds <$> ss)).

(** What the allocation bookkeeping leaves on a placed token. *)
Definition placed (k : Token.t) : Prop :=
  Token.status k = ALLOCATED ∧ is_Some (Token.slotIndex k).

(** Token [r] has a place in the ledger: it is ALLOCATED, and the slot its
    [slotIndex] points at lists its id among the occupants. *)
Definition seated (w : World) (r : tref) : Prop :=
  Token.status (heap w r) = ALLOCATED
  ∧ ∃ i slot,
      Token.slotIndex (heap w r) = Some i
      ∧ slots_of w !! i = Some slot
      ∧ Token.id (heap w r) ∈ Slot.allocatedTokenIds slot.

(** The state and count a drain of queue [q] may end in: [n] heads placed,
    and either the queue exhausted or the next head pushed back where its
    score puts it, no slot having room. *)
Definition drained (d : string) (w : World) (q : list tref) (w' : World)
    (n : nat) : Prop :=
  n ≤ length q
  ∧ (∀ r, QueueManager.score w' r = QueueManager.score w r)
  ∧ (∀ r, placed (heap w r) → placed (heap w' r))
  ∧ (∀ r, r ∈ take n q → placed (heap w' r))
  ∧ match drop n q with
    | [] => QueueManager.getQueue d w' = []
    | r :: rest =>
        QueueManager.getQueue d w'
        = QueueManager.splice_in (QueueManager.insertIndex w' r rest) r rest
        ∧ Forall (λ s, ¬ AllocationEngine.has_room s) (slots_of w')
    end.

(** After the freeing loops, reference [r] holds [mark_requeued] of what it
    held iff it was displaced. *)
Definition requeued_in (h h' : tref → Token.t) (displaced : list tref) : Prop :=
  ∀ r, h' r = if decide (r ∈ displaced)
              then AllocationEngine.mark_requeued (h r) else h r.

(** ** Concrete states used below *)

Module Sample.

Definition token (i : string) (src : PatientSource) (st : TokenStatus)
    (slot : option nat) (at_ms : Z) (fx : option TokenFlexibility) : Token.t :=
  let k := Token.mk i "patient" 40 src st
             (match st with REQUESTED => None | _ => Some "DOC1" end) slot 0 at_ms
             (match slot with Some _ => Some at_ms | None => None end) None fx in
  Token.set_priorityScore (calculatePriority k) k.

(** The store in which reference [r] is the [r]-th token of [ks]. *)
Definition store (ks : list Token.t) : tref → Token.t :=
  λ r, nth r ks (token "" WALKIN REQUESTED None 0 None).

Definition slot (start : Z) (cap : Z) (ids : list string) (st : SlotStatus)
    (urgent : Z) : Slot.t :=
  Slot.mk start (start + 1800000) cap ids st urgent.

Definition world (ks : list Token.t) (ss : list Slot.t) (perSlot : option Z)
    (q : list tref) : World :=
  mkWorld (store ks) (Doctor.mk "DOC1" ss perSlot None) {["DOC1" := q]}.

(** One slot of capacity 1 held by A; B waits in the queue. *)
Definition booked_out : World :=
  world [token "A" ONLINE ALLOCATED (Some 0) 1000 (Some MEDIUM);
         token "B" WALKIN QUEUED None 2000 (Some HIGH)]
        [slot 0 1 ["A"] FULL 0] None [1].

(** One free slot of capacity 1; A (online) and B (walk-in) wait. *)
Definition two_waiting : World :=
  world [token "A" ONLINE QUEUED None 1000 (Some MEDIUM);
         token "B" WALKIN QUEUED None 2000 (Some HIGH)]
        [slot 0 1 [] AVAILABLE 0] None [0; 1].

(** One open slot of capacity 2 with the single occupant A. *)
Definition lone_patient : World :=
  world [token "A" ONLINE ALLOCATED (Some 0) 1000 (Some MEDIUM)]
        [slot 0 2 ["A"] AVAILABLE 0] None [].

(** Two slots of capacity 1, half an hour apart: the first free, the second
    held by A. *)
Definition late_booking : World :=
  world [token "A" ONLINE ALLOCATED (Some 1) 1000 (Some MEDIUM)]
        [slot 0 1 [] AVAILABLE 0; slot 1800000 1 ["A"] FULL 0] None [].

(** One free slot of capacity 3 under a per-slot urgent ceiling of 1, and two
    urgent requests not yet handled. *)
Definition two_urgent : World :=
  world [token "E1" EMERGENCY REQUESTED None 1000 None;
         token "E2" EMERGENCY REQUESTED None 2000 None]
        [slot 0 3 [] AVAILABLE 0] (Some 1%Z) [].

(** A full slot whose only occupant A carries no flexibility tag, a free
    slot next to it, and an urgent request E. *)
Definition untagged_full : World :=
  world [token "A" WALKIN ALLOCATED (Some 0) 1000 None;
         token "E" EMERGENCY REQUESTED None 2000 None]
        [slot 0 1 ["A"] FULL 0; slot 1800000 1 [] AVAILABLE 0] None [].

(** A walk-in requested on 2020-01-01 and an online booking requested on
    2024-01-01 (milliseconds since the epoch, UTC). *)
Definition walkin_2020 : Token.t :=
  token "W" WALKIN REQUESTED None 1577836800000 None.
Definition online_2024 : Token.t :=
  token "N" ONLINE REQUESTED None 1704067200000 None.

(** The token map that resolves the ids of the first [n] stored tokens. *)
Definition token_map (w : World) (n : nat) : gmap string tref :=
  list_to_map ((λ r, (Token.id (heap w r), r)) <$> seq 0 n).

End Sample.

(** ** Further operations of the sources *)

(** engine/queueManager.ts: [remove] and [getQueueLength]. *)
Module Queue.

(** [queue.findIndex(t => t.id === tokenId)] *)
Definition findIndex (tokenId : string) (w : World) (queue : list tref)
  : option nat :=
  fst <$> list_find (λ r, Token.id (heap w r) = tokenId) queue.

Definition remove (doctorId tokenId : string) (w : World) : World * bool :=
  match queues w !! doctorId with
  | None => (w, false)
  | Some queue =>
      match findIndex tokenId w queue with
      | None => (w, false)
      | Some index =>
          (set_queues (<[doctorId := delete index queue]> (queues w)) w, true)
      end
  end.

Definition getQueueLength (doctorId : string) (w : World) : nat :=
  length (QueueManager.getQueue doctorId w).

End Queue.

(** events/cancellationHandler.ts.  [!token.doctorId] holds for [null] and
    for the empty string. *)
Definition mark_cancelled (now : Z) (k : Token.t) : Token.t :=
  Token.mk (Token.id k) (Token.patientName k) (Token.patientAge k)
    (Token.source k) CANCELLED (Token.doctorId k) (Token.slotIndex k)
    (Token.priorityScore k) (Token.requestedAt k) (Token.allocatedAt k)
    (Some now) (Token.flexibility k).

Definition missing_allocation_info (k : Token.t) : Prop :=
  Token.doctorId k = None ∨ Token.doctorId k = Some ""%string
  ∨ Token.slotIndex k = None.

#[global] Instance missing_allocation_info_dec k :
  Decision (missing_allocation_info k).
Proof. unfold missing_allocation_info. apply _. Defined.

Definition handleCancellation (now : Z) (token : tref) (w : World)
  : World * completion unit :=
  if decide (Token.status (heap w token) ≠ ALLOCATED) then (w, Thrown)
  else if decide (missing_allocation_info (heap w token)) then (w, Thrown)
  else
    match AllocationEngine.freeTokenFromSlot token w with
    | (w1, Thrown) => (w1, Thrown)
    | (w1, Normal _) =>
        let w2 := set_heap (heap_upd token (mark_cancelled now) (heap w1)) w1 in
        ((AllocationEngine.allocateFromQueue now (Doctor.id (doctor w2)) w2).1,
         Normal ())
    end.

(** engine/slotGenerator.ts.  [midnight] is the time value of local midnight
    of the (valid) Date passed in; the hours, the minutes and the slot
    duration are whole numbers, the hours and minutes being the numbers
    parsed from the doctor's "HH:MM" strings.  The offset of the time zone
    is taken not to change over the span the Dates cover, so that
    [setHours(h, m, 0, 0)] gives [midnight + h:m] and
    [setMinutes(getMinutes() + d)] moves a Date by [d] minutes.  Both
    setters leave an invalid Date invalid and otherwise apply [TimeClip] to
    the new time value.  Their double arithmetic is exact on the values
    within the Date range, integers below 2^53, and, the operands being
    whole minutes, on multiples of 32 up to 2^58; a value past that is
    rounded but stays outside the range as the exact one does. *)
Module SlotGenerator.

(** The slot literal of the loop body.  Its [startTime] copies a Date that
    has just compared below [scheduleEnd] and is therefore valid; its
    [endTime] is [slotEnd], which may be invalid. *)
Record built := mkBuilt {
  startTime : Z;
  endTime : option Z;
  capacity : Z;
  allocatedTokenIds : list string;
  status : SlotStatus;
  emergencyCount : Z;
}.

(** [d.setMinutes(d.getMinutes() + minutes)] *)
Definition setMinutes (d : option Z) (minutes : Z) : option Z :=
  match d with
  | Some t => TimeClip (t + minutes * 60000)
  | None => None
  end.

(** The [while (currentSlotStart < scheduleEnd)] loop, bounded by [fuel];
    [None] means the bound was reached before the loop exited. *)
Fixpoint generateSlots_loop (fuel : nat) (scheduleEnd : option Z)
    (slotDurationMinutes slotCapacity : Z) (currentSlotStart : option Z)
    (slots : list built) : option (list built) :=
  match fuel with
  | O => None
  | S fuel' =>
      match currentSlotStart with
      | Some start =>
          if decide (date_lt currentSlotStart scheduleEnd)
          then
            let slotEnd := setMinutes currentSlotStart slotDurationMinutes in
            if decide (date_lt scheduleEnd slotEnd) then Some slots
            else
              generateSlots_loop fuel' scheduleEnd slotDurationMinutes slotCapacity
                (setMinutes currentSlotStart slotDurationMinutes)
                (slots ++ [mkBuilt start slotEnd slotCapacity [] AVAILABLE 0])
          else Some slots
      | None => Some slots
      end
  end.

Definition at_time (midnight hour minute : Z) : Z :=
  (midnight + hour * 3600000 + minute * 60000)%Z.

(** [new Date(date)] followed by [setHours(hour, minute, 0, 0)] *)
Definition setHours (midnight hour minute : Z) : option Z :=
  TimeClip (at_time midnight hour minute).

Definition generateSlots (fuel : nat) (midnight startHour startMinute endHour
    endMinute slotDurationMinutes slotCapacity : Z) : option (list built) :=
  generateSlots_loop fuel (setHours midnight endHour endMinute)
    slotDurationMinutes slotCapacity (setHours midnight startHour startMinute) [].

(** A slot of the engine as the generator builds it, and the grid of [n]
    back-to-back slots of [len] milliseconds from [start]. *)
Definition fresh_slot (start stop capacity : Z) : Slot.t :=
  Slot.mk start stop capacity [] AVAILABLE 0.

Definition built_of (s : Slot.t) : built :=
  mkBuilt (Slot.startTime s) (Some (Slot.endTime s)) (Slot.capacity s)
    (Slot.allocatedTokenIds s) (Slot.status s) (Slot.emergencyCount s).

Definition grid (start len capacity : Z) (n : Z) : list Slot.t :=
  (λ i, fresh_slot (start + i * len) (start + (i + 1) * len) capacity)
    <$> seqZ 0 n.

End SlotGenerator.

(** The occupants of the whole ledger, slot after slot. *)
Definition all_occupants (w : World) : list string :=
  concat (Slot.allocatedTokenIds <$> slots_of w).

(** [countDailyEmergencies] within the per-day ceiling, if one is set. *)
Definition daily_ceiling_invariant (w : World) : Prop :=
  match Doctor.maxEmergenciesPerDay (doctor w) with
  | Some m => (countDailyEmergencies (doctor w) ≤ m)%Z
  | None => True
  end.

(** The token map resolves an id to a token object that carries that id. *)
Definition consistent_map (tokens : gmap string tref) (w : World) : Prop :=
  ∀ tokenId r, tokens !! tokenId = Some r → Token.id (heap w r) = tokenId.

(** routes/tokenRoutes.ts: what two of the handlers do to the engine state
    once the request body is validated and the token and the doctor have
    been looked up.  [token] refers to the object the handler has at hand:
    the one it has just created (POST /tokens/request) or the one found in
    the token map (POST /tokens/cancel/:id). *)
Module TokenRoutes.


(** POST /tokens/cancel/:id for a token found QUEUED: [remove] is called
    when [token.doctorId] is neither null nor empty, then the token is
    marked CANCELLED with [completedAt] set. *)
Definition cancel_queued (now : Z) (token : tref) (w : World) : World :=
  let w1 := match Token.doctorId (heap w token) with
            | Some doctorId =>
                if decide (doctorId = ""%string) then w
                else (Queue.remove doctorId (Token.id (heap w token)) w).1
            | None => w
            end in
  set_heap (heap_upd token (mark_cancelled now) (heap w1)) w1.

End TokenRoutes.

(** The entries of a queue carry pairwise distinct ids. *)
Definition distinct_ids (w : World) (queue : list tref) : Prop :=
  NoDup ((λ r, Token.id (heap w r)) <$> queue).

(** Further concrete states. *)
Module Scenario.

(** Two free slots of capacity 2 under a per-slot urgent ceiling of 1 and a
    per-day ceiling of 1; two urgent requests not yet handled. *)
Definition capped_day : World :=
  mkWorld
    (Sample.store [Sample.token "E1" EMERGENCY REQUESTED None 1000 None;
                   Sample.token "E2" EMERGENCY REQUESTED None 2000 None])
    (Doctor.mk "DOC1"
       [Sample.slot 0 2 [] AVAILABLE 0; Sample.slot 1800000 2 [] AVAILABLE 0]
       (Some 1%Z) (Some 1%Z))
    {["DOC1"%string := []]}.

End Scenario.

(** * Properties *)

(** ** Slots under placement and removal *)

Section SlotFacts.

Lemma place_capacity tokenId s : Slot.capacity (place tokenId s) = Slot.capacity s.
Proof. unfold place. by case_decide. Qed.

Lemma place_ids tokenId s :
  Slot.allocatedTokenIds (place tokenId s) = Slot.allocatedTokenIds s ++ [tokenId].
Proof. unfold place. by case_decide. Qed.

Lemma place_occupancy tokenId s :
  Slot.occupancy (place tokenId s) = (Slot.occupancy s + 1)%Z.
Proof.
  unfold Slot.occupancy. rewrite place_ids, length_app. simpl. lia.
Qed.

Lemma place_emergencyCount tokenId s :
  Slot.emergencyCount (place tokenId s) = Slot.emergencyCount s.
Proof. unfold place. by case_decide. Qed.

Lemma place_within tokenId s :
  (Slot.occupancy s < Slot.capacity s)%Z → within_capacity (place tokenId s).
Proof.
  intros Hlt. unfold within_capacity.
  rewrite place_occupancy, place_capacity. lia.
Qed.

Lemma indexOf_Some x l i : indexOf x l = Some i → l !! i = Some x.
Proof.
  unfold indexOf. intros H.
  destruct (list_find _ l) as [[j y]|] eqn:Hfind; simplify_eq/=.
  apply list_find_Some in Hfind as (Hj & -> & _). done.
Qed.

Lemma unplace_capacity tokenId s :
  Slot.capacity (unplace tokenId s) = Slot.capacity s.
Proof.
  unfold unplace. destruct (indexOf _ _); [|done]. by case_decide.
Qed.

Lemma unplace_occupancy tokenId s :
  (Slot.occupancy (unplace tokenId s) ≤ Slot.occupancy s)%Z.
Proof.
  unfold unplace. destruct (indexOf _ _) as [index|] eqn:Hidx; [|lia].
  assert (Slot.occupancy
            (Slot.set_allocatedTokenIds
               (delete index (Slot.allocatedTokenIds s)) s) ≤ Slot.occupancy s)%Z
    as Hle.
  { unfold Slot.occupancy. simpl.
    rewrite length_delete by (by rewrite (indexOf_Some _ _ _ Hidx)). lia. }
  by case_decide.
Qed.

Lemma unplace_within tokenId s :
  within_capacity s → within_capacity (unplace tokenId s).
Proof.
  unfold within_capacity. intros Hs.
  pose proof (unplace_occupancy tokenId s). rewrite unplace_capacity. lia.
Qed.

End SlotFacts.

(** ** The queue manager leaves the doctor alone *)

Section QueueFacts.

Lemma requeue_doctor d rs w : doctor (QueueManager.requeue d rs w) = doctor w.
Proof. revert w. induction rs as [|r rs IH]; intros w; simpl; [done|]. by rewrite IH. Qed.

Lemma dequeue_doctor d w : doctor (QueueManager.dequeue d w).1 = doctor w.
Proof.
  unfold QueueManager.dequeue. by destruct (queues w !! d) as [[|r q]|].
Qed.

Lemma getQueue_enqueue d r w :
  QueueManager.getQueue d (QueueManager.enqueue d r w)
  = QueueManager.splice_in
      (QueueManager.insertIndex w r (QueueManager.getQueue d w)) r
      (QueueManager.getQueue d w).
Proof.
  unfold QueueManager.enqueue, QueueManager.getQueue at 1. simpl.
  by rewrite lookup_insert_eq.
Qed.

(** The two outcomes of [dequeue]: an empty queue and an untouched state, or
    the head and the tail left behind. *)
Lemma dequeue_cases d w :
  (QueueManager.getQueue d w = [] ∧ QueueManager.dequeue d w = (w, None))
  ∨ (∃ r rest, QueueManager.getQueue d w = r :: rest
       ∧ QueueManager.dequeue d w
         = (set_queues (<[d := rest]> (queues w)) w, Some r)).
Proof.
  unfold QueueManager.getQueue, QueueManager.dequeue.
  destruct (queues w !! d) as [[|r rest]|]; simpl; eauto.
Qed.

End QueueFacts.

(** ** allocateToken *)

Section AllocateToken.

Import AllocationEngine.

(** The two outcomes of [allocateToken]. *)
Lemma allocateToken_cases now token w :
  (Forall (λ s, ¬ has_room s) (slots_of w) ∧ allocateToken now token w = (w, None))
  ∨ (∃ i slot, slots_of w !! i = Some slot ∧ has_room slot
       ∧ allocateToken now token w
         = (set_heap
              (heap_upd token (mark_allocated now (Doctor.id (doctor w)) i) (heap w))
              (set_slots (<[i := place (Token.id (heap w token)) slot]> (slots_of w)) w),
            Some i)).
Proof.
  unfold allocateToken.
  destruct (list_find has_room (slots_of w)) as [[i slot]|] eqn:Hfind.
  - right. apply list_find_Some in Hfind as (Hi & Hroom & _). by exists i, slot.
  - left. by apply list_find_None in Hfind.
Qed.

Lemma allocateToken_capacity now token w :
  capacity_invariant w → capacity_invariant (allocateToken now token w).1.
Proof.
  intros Hinv.
  destruct (allocateToken_cases now token w)
    as [[_ ->]|(i & slot & Hi & [_ Hroom] & ->)]; [done|].
  unfold capacity_invariant. simpl.
  apply Forall_insert; [done|]. by apply place_within.
Qed.

Lemma allocateToken_queues now token w :
  queues (allocateToken now token w).1 = queues w.
Proof.
  by destruct (allocateToken_cases now token w) as [[_ ->]|(i & slot & _ & _ & ->)].
Qed.

Lemma allocateToken_score now token w r :
  QueueManager.score (allocateToken now token w).1 r = QueueManager.score w r.
Proof.
  destruct (allocateToken_cases now token w)
    as [[_ ->]|(i & slot & _ & _ & ->)]; [done|].
  unfold QueueManager.score, heap_upd. simpl. by case_decide.
Qed.

End AllocateToken.

(** ** The drain loop *)

Section Drain.

Import AllocationEngine.

Lemma allocateToken_placed now token w i :
  (allocateToken now token w).2 = Some i → placed (heap (allocateToken now token w).1 token).
Proof.
  destruct (allocateToken_cases now token w)
    as [[_ ->]|(j & slot & _ & _ & ->)]; [done|].
  intros _. unfold placed, heap_upd. simpl. rewrite decide_True by done. simpl. eauto.
Qed.

Lemma allocateToken_keeps_placed now token w r :
  placed (heap w r) → placed (heap (allocateToken now token w).1 r).
Proof.
  destruct (allocateToken_cases now token w)
    as [[_ ->]|(j & slot & _ & _ & ->)]; [done|].
  intros Hr. unfold heap_upd. simpl. case_decide; [|done]. unfold placed. simpl. eauto.
Qed.

Lemma allocateFromQueue_loop_spec now d fuel : ∀ allocated w,
  length (QueueManager.getQueue d w) < fuel →
  ∃ w' n,
    allocateFromQueue_loop fuel now d allocated w = Some (w', allocated + n)
    ∧ drained d w (QueueManager.getQueue d w) w' n.
Proof.
  induction fuel as [|fuel IH]; intros allocated w Hfuel; [lia|].
  simpl.
  destruct (dequeue_cases d w) as [[Hq ->]|(r & rest & Hq & ->)].
  - exists w, 0. rewrite Hq. split; [f_equal; f_equal; lia|].
    unfold drained. split_and!; simpl; try done.
    intros r' Hr'. by apply elem_of_nil in Hr'.
  - assert (QueueManager.getQueue d (set_queues (<[d:=rest]> (queues w)) w) = rest)
      as Hq1.
    { unfold QueueManager.getQueue. simpl. by rewrite lookup_insert_eq. }
    remember (set_queues (<[d:=rest]> (queues w)) w) as w1 eqn:Hw1.
    pose proof (allocateToken_score now r w1) as Hscore.
    pose proof (allocateToken_keeps_placed now r w1) as Hkeep.
    pose proof (allocateToken_placed now r w1) as Hnew.
    assert (QueueManager.getQueue d (allocateToken now r w1).1 = rest) as Hq2.
    { unfold QueueManager.getQueue. by rewrite allocateToken_queues. }
    destruct (allocateToken_cases now r w1) as [[Hfull Halloc]|(i & slot & _ & _ & Halloc)].
    + rewrite Halloc. exists (QueueManager.enqueue d r w1), 0.
      split; [f_equal; f_equal; lia|]. rewrite Hq.
      unfold drained. split_and!; simpl.
      * lia.
      * by subst w1.
      * by subst w1.
      * intros r' Hr'. by apply elem_of_nil in Hr'.
      * rewrite getQueue_enqueue, Hq1. by subst w1.
    + rewrite Halloc in Hscore, Hkeep, Hnew, Hq2 |- *.
      remember (set_heap _ _) as w2 eqn:Hw2. simpl in Hscore, Hkeep, Hnew, Hq2.
      destruct (IH (S allocated) w2) as (w' & n & Hloop & Hn & Hsc & Hpl & Htk & Hrest).
      { rewrite Hq2. rewrite Hq in Hfuel. simpl in Hfuel. lia. }
      exists w', (S n). split; [rewrite Hloop; f_equal; f_equal; lia|].
      rewrite Hq2 in *. rewrite Hq.
      unfold drained. split_and!; simpl.
      * lia.
      * intros r'. rewrite Hsc, Hscore. by subst w1.
      * intros r' Hr'. apply Hpl, Hkeep. by subst w1.
      * intros r' [->|Hr']%elem_of_cons; [|by apply Htk].
        apply Hpl, (Hnew i). done.
      * done.
Qed.

Lemma allocateFromQueue_spec now d w :
  ∃ w' n, allocateFromQueue now d w = (w', n)
    ∧ allocateFromQueue_loop (S (length (QueueManager.getQueue d w))) now d 0 w
      = Some (w', n)
    ∧ drained d w (QueueManager.getQueue d w) w' n.
Proof.
  destruct (allocateFromQueue_loop_spec now d
              (S (length (QueueManager.getQueue d w))) 0 w) as (w' & n & Hloop & Hd);
    [lia|].
  exists w', n. unfold allocateFromQueue. by rewrite Hloop.
Qed.

End Drain.

(** ** Insertion by score keeps a queue descending *)

Section Ordering.

Import QueueManager.

Lemma splice_in_cons w r x q :
  splice_in (insertIndex w r (x :: q)) r (x :: q)
  = if decide (score w x < score w r)%Q then r :: x :: q
    else x :: splice_in (insertIndex w r q) r q.
Proof.
  unfold insertIndex, splice_in. simpl.
  case_decide; [done|].
  by destruct (list_find _ q) as [[i y]|].
Qed.

Lemma splice_in_perm w r q : splice_in (insertIndex w r q) r q ≡ₚ r :: q.
Proof.
  unfold splice_in. rewrite <- Permutation_middle. by rewrite take_drop.
Qed.

Lemma descending_ext w w' q :
  (∀ r, score w' r = score w r) → descending w q → descending w' q.
Proof.
  intros Hsc. unfold descending. induction 1 as [|a l Hl IH Ha]; constructor; [done|].
  eapply Forall_impl; [exact Ha|]. intros b Hb. simpl in *. by rewrite !Hsc.
Qed.

Lemma splice_in_descending w r q :
  descending w q → descending w (splice_in (insertIndex w r q) r q).
Proof.
  unfold descending. induction 1 as [|a l Hl IH Ha].
  - repeat constructor.
  - rewrite splice_in_cons. case_decide as Hlt.
    + constructor; [by constructor|].
      constructor; [by apply Qlt_le_weak|].
      eapply Forall_impl; [exact Ha|]. intros b Hb. simpl in *.
      eapply Qle_trans; [exact Hb|]. by apply Qlt_le_weak.
    + constructor; [done|].
      apply Qnot_lt_le in Hlt.
      rewrite splice_in_perm. by constructor.
Qed.

End Ordering.

(** ** Fuel of the drain loop *)

Section Fuel.

Import AllocationEngine.

Lemma allocateFromQueue_loop_mono now d fuel : ∀ fuel' allocated w r,
  allocateFromQueue_loop fuel now d allocated w = Some r →
  fuel ≤ fuel' →
  allocateFromQueue_loop fuel' now d allocated w = Some r.
Proof.
  induction fuel as [|fuel IH]; intros fuel' allocated w r Hrun Hle; [done|].
  destruct fuel' as [|fuel']; [lia|]. simpl in *.
  destruct (QueueManager.dequeue d w) as [w1 [token|]]; [|done].
  destruct (allocateToken now token w1) as [w2 [i|]]; [|done].
  apply IH; [done|lia].
Qed.

End Fuel.

(** ** Places taken by the drain *)

Section Seats.

Import AllocationEngine.

Lemma all_occupants_insert (ss : list Slot.t) i s :
  ss !! i = Some s →
  ∃ others,
    concat (Slot.allocatedTokenIds <$> ss) ≡ₚ Slot.allocatedTokenIds s ++ others
    ∧ ∀ s', concat (Slot.allocatedTokenIds <$> <[i := s']> ss)
            ≡ₚ Slot.allocatedTokenIds s' ++ others.
Proof.
  intros Hi.
  exists (concat (Slot.allocatedTokenIds <$> take i ss)
          ++ concat (Slot.allocatedTokenIds <$> drop (S i) ss)).
  split.
  - rewrite <- (take_drop_middle _ _ _ Hi) at 1.
    rewrite fmap_app, fmap_cons, concat_app, concat_cons.
    rewrite !(assoc app). f_equiv. apply Permutation_app_comm.
  - intros s'. rewrite insert_take_drop by by eapply lookup_lt_Some.
    rewrite fmap_app, fmap_cons, concat_app, concat_cons.
    rewrite !(assoc app). f_equiv. apply Permutation_app_comm.
Qed.

Lemma allocateToken_id now token w r :
  Token.id (heap (allocateToken now token w).1 r) = Token.id (heap w r).
Proof.
  destruct (allocateToken_cases now token w)
    as [[_ ->]|(i & slot & _ & _ & ->)]; [done|].
  unfold heap_upd. simpl. by case_decide; simplify_eq.
Qed.

Lemma allocateToken_seats now token w i :
  (allocateToken now token w).2 = Some i →
  seated (allocateToken now token w).1 token.
Proof.
  destruct (allocateToken_cases now token w)
    as [[_ ->]|(j & slot & Hj & _ & ->)]; [done|].
  intros _. unfold seated, heap_upd. cbn [fst heap set_heap].
  rewrite decide_True by done. split; [done|].
  exists j, (place (Token.id (heap w token)) slot). split_and!.
  - done.
  - change (slots_of (set_heap ?h (set_slots ?l ?w0))) with l.
    apply list_lookup_insert_eq. by eapply lookup_lt_Some.
  - rewrite place_ids. apply elem_of_app. right. apply list_elem_of_here.
Qed.

Lemma allocateToken_keeps_seated now token w r :
  seated w r → seated (allocateToken now token w).1 r.
Proof.
  intros Hr.
  destruct (decide (r = token)) as [->|Hne].
  - destruct (allocateToken now token w) as [w' [i|]] eqn:Halloc.
    + change w' with (w', Some i).1. rewrite <- Halloc.
      apply (allocateToken_seats now token w i). by rewrite Halloc.
    + destruct (allocateToken_cases now token w)
        as [[_ Heq]|(j & slot & _ & _ & Heq)]; rewrite Heq in Halloc;
        by simplify_eq.
  - destruct (allocateToken_cases now token w)
      as [[_ ->]|(j & slot & Hj & _ & ->)]; [done|].
    destruct Hr as (Hst & i & s & Hi & Hs & Hin).
    unfold seated, heap_upd. cbn [fst heap set_heap].
    rewrite decide_False by done. split; [done|].
    change (slots_of (set_heap ?h (set_slots ?l ?w0))) with l.
    destruct (decide (i = j)) as [->|Hij].
    + exists j, (place (Token.id (heap w token)) slot). split_and!; [done| |].
      * apply list_lookup_insert_eq. by eapply lookup_lt_Some.
      * rewrite place_ids. apply elem_of_app. left. by simplify_eq.
    + exists i, s. split_and!; [done| |done].
      by rewrite list_lookup_insert_ne.
Qed.

Lemma allocateToken_occupants now token w i :
  (allocateToken now token w).2 = Some i →
  all_occupants (allocateToken now token w).1
  ≡ₚ all_occupants w ++ [Token.id (heap w token)].
Proof.
  destruct (allocateToken_cases now token w)
    as [[_ ->]|(j & slot & Hj & _ & ->)]; [done|].
  intros _. unfold all_occupants. cbn [fst].
  change (slots_of (set_heap ?h (set_slots ?l ?w0))) with l.
  destruct (all_occupants_insert (slots_of w) j slot Hj) as (o & Hbefore & Hafter).
  rewrite Hafter, Hbefore, place_ids.
  rewrite <- !(assoc app). f_equiv. apply Permutation_app_comm.
Qed.

(** The drain loop seats every token it counts: the [m - allocated] tokens
    taken from the head of the queue end ALLOCATED and listed in the slot
    their [slotIndex] names, no token loses its place, and the occupants of
    the ledger grow by exactly the ids of those tokens. *)
Lemma allocateFromQueue_loop_seats now d fuel : ∀ allocated w w' m,
  allocateFromQueue_loop fuel now d allocated w = Some (w', m) →
  allocated ≤ m
  ∧ (∀ r, seated w r → seated w' r)
  ∧ (∀ r, r ∈ take (m - allocated) (QueueManager.getQueue d w) → seated w' r)
  ∧ all_occupants w'
    ≡ₚ all_occupants w
       ++ ((λ r, Token.id (heap w r))
             <$> take (m - allocated) (QueueManager.getQueue d w)).
Proof.
  induction fuel as [|fuel IH]; intros allocated w w' m Hrun; [done|].
  simpl in Hrun.
  destruct (dequeue_cases d w) as [[Hq Hdq]|(t & rest & Hq & Hdq)];
    rewrite Hdq in Hrun.
  - injection Hrun as <- <-. rewrite Nat.sub_diag, take_0, app_nil_r.
    split_and!; [done|done| |done]. intros r Hr. by apply elem_of_nil in Hr.
  - remember (set_queues (<[d:=rest]> (queues w)) w) as w1 eqn:Hw1.
    assert (∀ r, seated w r → seated w1 r) as Hseat1 by (by rewrite Hw1).
    assert (all_occupants w1 = all_occupants w) as Hocc1 by (by rewrite Hw1).
    assert (heap w1 = heap w) as Hheap1 by (by rewrite Hw1).
    pose proof (allocateToken_keeps_seated now t w1) as Hkeep.
    pose proof (allocateToken_seats now t w1) as Hnew.
    pose proof (allocateToken_occupants now t w1) as Hocc.
    pose proof (allocateToken_queues now t w1) as Hqs.
    pose proof (λ r, allocateToken_id now t w1 r) as Hid.
    destruct (allocateToken_cases now t w1) as [[_ Halloc]|(i & slot & _ & _ & Halloc)].
    + rewrite Halloc in Hrun. injection Hrun as <- <-.
      rewrite Nat.sub_diag, take_0, app_nil_r.
      split_and!; [done| | |].
      * intros r Hr. apply Hseat1 in Hr. exact Hr.
      * intros r Hr. by apply elem_of_nil in Hr.
      * unfold all_occupants in *. by rewrite <- Hocc1.
    + remember (allocateToken now t w1) as res eqn:Hres.
      rewrite Halloc in Hrun, Hkeep, Hnew, Hocc, Hqs, Hid.
      cbn [fst snd] in Hrun, Hkeep, Hnew, Hocc, Hqs, Hid.
      remember (set_heap
                  (heap_upd t (mark_allocated now (Doctor.id (doctor w1)) i) (heap w1))
                  (set_slots (<[i:=place (Token.id (heap w1 t)) slot]> (slots_of w1))
                     w1)) as w2 eqn:Hw2.
      assert (QueueManager.getQueue d w2 = rest) as Hq2.
      { unfold QueueManager.getQueue. rewrite Hqs, Hw1. simpl.
        by rewrite lookup_insert_eq. }
      destruct (IH _ _ _ _ Hrun) as (Hle & Hkeep' & Htake & Hperm).
      rewrite Hq2 in Htake, Hperm.
      assert (m - allocated = S (m - S allocated)) as -> by lia.
      rewrite Hq. cbn [take fmap list_fmap].
      split_and!; [lia| | |].
      * intros r Hr. by apply Hkeep', Hkeep, Hseat1.
      * intros r Hr. apply elem_of_cons in Hr as [->|Hr]; [|by apply Htake].
        apply Hkeep'. by apply (Hnew i).
      * rewrite Hperm, (Hocc i eq_refl), Hocc1, Hheap1, <- (assoc app).
        f_equiv. cbn [app]. f_equiv.
        erewrite list_fmap_ext; [reflexivity|]. intros _ r _. simpl.
        by rewrite Hid, Hheap1.
Qed.

End Seats.

(** ** Claims on the allocation engine *)

Section EngineClaims.

Import AllocationEngine.

(** C8. When [allocateToken] returns null the state it leaves is the state
    it was given: no slot's occupant list or status and no field of the
    token has changed, the queues neither; and null is returned exactly when
    no slot of the doctor is AVAILABLE with spare capacity. *)
Theorem allocateToken_null_leaves_state now token w :
  (allocateToken now token w).2 = None →
  (allocateToken now token w).1 = w
  ∧ Forall (λ s, ¬ has_room s) (slots_of w).
Proof.
  destruct (allocateToken_cases now token w)
    as [[Hfull ->]|(i & slot & _ & _ & ->)]; [done|]. simpl. done.
Qed.

Lemma allocateToken_null_leaves_state_witness :
  (allocateToken 5000 1 Sample.booked_out).2 = None
  ∧ (allocateToken 5000 1 Sample.booked_out).1 = Sample.booked_out
  ∧ Forall (λ s, ¬ has_room s) (slots_of Sample.booked_out).
Proof.
  split; [reflexivity|].
  apply (allocateToken_null_leaves_state 5000 1 Sample.booked_out). reflexivity.
Defined.

(** Null is returned exactly when no slot is AVAILABLE with spare capacity. *)
Lemma allocateToken_null_iff now token w :
  (allocateToken now token w).2 = None ↔ Forall (λ s, ¬ has_room s) (slots_of w).
Proof.
  destruct (allocateToken_cases now token w)
    as [[Hfull ->]|(i & slot & Hi & Hroom & ->)]; [done|].
  simpl. split; [done|]. intros Hfull.
  by apply (Forall_lookup_1 _ _ _ _ Hfull Hi) in Hroom.
Qed.

(** C10. The [while (true)] loop of [allocateFromQueue] exits on every
    state: one more iteration than the queue is long always suffices, any
    larger bound gives the same result, and the count returned is at most
    the length of the queue.  An iteration either finds the queue empty and
    exits, or pushes the head back and exits, or places the head and goes on
    with a queue one shorter. *)
Theorem allocateFromQueue_terminates now d w :
  let q := QueueManager.getQueue d w in
  (∃ w' n,
     (∀ fuel, length q < fuel →
        allocateFromQueue_loop fuel now d 0 w = Some (w', n))
     ∧ allocateFromQueue now d w = (w', n)
     ∧ n ≤ length q)
  ∧ (∀ fuel allocated,
       (q = [] ∧ allocateFromQueue_loop (S fuel) now d allocated w
                 = Some (w, allocated))
       ∨ (∃ r rest w1, q = r :: rest
            ∧ QueueManager.dequeue d w = (w1, Some r)
            ∧ ((∃ w2, allocateToken now r w1 = (w2, None)
                  ∧ allocateFromQueue_loop (S fuel) now d allocated w
                    = Some (QueueManager.enqueue d r w2, allocated))
               ∨ (∃ w2 i, allocateToken now r w1 = (w2, Some i)
                    ∧ QueueManager.getQueue d w2 = rest
                    ∧ allocateFromQueue_loop (S fuel) now d allocated w
                      = allocateFromQueue_loop fuel now d (S allocated) w2)))).
Proof.
  intros q. split.
  - destruct (allocateFromQueue_spec now d w) as (w' & n & Hrun & Hloop & Hn & _).
    exists w', n. split_and!; [|done..].
    intros fuel Hfuel.
    eapply allocateFromQueue_loop_mono; [exact Hloop|]. fold q. lia.
  - intros fuel allocated. subst q. simpl.
    destruct (dequeue_cases d w) as [[Hq ->]|(r & rest & Hq & Hdq)]; [by left|].
    right. rewrite Hdq. eexists r, rest, _. split_and!; [done..|].
    destruct (allocateToken _ r _) as [w2 [i|]] eqn:Halloc.
    + right. exists w2, i. split_and!; [done| |done].
      unfold QueueManager.getQueue.
      change w2 with (w2, Some i).1. rewrite <- Halloc, allocateToken_queues.
      simpl. by rewrite lookup_insert_eq.
    + left. by exists w2.
Qed.

(** C7. [allocateFromQueue] places the first [n] tokens of the queue, in
    order, and stops at the first failed placement: that token is put back
    by [enqueue] at the position its score gives it, behind the untouched
    rest, and no slot has room at that point.  Each of the [n] tokens ends
    ALLOCATED and listed among the occupants of the slot its [slotIndex]
    names, and the occupants of the ledger after the call are those before
    it plus the ids of these [n] tokens, once each.  So the tokens queued
    before are, as a multiset, the tokens placed by the call together with
    the tokens queued after it, whatever the starting state; and a queue
    that was in descending order of score is still in that order. *)
Theorem allocateFromQueue_never_drops now d w :
  let q := QueueManager.getQueue d w in
  let w' := (allocateFromQueue now d w).1 in
  let n := (allocateFromQueue now d w).2 in
  let q' := QueueManager.getQueue d w' in
  n ≤ length q
  ∧ (∀ r, r ∈ take n q → placed (heap w' r))
  ∧ (∀ r, r ∈ take n q → seated w' r)
  ∧ all_occupants w'
    ≡ₚ all_occupants w ++ ((λ r, Token.id (heap w r)) <$> take n q)
  ∧ (n = length q → q' = [])
  ∧ (∀ r, q !! n = Some r →
       Forall (λ s, ¬ has_room s) (slots_of w')
       ∧ q' = QueueManager.splice_in
                (QueueManager.insertIndex w' r (drop (S n) q)) r (drop (S n) q))
  ∧ q ≡ₚ take n q ++ q'
  ∧ (descending w q → descending w' q').
Proof.
  cbv zeta.
  destruct (allocateFromQueue_spec now d w)
    as (w' & n & -> & Hloop & Hn & Hsc & _ & Htk & Hrest).
  destruct (allocateFromQueue_loop_seats _ _ _ _ _ _ _ Hloop)
    as (_ & _ & Hseat & Hocc).
  rewrite Nat.sub_0_r in Hseat, Hocc.
  remember (QueueManager.getQueue d w) as q eqn:Hq. simpl.
  destruct (drop n q) as [|r rest] eqn:Hdrop.
  - assert (n = length q) as Hlen.
    { apply (f_equal length) in Hdrop. rewrite length_drop in Hdrop. simpl in Hdrop. lia. }
    split_and!; try done.
    + intros r Hr. apply lookup_lt_Some in Hr. lia.
    + rewrite Hrest, app_nil_r, Hlen. by rewrite firstn_all.
    + intros _. rewrite Hrest. constructor.
  - destruct Hrest as [Hq' Hfull].
    assert (q !! n = Some r ∧ drop (S n) q = rest) as [Hnth Hrest].
    { split.
      - rewrite <- (Nat.add_0_r n), <- lookup_drop, Hdrop. done.
      - replace (S n) with (n + 1) by lia.
        rewrite <- (drop_drop q 1 n), Hdrop. done. }
    split_and!; try done.
    + intros ->. rewrite drop_all in Hdrop. done.
    + intros r' Hr'. rewrite Hrest. by simplify_eq.
    + rewrite Hq', splice_in_perm, <- Hdrop. by rewrite take_drop.
    + intros Hdesc. rewrite Hq'. apply splice_in_descending.
      apply (descending_ext w); [done|].
      assert (descending w (take n q ++ r :: rest)) as Hall
        by (by rewrite <- Hdrop, take_drop).
      apply StronglySorted_app_1_r in Hall. by apply StronglySorted_inv in Hall as [? _].
Qed.

Lemma allocateFromQueue_never_drops_witness :
  descending Sample.two_waiting (QueueManager.getQueue "DOC1" Sample.two_waiting)
  ∧ descending (allocateFromQueue 5000 "DOC1" Sample.two_waiting).1
      (QueueManager.getQueue "DOC1"
         (allocateFromQueue 5000 "DOC1" Sample.two_waiting).1).
Proof.
  assert (descending Sample.two_waiting
            (QueueManager.getQueue "DOC1" Sample.two_waiting)) as Hsorted.
  { repeat constructor. vm_compute. discriminate. }
  split; [exact Hsorted|].
  by apply (allocateFromQueue_never_drops 5000 "DOC1" Sample.two_waiting).
Defined.

End EngineClaims.

(** ** The freeing loop of reallocate *)

Section Freeing.

Import AllocationEngine.

Lemma requeue_occupants_spec tokens ids : ∀ h requeuedTokens,
  ∃ h', requeue_occupants tokens ids h requeuedTokens
        = (h', requeuedTokens ++ omap (λ tokenId, tokens !! tokenId) ids)
      ∧ requeued_in h h' (omap (λ tokenId, tokens !! tokenId) ids).
Proof.
  induction ids as [|tokenId ids IH]; intros h rq; simpl.
  - exists h. rewrite app_nil_r. split; [done|]. intros r.
    by rewrite decide_False by apply not_elem_of_nil.
  - destruct (tokens !! tokenId) as [r0|] eqn:Hget; [|apply IH].
    destruct (IH (heap_upd r0 mark_requeued h) (rq ++ [r0])) as (h' & -> & Hh').
    exists h'. rewrite <- app_assoc. split; [done|].
    intros r. rewrite Hh'. unfold heap_upd.
    destruct (decide (r = r0)) as [->|Hne].
    + rewrite (decide_True (P := r0 ∈ r0 :: _)) by apply list_elem_of_here.
      by case_decide.
    + destruct (decide (r ∈ omap _ ids)) as [Hin|Hin].
      * by rewrite decide_True by by apply list_elem_of_further.
      * rewrite decide_False; [done|]. by intros [?|?]%elem_of_cons.
Qed.

Lemma resolved_occupants_cons tokens slot ss :
  resolved_occupants tokens (slot :: ss)
  = omap (λ tokenId, tokens !! tokenId) (Slot.allocatedTokenIds slot)
    ++ resolved_occupants tokens ss.
Proof. unfold resolved_occupants. simpl. by rewrite omap_app. Qed.

Lemma free_slots_spec tokens ss : ∀ h requeuedTokens,
  ∃ h', free_slots tokens ss h requeuedTokens
        = (Slot.set_allocatedTokenIds [] <$> ss, h',
           requeuedTokens ++ resolved_occupants tokens ss)
      ∧ requeued_in h h' (resolved_occupants tokens ss).
Proof.
  induction ss as [|slot ss IH]; intros h rq; simpl.
  - exists h. rewrite app_nil_r. split; [done|]. intros r.
    by rewrite decide_False by apply not_elem_of_nil.
  - destruct (requeue_occupants_spec tokens (Slot.allocatedTokenIds slot) h rq)
      as (h1 & -> & Hh1).
    destruct (IH h1 (rq ++ omap (λ tokenId, tokens !! tokenId)
                             (Slot.allocatedTokenIds slot))) as (h2 & -> & Hh2).
    exists h2. rewrite resolved_occupants_cons, app_assoc. split; [done|].
    intros r. rewrite Hh2, Hh1.
    destruct (decide (r ∈ resolved_occupants tokens ss)) as [Hin2|Hin2];
      destruct (decide (r ∈ omap _ (Slot.allocatedTokenIds slot))) as [Hin1|Hin1].
    + rewrite decide_True by (apply elem_of_app; by right). done.
    + rewrite decide_True by (apply elem_of_app; by right). done.
    + rewrite decide_True by (apply elem_of_app; by left). done.
    + rewrite decide_False; [done|]. by intros [?|?]%elem_of_app.
Qed.

Lemma reallocate_free_spec fromSlotIndex tokens w :
  ∃ h', reallocate_free fromSlotIndex tokens w
        = (set_heap h'
             (set_slots
                (take fromSlotIndex (slots_of w)
                 ++ (Slot.set_allocatedTokenIds [] <$> drop fromSlotIndex (slots_of w)))
                w),
           resolved_occupants tokens (drop fromSlotIndex (slots_of w)))
      ∧ requeued_in (heap w) h'
          (resolved_occupants tokens (drop fromSlotIndex (slots_of w))).
Proof.
  unfold reallocate_free.
  destruct (free_slots_spec tokens (drop fromSlotIndex (slots_of w)) (heap w) [])
    as (h' & -> & Hh'). by exists h'.
Qed.

End Freeing.

(** ** The capacity invariant *)

Section Capacity.

Import AllocationEngine EmergencyReshuffler.

Lemma capacity_invariant_doctor w w' :
  doctor w' = doctor w → capacity_invariant w → capacity_invariant w'.
Proof. unfold capacity_invariant, slots_of. by intros ->. Qed.

Lemma capacity_invariant_insert w i s :
  capacity_invariant w → within_capacity s →
  capacity_invariant (set_slots (<[i := s]> (slots_of w)) w).
Proof. intros Hinv Hs. by apply Forall_insert. Qed.

Lemma capacity_invariant_lookup w i s :
  capacity_invariant w → slots_of w !! i = Some s → within_capacity s.
Proof. intros Hinv Hi. by eapply Forall_lookup_1. Qed.

(** The drain loop keeps whatever property of the doctor [allocateToken]
    keeps: the queue manager does not touch the doctor. *)
Lemma allocateFromQueue_loop_doctor (P : Doctor.t → Prop) now d :
  (∀ token w, P (doctor w) → P (doctor (allocateToken now token w).1)) →
  ∀ fuel allocated w r,
    P (doctor w) →
    allocateFromQueue_loop fuel now d allocated w = Some r →
    P (doctor r.1).
Proof.
  intros Hstep fuel.
  induction fuel as [|fuel IH]; intros allocated w r Hinv Hrun; [done|].
  simpl in Hrun.
  pose proof (dequeue_doctor d w) as Hd.
  destruct (QueueManager.dequeue d w) as [w1 [token|]]; simpl in Hd;
    [|simplify_eq/=; by rewrite Hd].
  rewrite <- Hd in Hinv. apply (Hstep token) in Hinv.
  destruct (allocateToken now token w1) as [w2 [i|]]; simpl in Hinv.
  - by eapply IH.
  - by simplify_eq/=.
Qed.

Lemma allocateFromQueue_doctor (P : Doctor.t → Prop) now d w :
  (∀ token w, P (doctor w) → P (doctor (allocateToken now token w).1)) →
  P (doctor w) → P (doctor (allocateFromQueue now d w).1).
Proof.
  intros Hstep Hinv.
  destruct (allocateFromQueue_spec now d w) as (w' & n & -> & Hloop & _).
  by apply (allocateFromQueue_loop_doctor P now d Hstep _ _ _ _ Hinv Hloop).
Qed.

Lemma allocateFromQueue_capacity now d w :
  capacity_invariant w → capacity_invariant (allocateFromQueue now d w).1.
Proof.
  apply (allocateFromQueue_doctor (λ dr, Forall within_capacity (Doctor.slots dr))).
  intros token w0. apply allocateToken_capacity.
Qed.

Lemma cleared_within s :
  within_capacity s → within_capacity (Slot.set_allocatedTokenIds [] s).
Proof. unfold within_capacity, Slot.occupancy. simpl. lia. Qed.

Lemma reallocate_free_capacity fromSlotIndex tokens w :
  capacity_invariant w →
  capacity_invariant (reallocate_free fromSlotIndex tokens w).1.
Proof.
  intros Hinv.
  destruct (reallocate_free_spec fromSlotIndex tokens w) as (h' & -> & _).
  unfold capacity_invariant in *. simpl.
  rewrite <- (take_drop fromSlotIndex (slots_of w)) in Hinv.
  apply Forall_app in Hinv as [Htake Hdrop].
  apply Forall_app. split; [done|].
  apply Forall_fmap. eapply Forall_impl; [exact Hdrop|]. apply cleared_within.
Qed.

Lemma reallocate_capacity now d fromSlotIndex tokens w :
  capacity_invariant w →
  capacity_invariant (reallocate now d fromSlotIndex tokens w).1.
Proof.
  intros Hinv. unfold reallocate.
  pose proof (reallocate_free_capacity fromSlotIndex tokens w Hinv) as Hinv1.
  destruct (reallocate_free fromSlotIndex tokens w) as [w1 displaced].
  pose proof (allocateFromQueue_capacity now d (QueueManager.requeue d displaced w1))
    as Hinv3.
  destruct (allocateFromQueue now d _) as [w3 n]. simpl in *.
  apply Hinv3. by apply (capacity_invariant_doctor w1); [apply requeue_doctor|].
Qed.

Lemma freeTokenFromSlot_capacity token w :
  capacity_invariant w → capacity_invariant (freeTokenFromSlot token w).1.
Proof.
  intros Hinv. unfold freeTokenFromSlot.
  destruct (Token.slotIndex (heap w token)) as [i|]; [|done].
  destruct (slots_of w !! i) as [slot|] eqn:Hi; [|done].
  apply capacity_invariant_insert; [done|].
  apply unplace_within. by eapply capacity_invariant_lookup.
Qed.

Lemma findNearbySlotWithCapacity_Some w currentSlotIndex window i :
  findNearbySlotWithCapacity w currentSlotIndex window = Some i →
  ∃ slot, slots_of w !! i = Some slot ∧ has_room slot.
Proof.
  unfold findNearbySlotWithCapacity.
  assert (∀ (l : list Z) j z, list_find (room_at (slots_of w)) l = Some (j, z) →
            ∃ slot, slots_of w !! Z.to_nat z = Some slot ∧ has_room slot) as Hroom.
  { intros l j z (_ & Hz & _)%list_find_Some. unfold room_at in Hz.
    destruct (slots_of w !! Z.to_nat z) as [slot|]; [|done]. by exists slot. }
  destruct (list_find _ (seqZ _ _)) as [[j z]|] eqn:Hfwd.
  - intros [= <-]. by eapply Hroom.
  - destruct (list_find _ (reverse _)) as [[j z]|] eqn:Hbwd; [|done].
    intros [= <-]. by eapply Hroom.
Qed.

Lemma shiftToken_capacity now token fromSlotIndex toSlotIndex w slot :
  capacity_invariant w →
  slots_of w !! toSlotIndex = Some slot → has_room slot →
  capacity_invariant (shiftToken now token fromSlotIndex toSlotIndex w).1.
Proof.
  intros Hinv Hto [_ Hroom]. unfold shiftToken.
  destruct (slots_of w !! fromSlotIndex) as [fromSlot|] eqn:Hfrom; [|done].
  set (tokenId := Token.id (heap w token)).
  assert (∃ toSlot,
            <[fromSlotIndex := unplace tokenId fromSlot]> (slots_of w) !! toSlotIndex
            = Some toSlot
            ∧ (Slot.occupancy toSlot < Slot.capacity toSlot)%Z)
    as (toSlot & Hto1 & Hroom1).
  { destruct (decide (fromSlotIndex = toSlotIndex)) as [->|Hne].
    - exists (unplace tokenId slot). simplify_eq.
      rewrite list_lookup_insert_eq by by eapply lookup_lt_Some.
      split; [done|]. pose proof (unplace_occupancy tokenId slot).
      rewrite unplace_capacity. lia.
    - exists slot. by rewrite list_lookup_insert_ne. }
  remember (set_slots _ w) as w1 eqn:Hw1.
  assert (capacity_invariant w1) as Hinv1.
  { subst w1. apply capacity_invariant_insert; [done|].
    apply unplace_within. by eapply capacity_invariant_lookup. }
  assert (slots_of w1 !! toSlotIndex = Some toSlot) as -> by by subst w1.
  apply capacity_invariant_insert; [done|]. by apply place_within.
Qed.

Lemma allocateEmergencyToSlot_capacity now e slotIndex w :
  capacity_invariant w →
  capacity_invariant (allocateEmergencyToSlot now e slotIndex w).1.
Proof.
  intros Hinv. unfold allocateEmergencyToSlot.
  destruct (slots_of w !! slotIndex) as [slot|] eqn:Hi; [|done].
  case_decide as Hfull; [done|].
  apply capacity_invariant_insert; [done|]. apply place_within. lia.
Qed.

Lemma attemptReshuffle_loop_capacity now e tokens targets : ∀ w,
  capacity_invariant w →
  capacity_invariant (attemptReshuffle_loop now e tokens targets w).1.
Proof.
  induction targets as [|targetSlotIndex rest IH]; intros w Hinv; simpl; [done|].
  destruct (slots_of w !! targetSlotIndex) as [targetSlot|]; [|done].
  case_decide; [by apply IH|].
  case_decide; [by apply allocateEmergencyToSlot_capacity|].
  destruct (findMostFlexibleToken _ _ _) as [flexibleToken|]; [|by apply IH].
  destruct (findNearbySlotWithCapacity _ _ _) as [destinationSlot|] eqn:Hdest;
    [|by apply IH].
  apply findNearbySlotWithCapacity_Some in Hdest as (slot & Hslot & Hroom).
  pose proof (shiftToken_capacity now flexibleToken targetSlotIndex destinationSlot
                w slot Hinv Hslot Hroom) as Hinv1.
  destruct (shiftToken _ _ _ _ _) as [w1 [[]|]]; [|done].
  by apply allocateEmergencyToSlot_capacity.
Qed.

Lemma allocateWithQuotaCheck_cases now token w :
  (Forall (λ s, ¬ quota_room (doctor w) s) (slots_of w)
   ∧ allocateWithQuotaCheck now token w = (w, None))
  ∨ (∃ i slot, slots_of w !! i = Some slot ∧ quota_room (doctor w) slot
       ∧ allocateWithQuotaCheck now token w
         = (set_heap
              (heap_upd token (mark_allocated now (Doctor.id (doctor w)) i) (heap w))
              (set_slots (<[i := place (Token.id (heap w token)) slot]> (slots_of w)) w),
            Some i)).
Proof.
  unfold allocateWithQuotaCheck.
  destruct (list_find _ (slots_of w)) as [[i slot]|] eqn:Hfind.
  - right. apply list_find_Some in Hfind as (Hi & Hroom & _). by exists i, slot.
  - left. by apply list_find_None in Hfind.
Qed.

Lemma bump_emergencyCount_capacity i w :
  capacity_invariant w → capacity_invariant (bump_emergencyCount i w).1.
Proof.
  intros Hinv. unfold bump_emergencyCount.
  destruct (slots_of w !! i) as [slot|] eqn:Hi; [|done].
  apply capacity_invariant_insert; [done|].
  exact (capacity_invariant_lookup w i slot Hinv Hi).
Qed.

Lemma handleEmergency_capacity now token reshuffle w :
  capacity_invariant w →
  capacity_invariant (handleEmergency now token reshuffle w).1.
Proof.
  intros Hinv. unfold handleEmergency.
  case_decide; [done|]. case_decide; [done|].
  set (w0 := set_heap _ w).
  assert (capacity_invariant w0) as Hinv0 by done.
  assert (capacity_invariant (allocateWithQuotaCheck now token w0).1) as Hinv1.
  { destruct (allocateWithQuotaCheck_cases now token w0)
      as [[_ ->]|(i & slot & Hi & (_ & Hroom & _) & ->)]; [done|].
    apply Forall_insert; [done|]. by apply place_within. }
  destruct (allocateWithQuotaCheck now token w0) as [w1 [slotIndex|]]; simpl in Hinv1.
  - by apply bump_emergencyCount_capacity.
  - destruct reshuffle as [tokens|]; [|done].
    pose proof (attemptReshuffle_loop_capacity now token tokens
                  (seq 0 (length (slots_of w1))) w1 Hinv1) as Hinv2.
    unfold attemptReshuffle.
    destruct (attemptReshuffle_loop _ _ _ _ _) as [w2 [[reshuffledSlot|]|]];
      simpl in Hinv2; [|done..].
    by apply bump_emergencyCount_capacity.
Qed.

Lemma block_affected_capacity delayEndTime ss : ∀ i first,
  Forall within_capacity ss →
  Forall within_capacity (block_affected delayEndTime i first ss).1.
Proof.
  induction ss as [|slot ss IH]; intros i first Hss; simpl; [done|].
  case_decide; [|done].
  apply Forall_cons in Hss as [Hslot Hss].
  specialize (IH (S i) (match first with None => Some i | Some _ => first end) Hss).
  destruct (block_affected _ _ _ ss) as [rest' f]. simpl in *.
  by constructor.
Qed.

Lemma handleDoctorDelay_capacity now delayMinutes tokens w :
  capacity_invariant w →
  capacity_invariant (handleDoctorDelay now delayMinutes tokens w).1.
Proof.
  intros Hinv. unfold handleDoctorDelay.
  pose proof (block_affected_capacity (TimeClip (now + delayMinutes * 60000))
                (slots_of w) 0 None Hinv) as Hblk.
  destruct (block_affected _ _ _ _) as [ss [i|]]; simpl in Hblk; [|done].
  by apply reallocate_capacity.
Qed.

(** C1. Every engine operation preserves the capacity invariant: from a
    state in which every slot holds at most [capacity] occupants,
    [allocateToken], [allocateFromQueue], [reallocate], [freeTokenFromSlot],
    [handleEmergency] (with or without the reshuffler), [attemptReshuffle]
    and [handleDoctorDelay] end in such a state, and so does [shiftToken] for
    the destination its caller passes, the one
    [findNearbySlotWithCapacity] returned. *)
Theorem capacity_invariant_preserved w :
  capacity_invariant w →
  (∀ now token, capacity_invariant (allocateToken now token w).1)
  ∧ (∀ now d, capacity_invariant (allocateFromQueue now d w).1)
  ∧ (∀ now d fromSlotIndex tokens,
       capacity_invariant (reallocate now d fromSlotIndex tokens w).1)
  ∧ (∀ token, capacity_invariant (freeTokenFromSlot token w).1)
  ∧ (∀ now token reshuffle,
       capacity_invariant (handleEmergency now token reshuffle w).1)
  ∧ (∀ now token tokens,
       capacity_invariant (attemptReshuffle now token tokens w).1)
  ∧ (∀ now token fromSlotIndex toSlotIndex window,
       findNearbySlotWithCapacity w fromSlotIndex window = Some toSlotIndex →
       capacity_invariant (shiftToken now token fromSlotIndex toSlotIndex w).1)
  ∧ (∀ now delayMinutes tokens,
       capacity_invariant (handleDoctorDelay now delayMinutes tokens w).1).
Proof.
  intros Hinv. split_and!.
  - intros. by apply allocateToken_capacity.
  - intros. by apply allocateFromQueue_capacity.
  - intros. by apply reallocate_capacity.
  - intros. by apply freeTokenFromSlot_capacity.
  - intros. by apply handleEmergency_capacity.
  - intros. by apply attemptReshuffle_loop_capacity.
  - intros now token fromSlotIndex toSlotIndex window
      (slot & Hslot & Hroom)%findNearbySlotWithCapacity_Some.
    by eapply shiftToken_capacity.
  - intros. by apply handleDoctorDelay_capacity.
Qed.

End Capacity.

Lemma capacity_invariant_preserved_witness :
  capacity_invariant Sample.two_waiting
  ∧ (∀ now token,
       capacity_invariant (AllocationEngine.allocateToken now token Sample.two_waiting).1)
  ∧ (∀ now d,
       capacity_invariant (AllocationEngine.allocateFromQueue now d Sample.two_waiting).1)
  ∧ (∀ now d fromSlotIndex tokens,
       capacity_invariant
         (AllocationEngine.reallocate now d fromSlotIndex tokens Sample.two_waiting).1)
  ∧ (∀ token,
       capacity_invariant (AllocationEngine.freeTokenFromSlot token Sample.two_waiting).1)
  ∧ (∀ now token reshuffle,
       capacity_invariant (handleEmergency now token reshuffle Sample.two_waiting).1)
  ∧ (∀ now token tokens,
       capacity_invariant
         (EmergencyReshuffler.attemptReshuffle now token tokens Sample.two_waiting).1)
  ∧ (∀ now token fromSlotIndex toSlotIndex window,
       EmergencyReshuffler.findNearbySlotWithCapacity
         Sample.two_waiting fromSlotIndex window = Some toSlotIndex →
       capacity_invariant
         (EmergencyReshuffler.shiftToken now token fromSlotIndex toSlotIndex
            Sample.two_waiting).1)
  ∧ (∀ now delayMinutes tokens,
       capacity_invariant (handleDoctorDelay now delayMinutes tokens Sample.two_waiting).1).
Proof.
  assert (capacity_invariant Sample.two_waiting) as Hinv.
  { repeat constructor. vm_compute. discriminate. }
  split; [exact Hinv|].
  exact (capacity_invariant_preserved Sample.two_waiting Hinv).
Defined.

(** ** Provider delay *)

Section Delay.

Import AllocationEngine.

Lemma set_slots_same w : set_slots (slots_of w) w = w.
Proof. by destruct w as [h [i ss a b] q]. Qed.

(** Once [firstAffectedSlot] is set the loop never changes it. *)
Lemma block_affected_first_set delayEndTime ss : ∀ i f,
  (block_affected delayEndTime i (Some f) ss).2 = Some f.
Proof.
  induction ss as [|slot ss IH]; intros i f; simpl; [done|].
  case_decide; [|done].
  specialize (IH (S i) f). by destruct (block_affected _ _ _ ss).
Qed.

(** The loop only writes the status field. *)
Lemma block_affected_ids delayEndTime ss : ∀ i first,
  Slot.allocatedTokenIds <$> (block_affected delayEndTime i first ss).1
  = Slot.allocatedTokenIds <$> ss.
Proof.
  induction ss as [|slot ss IH]; intros i first; simpl; [done|].
  case_decide; [|done].
  specialize (IH (S i) (match first with None => Some i | Some _ => first end)).
  destruct (block_affected _ _ _ ss) as [rest' f]. cbn [fst] in *.
  rewrite !fmap_cons. by f_equal.
Qed.

Lemma reallocate_returns now d fromSlotIndex tokens w :
  reallocate now d fromSlotIndex tokens w
  = ((allocateFromQueue now d
        (QueueManager.requeue d (reallocate_free fromSlotIndex tokens w).2
           (reallocate_free fromSlotIndex tokens w).1)).1,
     (reallocate_free fromSlotIndex tokens w).2).
Proof.
  unfold reallocate. destruct (reallocate_free _ _ _) as [w1 displaced]. simpl.
  by destruct (allocateFromQueue _ _ _).
Qed.

Lemma TimeClip_cases t : TimeClip t = None ∨ TimeClip t = Some t.
Proof. unfold TimeClip. case_decide; [by right|by left]. Qed.

(** An invalid [delayEndTime] compares false with every start time: the loop
    breaks at the first slot. *)
Lemma block_affected_invalid i first ss :
  block_affected None i first ss = (ss, first).
Proof. by destruct ss. Qed.

(** C9, as amended.  For a doctor whose slots are in chronological order and
    a positive delay, [handleDoctorDelay] has two outcomes only.  Either it
    returns the empty list with the state as it was, which happens when no
    slot starts strictly before now + delay and also when now + delay lies
    outside the range of Date, the Date built being invalid then; or
    now + delay is a valid Date, the first slot starts strictly before it,
    [firstAffectedSlot] is 0, and the call is [reallocate] from index 0: the
    freeing loop empties every slot of the day, and the list returned holds
    every occupant of every slot that the token map resolves. *)
Theorem handleDoctorDelay_first_affected_is_zero now delayMinutes tokens w :
  chronological (slots_of w) →
  (0 < delayMinutes)%Z →
  let delayEnd := (now + delayMinutes * 60000)%Z in
  ((TimeClip delayEnd = None
    ∨ Forall (λ s, (delayEnd ≤ Slot.startTime s)%Z) (slots_of w))
   ∧ handleDoctorDelay now delayMinutes tokens w = (w, []))
  ∨ (TimeClip delayEnd = Some delayEnd
     ∧ (∃ slot, slots_of w !! 0 = Some slot
                ∧ (Slot.startTime slot < delayEnd)%Z)
     ∧ ∃ ss,
         block_affected (Some delayEnd) 0 None (slots_of w) = (ss, Some 0)
         ∧ handleDoctorDelay now delayMinutes tokens w
           = reallocate now (Doctor.id (doctor w)) 0 tokens (set_slots ss w)
         ∧ Forall (λ s, Slot.allocatedTokenIds s = [])
             (slots_of (reallocate_free 0 tokens (set_slots ss w)).1)
         ∧ (handleDoctorDelay now delayMinutes tokens w).2
           = resolved_occupants tokens (slots_of w)).
Proof.
  intros Hchron _ delayEnd. unfold handleDoctorDelay. fold delayEnd.
  destruct (TimeClip_cases delayEnd) as [Hclip|Hclip]; rewrite Hclip.
  { left. split; [by left|].
    rewrite block_affected_invalid. by rewrite set_slots_same. }
  destruct (slots_of w) as [|slot ss] eqn:Hslots.
  - left. split; [right; constructor|]. simpl. by rewrite <- Hslots, set_slots_same.
  - cbn [block_affected].
    destruct (decide (date_lt (Some (Slot.startTime slot)) (Some delayEnd)))
      as [Hlt|Hge]; cbn [date_lt] in *.
    + right. split; [done|]. split; [by exists slot|].
      pose proof (block_affected_first_set (Some delayEnd) ss 1 0) as Hfirst.
      pose proof (block_affected_ids (Some delayEnd) ss 1 (Some 0)) as Hids.
      destruct (block_affected (Some delayEnd) 1 (Some 0) ss) as [rest' f].
      simpl in Hfirst, Hids. subst f.
      eexists. split_and!; [done|done| |].
      * destruct (reallocate_free_spec 0 tokens
                    (set_slots (Slot.set_status BLOCKED slot :: rest') w))
          as (h' & -> & _).
        simpl. constructor; [done|]. apply Forall_fmap. by apply Forall_true.
      * rewrite reallocate_returns. simpl.
        destruct (reallocate_free_spec 0 tokens
                    (set_slots (Slot.set_status BLOCKED slot :: rest') w))
          as (h' & -> & _).
        cbn [snd]. rewrite drop_0. unfold resolved_occupants.
        change (slots_of (set_slots ?l w)) with l.
        rewrite !fmap_cons, Hids. done.
    + left. split.
      * right. apply StronglySorted_inv in Hchron as [_ Hall].
        constructor; [lia|]. eapply Forall_impl; [exact Hall|]. simpl. lia.
      * by rewrite <- Hslots, set_slots_same.
Qed.

Lemma handleDoctorDelay_first_affected_is_zero_witness :
  chronological (slots_of Sample.late_booking)
  ∧ (0 < 1)%Z
  ∧ (((TimeClip (0 + 1 * 60000) = None
       ∨ Forall (λ s, (0 + 1 * 60000 ≤ Slot.startTime s)%Z)
           (slots_of Sample.late_booking))
      ∧ handleDoctorDelay 0 1 (Sample.token_map Sample.late_booking 1)
          Sample.late_booking = (Sample.late_booking, []))
     ∨ (TimeClip (0 + 1 * 60000) = Some (0 + 1 * 60000)%Z
        ∧ (∃ slot, slots_of Sample.late_booking !! 0 = Some slot
                   ∧ (Slot.startTime slot < 0 + 1 * 60000)%Z)
        ∧ ∃ ss,
            block_affected (Some (0 + 1 * 60000)%Z) 0 None
              (slots_of Sample.late_booking) = (ss, Some 0)
            ∧ handleDoctorDelay 0 1 (Sample.token_map Sample.late_booking 1)
                Sample.late_booking
              = reallocate 0 (Doctor.id (doctor Sample.late_booking)) 0
                  (Sample.token_map Sample.late_booking 1)
                  (set_slots ss Sample.late_booking)
            ∧ Forall (λ s, Slot.allocatedTokenIds s = [])
                (slots_of
                   (reallocate_free 0 (Sample.token_map Sample.late_booking 1)
                      (set_slots ss Sample.late_booking)).1)
            ∧ (handleDoctorDelay 0 1 (Sample.token_map Sample.late_booking 1)
                 Sample.late_booking).2
              = resolved_occupants (Sample.token_map Sample.late_booking 1)
                  (slots_of Sample.late_booking))).
Proof.
  assert (chronological (slots_of Sample.late_booking)) as Hchron.
  { repeat constructor. vm_compute. discriminate. }
  split; [exact Hchron|]. split; [lia|].
  exact (handleDoctorDelay_first_affected_is_zero 0 1
           (Sample.token_map Sample.late_booking 1) Sample.late_booking Hchron
           ltac:(lia)).
Defined.

(** C9 as stated fails past the range of Date.  With a delay of
    144000000001 minutes from time 0, now + delay is 60000 ms beyond the
    last valid time value.  Slot 0 starts strictly before now + delay and
    slot 1 is held by A, yet the call blocks nothing, returns the empty list
    and leaves the state as it was: neither "no slot starts strictly before
    now + delay" nor reallocation from index 0. *)
Lemma handleDoctorDelay_overlong_delay_counterexample :
  let w := Sample.late_booking in
  let tokens := Sample.token_map w 1 in
  let delayMinutes := 144000000001%Z in
  chronological (slots_of w)
  ∧ (0 < delayMinutes)%Z
  ∧ handleDoctorDelay 0 delayMinutes tokens w = (w, [])
  ∧ ¬ ((Forall (λ s, (0 + delayMinutes * 60000 ≤ Slot.startTime s)%Z) (slots_of w)
        ∧ handleDoctorDelay 0 delayMinutes tokens w = (w, []))
       ∨ (handleDoctorDelay 0 delayMinutes tokens w
          = reallocate 0 (Doctor.id (doctor w)) 0 tokens
              (set_slots (block_affected (Some (0 + delayMinutes * 60000)%Z) 0 None
                            (slots_of w)).1 w)
          ∧ (handleDoctorDelay 0 delayMinutes tokens w).2
            = resolved_occupants tokens (slots_of w))).
Proof.
  cbv zeta. split_and!.
  - repeat constructor. vm_compute. discriminate.
  - lia.
  - by vm_compute.
  - intros [[Hall _]|[_ Hall]].
    + apply Forall_cons in Hall as [Hlt _]. vm_compute in Hlt. by apply Hlt.
    + vm_compute in Hall. discriminate Hall.
Qed.

(** Placement into a slot with room neither sets nor lifts a block. *)
Lemma place_is_blocked tokenId s :
  has_room s → is_blocked (place tokenId s) = is_blocked s.
Proof.
  intros [Hst _]. unfold is_blocked, place.
  case_decide; simpl; rewrite Hst; by rewrite !bool_decide_eq_false_2.
Qed.

Lemma allocateToken_is_blocked now token w :
  is_blocked <$> slots_of (allocateToken now token w).1 = is_blocked <$> slots_of w.
Proof.
  destruct (allocateToken_cases now token w)
    as [[_ ->]|(i & slot & Hi & Hroom & ->)]; [done|].
  cbn [fst]. change (slots_of (set_heap ?h (set_slots ?l ?w0))) with l.
  rewrite list_fmap_insert, place_is_blocked by done.
  apply list_insert_id. by rewrite list_lookup_fmap, Hi.
Qed.

Lemma reallocate_is_blocked now d fromSlotIndex tokens w :
  is_blocked <$> slots_of (reallocate now d fromSlotIndex tokens w).1
  = is_blocked <$> slots_of w.
Proof.
  rewrite reallocate_returns.
  destruct (reallocate_free_spec fromSlotIndex tokens w) as (h' & -> & _).
  cbn [fst snd].
  set (w2 := QueueManager.requeue _ _ _).
  assert (is_blocked <$> slots_of w2 = is_blocked <$> slots_of w) as Hw2.
  { unfold w2, slots_of. rewrite requeue_doctor. simpl.
    rewrite fmap_app, <- list_fmap_compose.
    rewrite <- (take_drop fromSlotIndex (Doctor.slots (doctor w))) at 3.
    by rewrite fmap_app. }
  rewrite <- Hw2.
  apply (allocateFromQueue_doctor
           (λ dr, is_blocked <$> Doctor.slots dr = is_blocked <$> slots_of w2));
    [|done].
  intros token w0 <-. apply allocateToken_is_blocked.
Qed.

(** C5, as amended.  [reallocate] marks no slot blocked: a slot is blocked
    after the call iff it was blocked before it.  Its freeing loop leaves the
    slots before [fromSlotIndex] alone and empties the occupant list of
    every slot at or after it; every occupant of those slots that the token
    map resolves goes to REQUEUED with [slotIndex] and [allocatedAt]
    cleared, and no other token object is touched.  The displaced tokens are
    then re-enqueued and the queue is drained once; the list returned is
    exactly the displaced tokens, in slot and occupant order. *)
Theorem reallocate_displaces_from_index now d fromSlotIndex tokens w :
  let displaced := resolved_occupants tokens (drop fromSlotIndex (slots_of w)) in
  let w1 := (reallocate_free fromSlotIndex tokens w).1 in
  (reallocate_free fromSlotIndex tokens w).2 = displaced
  ∧ (∀ i, i < fromSlotIndex → slots_of w1 !! i = slots_of w !! i)
  ∧ (∀ i slot, fromSlotIndex ≤ i → slots_of w !! i = Some slot →
       ∃ slot1, slots_of w1 !! i = Some slot1
         ∧ Slot.allocatedTokenIds slot1 = []
         ∧ Slot.capacity slot1 = Slot.capacity slot)
  ∧ (∀ r, r ∈ displaced →
       Token.status (heap w1 r) = REQUEUED
       ∧ Token.slotIndex (heap w1 r) = None
       ∧ Token.allocatedAt (heap w1 r) = None)
  ∧ (∀ r, r ∉ displaced → heap w1 r = heap w r)
  ∧ queues w1 = queues w
  ∧ reallocate now d fromSlotIndex tokens w
    = ((allocateFromQueue now d (QueueManager.requeue d displaced w1)).1, displaced)
  ∧ is_blocked <$> slots_of (reallocate now d fromSlotIndex tokens w).1
    = is_blocked <$> slots_of w.
Proof.
  cbv zeta. split_and!; [..|apply reallocate_is_blocked].
  all: rewrite ?reallocate_returns.
  all: destruct (reallocate_free_spec fromSlotIndex tokens w) as (h' & -> & Hh').
  all: cbn [fst snd]; try done.
  - intros i Hi. unfold slots_of at 1. simpl.
    destruct (decide (fromSlotIndex ≤ length (slots_of w))) as [Hlen|Hlen].
    + rewrite lookup_app_l by (rewrite length_take; lia).
      by rewrite lookup_take_lt.
    + rewrite firstn_all2, drop_ge by lia. by rewrite app_nil_r.
  - intros i slot Hi Hslot. unfold slots_of at 1. simpl.
    pose proof (lookup_lt_Some _ _ _ Hslot) as Hlt.
    exists (Slot.set_allocatedTokenIds [] slot). split; [|done].
    rewrite lookup_app_r by (rewrite length_take; lia).
    rewrite length_take, Nat.min_l by lia.
    rewrite list_lookup_fmap, lookup_drop.
    replace (fromSlotIndex + (i - fromSlotIndex)) with i by lia.
    by rewrite Hslot.
  - intros r Hr. rewrite Hh', decide_True by done. done.
  - intros r Hr. by rewrite Hh', decide_False.
Qed.

(** C5 as stated fails: on one open slot holding A, [reallocate] from index
    0 ends with the slot not blocked, A back in it, and A ALLOCATED. *)
Lemma reallocate_marks_blocked_counterexample :
  let tokens := Sample.token_map Sample.lone_patient 1 in
  let w' := (reallocate 5000 "DOC1" 0 tokens Sample.lone_patient).1 in
  ¬ (∀ i slot, 0 ≤ i → slots_of w' !! i = Some slot →
       Slot.status slot = BLOCKED
       ∧ Slot.allocatedTokenIds slot = []
       ∧ (∀ r, r ∈ (reallocate 5000 "DOC1" 0 tokens Sample.lone_patient).2 →
            Token.status (heap w' r) = REQUEUED)).
Proof.
  intros tokens w' Hclaim.
  destruct (Hclaim 0 (Sample.slot 0 2 ["A"%string] AVAILABLE 0)) as [Hblocked _];
    [lia|by vm_compute|].
  discriminate Hblocked.
Qed.

End Delay.

(** ** Priority scores *)

Section Priority.

(** The score difference of two tokens, exactly: class [b] outranks class
    [a] iff the later arrival of [b] is less than a thousand million
    milliseconds per point of base priority between the classes. *)
Lemma calculatePriority_lt_iff ka kb :
  (calculatePriority ka < calculatePriority kb)%Q
  ↔ (Token.requestedAt kb - Token.requestedAt ka
     < (basePriority (Token.source kb) - basePriority (Token.source ka))
       * 1000000000)%Z.
Proof.
  unfold calculatePriority, Qlt, Qplus, Qdiv, Qmult, Qinv, Qopp, inject_Z. simpl.
  lia.
Qed.

(** Within one class the earlier arrival scores strictly higher. *)
Lemma calculatePriority_fifo ka kb :
  Token.source ka = Token.source kb →
  (Token.requestedAt ka < Token.requestedAt kb)%Z →
  (calculatePriority kb < calculatePriority ka)%Q.
Proof. intros Hsrc Hlt. apply calculatePriority_lt_iff. rewrite Hsrc. lia. Qed.

(** C4 at its failing input: the online booking of 2024 belongs to the
    higher class, yet its score is below that of the walk-in of 2020. *)
Theorem online_2024_scores_below_walkin_2020 :
  (basePriority (Token.source Sample.walkin_2020)
   < basePriority (Token.source Sample.online_2024))%Z
  ∧ (calculatePriority Sample.online_2024 < calculatePriority Sample.walkin_2020)%Q.
Proof. split; [done|]. apply calculatePriority_lt_iff. vm_compute. done. Qed.

End Priority.

(** ** The per-slot urgent ceiling *)

Section Ceiling.

Import AllocationEngine EmergencyReshuffler.

Lemma bump_emergencyCount_ceiling i w slot :
  slots_of w !! i = Some slot →
  (Slot.emergencyCount slot < perSlotCeiling (doctor w))%Z →
  ceiling_invariant w → ceiling_invariant (bump_emergencyCount i w).1.
Proof.
  intros Hi Hlt Hinv. unfold bump_emergencyCount. rewrite Hi.
  apply Forall_insert; [done|]. unfold perSlotCeiling in *. simpl. lia.
Qed.

(** Direct placement with the quota check, the only path when no reshuffler
    is passed, keeps every slot within the ceiling. *)
Lemma handleEmergency_direct_keeps_ceiling now token w :
  ceiling_invariant w → ceiling_invariant (handleEmergency now token None w).1.
Proof.
  intros Hinv. unfold handleEmergency.
  case_decide; [done|]. case_decide; [done|].
  set (w0 := set_heap _ w).
  assert (ceiling_invariant w0) as Hinv0 by done.
  destruct (allocateWithQuotaCheck_cases now token w0)
    as [[_ ->]|(i & slot & Hi & (_ & _ & Hquota) & ->)]; [done|].
  cbv beta iota.
  apply (bump_emergencyCount_ceiling i _ (place (Token.id (heap w0 token)) slot)).
  - apply list_lookup_insert_eq. by eapply lookup_lt_Some.
  - by rewrite place_emergencyCount.
  - apply Forall_insert; [done|]. rewrite place_emergencyCount.
    change (Slot.emergencyCount slot ≤ perSlotCeiling (doctor w0))%Z. lia.
Qed.

(** C2 at its failing input: one slot of capacity 3 under ceiling 1.  The
    first urgent request is placed directly and the slot counts 1; the
    second fails the quota check, the reshuffler finds spare capacity in the
    same slot and places it there, and the slot counts 2. *)
Theorem second_urgent_request_exceeds_ceiling :
  let w0 := Sample.two_urgent in
  let w1 := (handleEmergency 5000 0 (Some (Sample.token_map w0 0)) w0).1 in
  let w2 := (handleEmergency 6000 1 (Some (Sample.token_map w1 1)) w1).1 in
  perSlotCeiling (doctor w0) = 1%Z
  ∧ ceiling_invariant w0
  ∧ ceiling_invariant w1
  ∧ (handleEmergency 6000 1 (Some (Sample.token_map w1 1)) w1).2 = Normal true
  ∧ Slot.emergencyCount <$> slots_of w2 = [2%Z]
  ∧ ¬ ceiling_invariant w2.
Proof.
  split_and!.
  - done.
  - repeat constructor. vm_compute. discriminate.
  - repeat constructor. vm_compute. discriminate.
  - by vm_compute.
  - by vm_compute.
  - intros Hinv. apply Forall_lookup_1 with (i := 0)
      (x := Sample.slot 0 3 ["E1"; "E2"]%string AVAILABLE 2) in Hinv;
      [|by vm_compute].
    vm_compute in Hinv. by apply Hinv.
Qed.

End Ceiling.

(** ** Status as a derived view *)

Section StatusFacts.

Import AllocationEngine.

(** Placement keeps the status of the slot it fills a derived view. *)
Lemma place_status_derived tokenId s :
  has_room s → status_derived (place tokenId s).
Proof.
  intros [Hst Hroom] _. unfold place.
  set (s1 := Slot.set_allocatedTokenIds _ s).
  destruct (decide (Slot.occupancy s1 = Slot.capacity s1)) as [Hfull|Hfree].
  - simpl. by rewrite decide_True.
  - rewrite decide_False by done. done.
Qed.

(** So does removal, for a slot within its capacity. *)
Lemma unplace_status_derived tokenId s :
  within_capacity s → status_derived s → status_derived (unplace tokenId s).
Proof.
  unfold within_capacity, status_derived, unplace, Slot.occupancy.
  destruct s as [start stop cap ids st urgent]. simpl. intros Hcap Hs.
  destruct (indexOf tokenId ids) as [index|] eqn:Hidx; [|done].
  assert (Z.of_nat (length (delete index ids)) = Z.of_nat (length ids) - 1
          ∧ 0 < Z.of_nat (length ids))%Z as [Hocc Hpos].
  { pose proof (indexOf_Some _ _ _ Hidx) as Hlook.
    pose proof (lookup_lt_Some _ _ _ Hlook).
    rewrite length_delete by by rewrite Hlook. lia. }
  destruct st; simpl; rewrite ?Hocc.
  - intros _. specialize (Hs ltac:(done)).
    case_decide; [done|]. by rewrite decide_False by lia.
  - intros _. rewrite decide_True by (split; [done|lia]).
    simpl. rewrite Hocc. by rewrite decide_False by lia.
  - done.
Qed.

Lemma allocateToken_status_derived now token w :
  Forall status_derived (slots_of w) →
  Forall status_derived (slots_of (allocateToken now token w).1).
Proof.
  intros Hinv.
  destruct (allocateToken_cases now token w)
    as [[_ ->]|(i & slot & Hi & Hroom & ->)]; [done|].
  apply Forall_insert; [done|]. by apply place_status_derived.
Qed.

Lemma freeTokenFromSlot_status_derived token w :
  capacity_invariant w →
  Forall status_derived (slots_of w) →
  Forall status_derived (slots_of (freeTokenFromSlot token w).1).
Proof.
  intros Hcap Hinv. unfold freeTokenFromSlot.
  destruct (Token.slotIndex (heap w token)) as [i|]; [|done].
  destruct (slots_of w !! i) as [slot|] eqn:Hi; [|done].
  apply Forall_insert; [done|]. apply unplace_status_derived.
  - by eapply capacity_invariant_lookup.
  - by eapply Forall_lookup_1.
Qed.

End StatusFacts.

Section Status.

(** C3 at its failing input: slots of capacity 1 half an hour apart, the
    second FULL with A, and a delay of one minute.  The delay blocks the
    first slot only; [reallocate] from index 0 empties the second slot and
    leaves its status FULL. *)
Theorem delay_leaves_emptied_slot_full :
  let w := Sample.late_booking in
  let w' := (handleDoctorDelay 0 1 (Sample.token_map w 1) w).1 in
  Forall status_derived (slots_of w)
  ∧ slots_of w' !! 1 = Some (Sample.slot 1800000 1 [] FULL 0)
  ∧ ¬ Forall status_derived (slots_of w').
Proof.
  split_and!.
  - repeat constructor; intros _; by vm_compute.
  - by vm_compute.
  - intros Hinv. apply Forall_lookup_1 with (i := 1)
      (x := Sample.slot 1800000 1 [] FULL 0) in Hinv; [|by vm_compute].
    unfold status_derived in Hinv. vm_compute in Hinv.
    by specialize (Hinv ltac:(discriminate)).
Qed.

End Status.

(** ** Reshuffling *)

Section Selection.

Import EmergencyReshuffler.

Lemma flexScore_nonneg k : (0 ≤ flexScore k)%Z.
Proof. unfold flexScore. by destruct (Token.flexibility k) as [[]|]. Qed.



(** The selection loop keeps the first occupant of the highest rank met. *)
Lemma findMostFlexible_loop_spec tokens h ids : ∀ best hi,
  (Forall (λ x, (flexScore (h x) ≤ hi)%Z)
     (omap (λ tokenId, tokens !! tokenId) ids)
   ∧ findMostFlexible_loop tokens h ids best hi = best)
  ∨ (∃ ahead r behind,
       omap (λ tokenId, tokens !! tokenId) ids = ahead ++ r :: behind
       ∧ findMostFlexible_loop tokens h ids best hi = Some r
       ∧ (hi < flexScore (h r))%Z
       ∧ Forall (λ x, (flexScore (h x) < flexScore (h r))%Z) ahead
       ∧ Forall (λ x, (flexScore (h x) ≤ flexScore (h r))%Z) behind).
Proof.
  induction ids as [|tokenId ids IH]; intros best hi; [by left|].
  cbn [findMostFlexible_loop].
  assert (omap (λ x, tokens !! x) (tokenId :: ids)
          = match tokens !! tokenId with
            | Some r => r :: omap (λ x, tokens !! x) ids
            | None => omap (λ x, tokens !! x) ids
            end) as -> by reflexivity.
  destruct (tokens !! tokenId) as [r0|]; [|apply IH].
  destruct (decide (hi < flexScore (h r0))%Z) as [Hlt|Hge].
  - right.
    destruct (IH (Some r0) (flexScore (h r0)))
      as [[Hall ->]|(ahead & r & behind & Heq & -> & Hr & Hahead & Hbehind)].
    + by exists [], r0, (omap (λ tokenId, tokens !! tokenId) ids).
    + exists (r0 :: ahead), r, behind. rewrite Heq.
      split_and!; try done; [lia|]. by constructor.
  - destruct (IH best hi)
      as [[Hall ->]|(ahead & r & behind & Heq & -> & Hr & Hahead & Hbehind)].
    + left. split; [|done]. constructor; [lia|done].
    + right. exists (r0 :: ahead), r, behind. rewrite Heq.
      split_and!; try done. constructor; [lia|done].
Qed.

End Selection.

Section Reshuffle.

Import EmergencyReshuffler.




End Reshuffle.

(** * Further properties of the sources *)

(** ** The provider queue *)

Section QueueProperties.

Import QueueManager.

(** X1. [enqueue] inserts the token into the doctor's queue and nothing
    else: the new queue is the old one with the token added, a queue in
    descending order of score stays in that order, and the other doctors'
    queues, the token objects and the doctor are untouched. *)
Theorem enqueue_inserts_in_order d r w :
  descending w (getQueue d w) →
  descending (enqueue d r w) (getQueue d (enqueue d r w))
  ∧ getQueue d (enqueue d r w) ≡ₚ r :: getQueue d w
  ∧ (∀ d', d' ≠ d → queues (enqueue d r w) !! d' = queues w !! d')
  ∧ heap (enqueue d r w) = heap w
  ∧ doctor (enqueue d r w) = doctor w.
Proof.
  intros Hdesc. rewrite getQueue_enqueue. split_and!; try done.
  - by apply (splice_in_descending w).
  - apply splice_in_perm.
  - intros d' Hne. unfold enqueue. simpl. by rewrite lookup_insert_ne.
Qed.

Lemma enqueue_inserts_in_order_witness :
  descending Sample.two_waiting (getQueue "DOC1" Sample.two_waiting)
  ∧ descending (enqueue "DOC1" 1 Sample.two_waiting)
      (getQueue "DOC1" (enqueue "DOC1" 1 Sample.two_waiting))
  ∧ getQueue "DOC1" (enqueue "DOC1" 1 Sample.two_waiting)
    ≡ₚ 1 :: getQueue "DOC1" Sample.two_waiting
  ∧ (∀ d', d' ≠ "DOC1"%string →
       queues (enqueue "DOC1" 1 Sample.two_waiting) !! d'
       = queues Sample.two_waiting !! d')
  ∧ heap (enqueue "DOC1" 1 Sample.two_waiting) = heap Sample.two_waiting
  ∧ doctor (enqueue "DOC1" 1 Sample.two_waiting) = doctor Sample.two_waiting.
Proof.
  assert (descending Sample.two_waiting (getQueue "DOC1" Sample.two_waiting))
    as Hsorted.
  { repeat constructor. vm_compute. discriminate. }
  split; [exact Hsorted|].
  exact (enqueue_inserts_in_order "DOC1" 1 Sample.two_waiting Hsorted).
Defined.

(** X2. Ties go behind: [enqueue] puts the token right before the first
    entry that scores strictly lower, so every entry ahead of it scores at
    least as high, and an entry of equal score that was queued earlier stays
    ahead of it. *)
Theorem enqueue_behind_equal_scores d r w :
  ∃ ahead behind,
    getQueue d w = ahead ++ behind
    ∧ getQueue d (enqueue d r w) = ahead ++ r :: behind
    ∧ Forall (λ x, (score w r <= score w x)%Q) ahead
    ∧ match behind with
      | x :: _ => (score w x < score w r)%Q
      | [] => True
      end.
Proof.
  rewrite getQueue_enqueue. unfold splice_in, insertIndex.
  set (q := getQueue d w).
  exists (take (match list_find (λ x, (score w x < score w r)%Q) q with
                | Some (i, _) => i | None => length q end) q),
         (drop (match list_find (λ x, (score w x < score w r)%Q) q with
                | Some (i, _) => i | None => length q end) q).
  split_and!; [by rewrite take_drop|done| |].
  - destruct (list_find _ q) as [[i x]|] eqn:Hfind.
    + apply list_find_Some in Hfind as (_ & _ & Hbefore).
      apply Forall_forall. intros y Hy.
      apply list_elem_of_lookup in Hy as [j Hj].
      pose proof (lookup_lt_Some _ _ _ Hj) as Hlt. rewrite length_take in Hlt.
      rewrite lookup_take_lt in Hj by lia.
      apply Qnot_lt_le. apply (Hbefore j); [done|lia].
    + apply list_find_None in Hfind. rewrite firstn_all.
      eapply Forall_impl; [exact Hfind|]. intros y Hy. by apply Qnot_lt_le.
  - destruct (list_find _ q) as [[i x]|] eqn:Hfind.
    + apply list_find_Some in Hfind as (Hi & Hx & _).
      by rewrite (drop_S _ _ _ Hi).
    + by rewrite drop_all.
Qed.

(** X3. [dequeue] removes and returns the head, which in a descending queue
    is an entry of highest score; on an empty or absent queue it returns
    null and leaves the state as it was. *)
Theorem dequeue_returns_highest d w :
  match (dequeue d w).2 with
  | None => getQueue d w = [] ∧ (dequeue d w).1 = w
  | Some r =>
      getQueue d w = r :: getQueue d (dequeue d w).1
      ∧ heap (dequeue d w).1 = heap w
      ∧ (descending w (getQueue d w) →
         ∀ x, x ∈ getQueue d w → (score w x <= score w r)%Q)
  end.
Proof.
  destruct (dequeue_cases d w) as [[Hq ->]|(r & rest & Hq & ->)]; simpl; [done|].
  unfold getQueue at 2. simpl. rewrite lookup_insert_eq. simpl.
  split_and!; [done..|].
  rewrite Hq. intros [_ Hall]%StronglySorted_inv x [->|Hx]%elem_of_cons.
  - apply Qle_refl.
  - by apply (proj1 (Forall_forall _ _) Hall).
Qed.

Lemma requeue_getQueue d rs : ∀ w,
  descending w (getQueue d w) →
  descending (requeue d rs w) (getQueue d (requeue d rs w))
  ∧ getQueue d (requeue d rs w) ≡ₚ rs ++ getQueue d w.
Proof.
  induction rs as [|r rs IH]; intros w Hdesc; simpl; [done|].
  destruct (IH (enqueue d r w)) as [Hd Hp].
  { rewrite getQueue_enqueue. by apply (splice_in_descending w). }
  split; [done|]. rewrite Hp, getQueue_enqueue, splice_in_perm.
  by rewrite <- Permutation_middle.
Qed.

(** X4. [requeue] re-inserts a batch one token at a time: the queue after it
    holds the batch and the former entries, nothing more and nothing less,
    and a queue in descending order of score stays in that order whatever
    the order of the batch. *)
Theorem requeue_merges_batch d rs w :
  descending w (getQueue d w) →
  descending (requeue d rs w) (getQueue d (requeue d rs w))
  ∧ getQueue d (requeue d rs w) ≡ₚ rs ++ getQueue d w
  ∧ heap (requeue d rs w) = heap w.
Proof.
  intros Hdesc. destruct (requeue_getQueue d rs w Hdesc) as [Hd Hp].
  split_and!; [done..|].
  clear. revert w. induction rs as [|r rs IH]; intros w; simpl; [done|].
  by rewrite IH.
Qed.

Lemma requeue_merges_batch_witness :
  descending Sample.booked_out (getQueue "DOC1" Sample.booked_out)
  ∧ descending (requeue "DOC1" [1; 0] Sample.booked_out)
      (getQueue "DOC1" (requeue "DOC1" [1; 0] Sample.booked_out))
  ∧ getQueue "DOC1" (requeue "DOC1" [1; 0] Sample.booked_out)
    ≡ₚ [1; 0] ++ getQueue "DOC1" Sample.booked_out
  ∧ heap (requeue "DOC1" [1; 0] Sample.booked_out) = heap Sample.booked_out.
Proof.
  assert (descending Sample.booked_out (getQueue "DOC1" Sample.booked_out))
    as Hsorted.
  { repeat constructor. }
  split; [exact Hsorted|].
  exact (requeue_merges_batch "DOC1" [1; 0] Sample.booked_out Hsorted).
Defined.

(** X5. [remove] excises the first queue entry that carries the given id and
    reports true; it reports false, and changes nothing, exactly when the
    doctor's queue holds no entry with that id.  The entries left keep their
    order. *)
Theorem remove_excises_first_match d tokenId w :
  if (Queue.remove d tokenId w).2
  then ∃ ahead r behind,
         getQueue d w = ahead ++ r :: behind
         ∧ Token.id (heap w r) = tokenId
         ∧ Forall (λ x, Token.id (heap w x) ≠ tokenId) ahead
         ∧ getQueue d (Queue.remove d tokenId w).1 = ahead ++ behind
         ∧ heap (Queue.remove d tokenId w).1 = heap w
  else Forall (λ x, Token.id (heap w x) ≠ tokenId) (getQueue d w)
       ∧ (Queue.remove d tokenId w).1 = w.
Proof.
  unfold Queue.remove, getQueue, Queue.findIndex.
  destruct (queues w !! d) as [queue|] eqn:Hq; simpl; [|done].
  destruct (list_find _ queue) as [[index r]|] eqn:Hfind; simpl.
  - apply list_find_Some in Hfind as (Hi & Hid & Hahead).
    exists (take index queue), r, (drop (S index) queue).
    rewrite lookup_insert_eq. simpl. split_and!; try done.
    + by rewrite (take_drop_middle _ _ _ Hi).
    + apply Forall_forall. intros y Hy.
      apply list_elem_of_lookup in Hy as [j Hj].
      pose proof (lookup_lt_Some _ _ _ Hj) as Hlt. rewrite length_take in Hlt.
      rewrite lookup_take_lt in Hj by lia. apply (Hahead j); [done|lia].
    + apply delete_take_drop.
  - by apply list_find_None in Hfind.
Qed.

(** X6. A token enqueued on an empty (or absent) queue is the one the next
    [dequeue] returns, and the queue is empty again. *)
Theorem enqueue_dequeue_round_trip d r w :
  getQueue d w = [] →
  (dequeue d (enqueue d r w)).2 = Some r
  ∧ getQueue d (dequeue d (enqueue d r w)).1 = []
  ∧ Queue.getQueueLength d (enqueue d r w) = 1.
Proof.
  intros Hq. unfold Queue.getQueueLength. rewrite getQueue_enqueue, Hq.
  unfold dequeue, enqueue. simpl. rewrite lookup_insert_eq, Hq. simpl.
  unfold getQueue. simpl. by rewrite lookup_insert_eq.
Qed.

Lemma enqueue_dequeue_round_trip_witness :
  getQueue "DOC1" Sample.lone_patient = []
  ∧ (dequeue "DOC1" (enqueue "DOC1" 0 Sample.lone_patient)).2 = Some 0
  ∧ getQueue "DOC1" (dequeue "DOC1" (enqueue "DOC1" 0 Sample.lone_patient)).1 = []
  ∧ Queue.getQueueLength "DOC1" (enqueue "DOC1" 0 Sample.lone_patient) = 1.
Proof.
  split; [reflexivity|].
  apply (enqueue_dequeue_round_trip "DOC1" 0 Sample.lone_patient). reflexivity.
Defined.

End QueueProperties.

(** ** Placement, release and cancellation *)

Section EngineProperties.

Import AllocationEngine.

(** X7. First fit: when [allocateToken] returns index [i], slot [i] was
    AVAILABLE with spare capacity and no earlier slot was; the token's id
    is appended to slot [i], which turns FULL exactly when that fills it;
    every other slot is as before; the token is ALLOCATED to slot [i] of
    this doctor at [now], and no other token object and no queue changes. *)
Theorem allocateToken_first_fit now token w i :
  (allocateToken now token w).2 = Some i →
  ∃ slot slot',
    slots_of w !! i = Some slot
    ∧ has_room slot
    ∧ (∀ j s, j < i → slots_of w !! j = Some s → ¬ has_room s)
    ∧ slots_of (allocateToken now token w).1 !! i = Some slot'
    ∧ Slot.allocatedTokenIds slot'
      = Slot.allocatedTokenIds slot ++ [Token.id (heap w token)]
    ∧ Slot.status slot'
      = (if decide (Slot.occupancy slot + 1 = Slot.capacity slot)%Z
         then FULL else AVAILABLE)
    ∧ (∀ j, j ≠ i →
         slots_of (allocateToken now token w).1 !! j = slots_of w !! j)
    ∧ heap (allocateToken now token w).1 token
      = mark_allocated now (Doctor.id (doctor w)) i (heap w token)
    ∧ (∀ r, r ≠ token → heap (allocateToken now token w).1 r = heap w r)
    ∧ queues (allocateToken now token w).1 = queues w.
Proof.
  unfold allocateToken.
  destruct (list_find has_room (slots_of w)) as [[i' slot]|] eqn:Hfind; [|done].
  simpl. intros [= ->].
  apply list_find_Some in Hfind as (Hi & Hroom & Hfirst).
  exists slot, (place (Token.id (heap w token)) slot).
  change (slots_of (set_heap ?h (set_slots ?l ?w0))) with l.
  split_and!; try done.
  - intros j s Hj Hs. by apply (Hfirst j s).
  - apply list_lookup_insert_eq. by eapply lookup_lt_Some.
  - apply place_ids.
  - destruct Hroom as [Hst _]. unfold place.
    change (Slot.capacity (Slot.set_allocatedTokenIds _ slot)) with (Slot.capacity slot).
    assert (Slot.occupancy
              (Slot.set_allocatedTokenIds
                 (Slot.allocatedTokenIds slot ++ [Token.id (heap w token)]) slot)
            = (Slot.occupancy slot + 1)%Z) as ->.
    { unfold Slot.occupancy. simpl. rewrite length_app. simpl. lia. }
    by case_decide.
  - intros j Hj. by apply list_lookup_insert_ne.
  - unfold heap_upd. by rewrite decide_True.
  - intros r Hr. unfold heap_upd. by rewrite decide_False.
Qed.

Lemma allocateToken_first_fit_witness :
  (allocateToken 5000 0 Sample.two_waiting).2 = Some 0
  ∧ ∃ slot slot',
      slots_of Sample.two_waiting !! 0 = Some slot
      ∧ has_room slot
      ∧ (∀ j s, j < 0 → slots_of Sample.two_waiting !! j = Some s → ¬ has_room s)
      ∧ slots_of (allocateToken 5000 0 Sample.two_waiting).1 !! 0 = Some slot'
      ∧ Slot.allocatedTokenIds slot'
        = Slot.allocatedTokenIds slot ++ [Token.id (heap Sample.two_waiting 0)]
      ∧ Slot.status slot'
        = (if decide (Slot.occupancy slot + 1 = Slot.capacity slot)%Z
           then FULL else AVAILABLE)
      ∧ (∀ j, j ≠ 0 →
           slots_of (allocateToken 5000 0 Sample.two_waiting).1 !! j
           = slots_of Sample.two_waiting !! j)
      ∧ heap (allocateToken 5000 0 Sample.two_waiting).1 0
        = mark_allocated 5000 (Doctor.id (doctor Sample.two_waiting)) 0
            (heap Sample.two_waiting 0)
      ∧ (∀ r, r ≠ 0 →
           heap (allocateToken 5000 0 Sample.two_waiting).1 r
           = heap Sample.two_waiting r)
      ∧ queues (allocateToken 5000 0 Sample.two_waiting).1
        = queues Sample.two_waiting.
Proof.
  split; [reflexivity|].
  apply (allocateToken_first_fit 5000 0 Sample.two_waiting 0). reflexivity.
Defined.

Lemma allocateToken_heap_other now token w r :
  r ≠ token → heap (allocateToken now token w).1 r = heap w r.
Proof.
  intros Hne.
  destruct (allocateToken_cases now token w)
    as [[_ ->]|(i & slot & _ & _ & ->)]; [done|].
  unfold heap_upd. simpl. by rewrite decide_False.
Qed.

(** The drain loop touches the doctor's queue and the token objects in it,
    and nothing else. *)
Lemma allocateFromQueue_loop_frame now d fuel : ∀ allocated w res,
  allocateFromQueue_loop fuel now d allocated w = Some res →
  (∀ r, r ∉ QueueManager.getQueue d w → heap res.1 r = heap w r)
  ∧ (∀ d', d' ≠ d → queues res.1 !! d' = queues w !! d').
Proof.
  induction fuel as [|fuel IH]; intros allocated w res Hrun; [done|].
  simpl in Hrun.
  destruct (dequeue_cases d w) as [[Hq Hdq]|(t & rest & Hq & Hdq)];
    rewrite Hdq in Hrun.
  - by simplify_eq/=.
  - remember (set_queues (<[d:=rest]> (queues w)) w) as w1 eqn:Hw1.
    pose proof (allocateToken_heap_other now t w1) as Hother.
    pose proof (allocateToken_queues now t w1) as Hqs.
    destruct (allocateToken now t w1) as [w2 [i|]]; simpl in Hother, Hqs.
    + apply IH in Hrun as [Hheap Hqueues].
      assert (QueueManager.getQueue d w2 = rest) as Hq2.
      { unfold QueueManager.getQueue. rewrite Hqs, Hw1. simpl.
        by rewrite lookup_insert_eq. }
      split.
      * intros r Hr. rewrite Hq in Hr. apply not_elem_of_cons in Hr as [Hne Hr].
        rewrite Hheap by by rewrite Hq2. rewrite Hother by done. by subst w1.
      * intros d' Hne. rewrite Hqueues, Hqs, Hw1 by done. simpl.
        by rewrite lookup_insert_ne.
    + simplify_eq/=. split.
      * intros r Hr. rewrite Hq in Hr. apply not_elem_of_cons in Hr as [Hne Hr].
        by apply Hother.
      * intros d' Hne. rewrite lookup_insert_ne by done. rewrite Hqs. simpl.
        by rewrite lookup_insert_ne.
Qed.

Lemma allocateFromQueue_heap_untouched now d w r :
  r ∉ QueueManager.getQueue d w → heap (allocateFromQueue now d w).1 r = heap w r.
Proof.
  destruct (allocateFromQueue_spec now d w) as (w' & n & -> & Hloop & _).
  destruct (allocateFromQueue_loop_frame _ _ _ _ _ _ Hloop) as [Hheap _].
  apply Hheap.
Qed.

(** X8. The drain is local: [allocateFromQueue] changes no token object
    outside the doctor's queue, no queue of another doctor, and nothing of
    the doctor but the slots. *)
Theorem allocateFromQueue_is_local now d w :
  (∀ r, r ∉ QueueManager.getQueue d w →
     heap (allocateFromQueue now d w).1 r = heap w r)
  ∧ (∀ d', d' ≠ d →
       queues (allocateFromQueue now d w).1 !! d' = queues w !! d')
  ∧ Doctor.set_slots (slots_of w) (doctor (allocateFromQueue now d w).1) = doctor w.
Proof.
  destruct (allocateFromQueue_spec now d w) as (w' & n & -> & Hloop & _).
  destruct (allocateFromQueue_loop_frame _ _ _ _ _ _ Hloop) as [Hheap Hqueues].
  split_and!; [done..|]. simpl.
  apply (allocateFromQueue_loop_doctor
           (λ dr, Doctor.set_slots (slots_of w) dr = doctor w)
           now d) with (fuel := S (length (QueueManager.getQueue d w)))
           (allocated := 0) (w := w) (r := (w', n)); [|by destruct w as [h [] q]|done].
  intros token w0 Hw0.
  destruct (allocateToken_cases now token w0)
    as [[_ ->]|(i & slot & _ & _ & ->)]; [done|].
  simpl. rewrite <- Hw0. by destruct (doctor w0).
Qed.

(** X9. Release: for a token linked to an existing slot,
    [freeTokenFromSlot] completes normally, clears the token's [slotIndex]
    and [allocatedAt] and leaves its status to the caller; the slot loses
    the first occurrence of the token's id (one place freed) or, if the id
    is not among its occupants, stays as it is; no other slot changes. *)
Theorem freeTokenFromSlot_releases token w i slot :
  Token.slotIndex (heap w token) = Some i →
  slots_of w !! i = Some slot →
  ∃ slot',
    (freeTokenFromSlot token w).2 = Normal ()
    ∧ heap (freeTokenFromSlot token w).1 token = clear_allocation (heap w token)
    ∧ (∀ r, r ≠ token → heap (freeTokenFromSlot token w).1 r = heap w r)
    ∧ slots_of (freeTokenFromSlot token w).1 !! i = Some slot'
    ∧ (∀ j, j ≠ i →
         slots_of (freeTokenFromSlot token w).1 !! j = slots_of w !! j)
    ∧ (Token.id (heap w token) ∈ Slot.allocatedTokenIds slot →
       Slot.allocatedTokenIds slot
       ≡ₚ Token.id (heap w token) :: Slot.allocatedTokenIds slot'
       ∧ Slot.occupancy slot' = (Slot.occupancy slot - 1)%Z)
    ∧ (Token.id (heap w token) ∉ Slot.allocatedTokenIds slot → slot' = slot)
    ∧ queues (freeTokenFromSlot token w).1 = queues w.
Proof.
  intros Hidx Hslot. unfold freeTokenFromSlot. rewrite Hidx, Hslot.
  exists (unplace (Token.id (heap w token)) slot). cbn [fst snd].
  change (slots_of (set_heap ?h (set_slots ?l ?w0))) with l.
  split_and!; try done.
  - unfold heap_upd. simpl. by rewrite decide_True.
  - intros r Hr. unfold heap_upd. simpl. by rewrite decide_False.
  - apply list_lookup_insert_eq. by eapply lookup_lt_Some.
  - intros j Hj. by apply list_lookup_insert_ne.
  - intros Hin. unfold unplace.
    destruct (indexOf _ _) as [index|] eqn:Hix.
    + pose proof (indexOf_Some _ _ _ Hix) as Hlook.
      assert (Slot.allocatedTokenIds slot
              ≡ₚ Token.id (heap w token)
                 :: delete index (Slot.allocatedTokenIds slot)) as Hperm.
      { rewrite delete_take_drop, Permutation_middle.
        by rewrite (take_drop_middle _ _ _ Hlook). }
      assert (Z.of_nat (length (delete index (Slot.allocatedTokenIds slot)))
              = Slot.occupancy slot - 1)%Z as Hocc.
      { unfold Slot.occupancy. rewrite length_delete by by rewrite Hlook.
        pose proof (lookup_lt_Some _ _ _ Hlook). lia. }
      by case_decide.
    + exfalso. unfold indexOf in Hix.
      destruct (list_find _ _) as [[? ?]|] eqn:Hfind; [done|].
      apply list_find_None in Hfind.
      by apply (proj1 (Forall_forall _ _) Hfind _ Hin).
  - intros Hnot. unfold unplace.
    destruct (indexOf _ _) as [index|] eqn:Hix; [|done].
    apply indexOf_Some in Hix. exfalso. apply Hnot.
    apply list_elem_of_lookup. eauto.
Qed.

Lemma freeTokenFromSlot_releases_witness :
  Token.slotIndex (heap Sample.booked_out 0) = Some 0
  ∧ slots_of Sample.booked_out !! 0 = Some (Sample.slot 0 1 ["A"%string] FULL 0)
  ∧ ∃ slot',
      (freeTokenFromSlot 0 Sample.booked_out).2 = Normal ()
      ∧ heap (freeTokenFromSlot 0 Sample.booked_out).1 0
        = clear_allocation (heap Sample.booked_out 0)
      ∧ (∀ r, r ≠ 0 →
           heap (freeTokenFromSlot 0 Sample.booked_out).1 r
           = heap Sample.booked_out r)
      ∧ slots_of (freeTokenFromSlot 0 Sample.booked_out).1 !! 0 = Some slot'
      ∧ (∀ j, j ≠ 0 →
           slots_of (freeTokenFromSlot 0 Sample.booked_out).1 !! j
           = slots_of Sample.booked_out !! j)
      ∧ (Token.id (heap Sample.booked_out 0)
         ∈ Slot.allocatedTokenIds (Sample.slot 0 1 ["A"%string] FULL 0) →
         Slot.allocatedTokenIds (Sample.slot 0 1 ["A"%string] FULL 0)
         ≡ₚ Token.id (heap Sample.booked_out 0) :: Slot.allocatedTokenIds slot'
         ∧ Slot.occupancy slot'
           = (Slot.occupancy (Sample.slot 0 1 ["A"%string] FULL 0) - 1)%Z)
      ∧ (Token.id (heap Sample.booked_out 0)
         ∉ Slot.allocatedTokenIds (Sample.slot 0 1 ["A"%string] FULL 0) →
         slot' = Sample.slot 0 1 ["A"%string] FULL 0)
      ∧ queues (freeTokenFromSlot 0 Sample.booked_out).1 = queues Sample.booked_out.
Proof.
  split; [reflexivity|]. split; [reflexivity|].
  apply (freeTokenFromSlot_releases 0 Sample.booked_out 0); reflexivity.
Defined.

(** The three ways [freeTokenFromSlot] can go. *)
Lemma freeTokenFromSlot_cases token w :
  (Token.slotIndex (heap w token) = None
   ∧ freeTokenFromSlot token w = (w, Normal ()))
  ∨ (∃ i, Token.slotIndex (heap w token) = Some i
       ∧ length (slots_of w) ≤ i
       ∧ freeTokenFromSlot token w = (w, Thrown))
  ∨ (∃ i slot, Token.slotIndex (heap w token) = Some i
       ∧ slots_of w !! i = Some slot
       ∧ freeTokenFromSlot token w
         = (set_heap (heap_upd token clear_allocation (heap w))
              (set_slots (<[i := unplace (Token.id (heap w token)) slot]>
                            (slots_of w)) w), Normal ())).
Proof.
  unfold freeTokenFromSlot.
  destruct (Token.slotIndex (heap w token)) as [i|] eqn:Hidx; [|by left].
  destruct (slots_of w !! i) as [slot|] eqn:Hslot.
  - right; right. by exists i, slot.
  - right; left. exists i. split_and!; [done| |done]. by apply lookup_ge_None.
Qed.

(** X10. Releasing is idempotent: whenever [freeTokenFromSlot] completes
    normally a second release of the same token changes nothing; and when it
    throws (the token's slot index is outside the ledger) it has changed
    nothing. *)
Theorem freeTokenFromSlot_idempotent token w :
  match (freeTokenFromSlot token w).2 with
  | Normal _ =>
      freeTokenFromSlot token (freeTokenFromSlot token w).1
      = ((freeTokenFromSlot token w).1, Normal ())
  | Thrown =>
      (freeTokenFromSlot token w).1 = w
      ∧ ∃ i, Token.slotIndex (heap w token) = Some i
             ∧ length (slots_of w) ≤ i
  end.
Proof.
  destruct (freeTokenFromSlot_cases token w)
    as [[Hidx Hfree]|[(i & Hidx & Hlen & Hfree)|(i & slot & Hidx & Hslot & Hfree)]];
    rewrite Hfree; cbn [fst snd].
  - done.
  - eauto.
  - destruct (freeTokenFromSlot_cases token
                (set_heap (heap_upd token clear_allocation (heap w))
                   (set_slots (<[i := unplace (Token.id (heap w token)) slot]>
                                 (slots_of w)) w)))
      as [[_ ->]|[(j & Hj & _)|(j & slot' & Hj & _)]]; [done|exfalso..];
      cbn [heap set_heap] in Hj; unfold heap_upd in Hj;
      by rewrite decide_True in Hj.
Qed.

End EngineProperties.

(** ** Cancellation, quota counters and displaced tokens *)

Section ReleaseProperties.

Import AllocationEngine.

(** X11. [handleCancellation] throws, having changed nothing, when the token
    is not ALLOCATED, when its doctor id is null or empty or its slot index
    is null, or when its slot index is outside the ledger.  Otherwise it
    completes: a token that is not also waiting in the doctor's queue ends
    CANCELLED with [completedAt] set to [now] and its slot linkage cleared,
    and the capacity invariant is kept through the release and the drain
    that follows. *)
Theorem handleCancellation_outcome now token w :
  match (handleCancellation now token w).2 with
  | Thrown =>
      (handleCancellation now token w).1 = w
      ∧ (Token.status (heap w token) ≠ ALLOCATED
         ∨ missing_allocation_info (heap w token)
         ∨ ∃ i, Token.slotIndex (heap w token) = Some i
                ∧ length (slots_of w) ≤ i)
  | Normal _ =>
      Token.status (heap w token) = ALLOCATED
      ∧ ¬ missing_allocation_info (heap w token)
      ∧ (token ∉ QueueManager.getQueue (Doctor.id (doctor w)) w →
         heap (handleCancellation now token w).1 token
         = mark_cancelled now (clear_allocation (heap w token)))
      ∧ (capacity_invariant w →
         capacity_invariant (handleCancellation now token w).1)
  end.
Proof.
  unfold handleCancellation.
  destruct (decide (Token.status (heap w token) ≠ ALLOCATED)) as [Hst|Hst];
    [cbn [fst snd]; by eauto|].
  apply dec_stable in Hst.
  destruct (decide (missing_allocation_info (heap w token))) as [Hmiss|Hinfo];
    [cbn [fst snd]; by eauto|].
  pose proof (freeTokenFromSlot_capacity token w) as Hcap.
  destruct (freeTokenFromSlot_cases token w)
    as [[Hidx Hfree]|[(i & Hidx & Hlen & Hfree)|(i & slot & Hidx & Hslot & Hfree)]];
    rewrite Hfree in Hcap |- *; cbn [fst snd] in *.
  - exfalso. apply Hinfo. by right; right.
  - split; [done|]. right; right. eauto.
  - split_and!; [done..| |].
    + intros Hnotin. rewrite allocateFromQueue_heap_untouched by done.
      cbn [heap set_heap]. unfold heap_upd. by rewrite !decide_True.
    + intros Hinv. apply allocateFromQueue_capacity. by apply Hcap.
Qed.

Lemma unplace_keeps_emergencyCount tokenId s :
  Slot.emergencyCount (unplace tokenId s) = Slot.emergencyCount s.
Proof.
  unfold unplace. destruct (indexOf _ _); [|done]. by case_decide.
Qed.

Lemma emergencyCounts_insert (ss : list Slot.t) i s s' :
  ss !! i = Some s → Slot.emergencyCount s' = Slot.emergencyCount s →
  Slot.emergencyCount <$> <[i := s']> ss = Slot.emergencyCount <$> ss.
Proof.
  intros Hi Hec. rewrite list_fmap_insert, Hec.
  apply list_insert_id. by rewrite list_lookup_fmap, Hi.
Qed.

Lemma allocateToken_emergencyCounts now token w :
  Slot.emergencyCount <$> slots_of (allocateToken now token w).1
  = Slot.emergencyCount <$> slots_of w.
Proof.
  destruct (allocateToken_cases now token w)
    as [[_ ->]|(i & slot & Hi & _ & ->)]; [done|].
  cbn [fst]. change (slots_of (set_heap ?h (set_slots ?l ?w0))) with l.
  apply (emergencyCounts_insert _ _ slot); [done|apply place_emergencyCount].
Qed.

Lemma allocateFromQueue_emergencyCounts now d w :
  Slot.emergencyCount <$> slots_of (allocateFromQueue now d w).1
  = Slot.emergencyCount <$> slots_of w.
Proof.
  apply (allocateFromQueue_doctor
           (λ dr, Slot.emergencyCount <$> Doctor.slots dr
                  = Slot.emergencyCount <$> slots_of w)); [|done].
  intros token w0 <-. apply allocateToken_emergencyCounts.
Qed.

Lemma freeTokenFromSlot_emergencyCounts token w :
  Slot.emergencyCount <$> slots_of (freeTokenFromSlot token w).1
  = Slot.emergencyCount <$> slots_of w.
Proof.
  unfold freeTokenFromSlot.
  destruct (Token.slotIndex (heap w token)) as [i|]; [|done].
  destruct (slots_of w !! i) as [slot|] eqn:Hi; [|done].
  cbn [fst]. change (slots_of (set_heap ?h (set_slots ?l ?w0))) with l.
  apply (emergencyCounts_insert _ _ slot); [done|apply unplace_keeps_emergencyCount].
Qed.

(** X12. The urgent counters are never given back: [freeTokenFromSlot],
    [allocateFromQueue], [reallocate] and [handleCancellation] leave every
    slot's [emergencyCount] as it was, also when the token released or
    displaced is an urgent one. *)
Theorem emergencyCount_survives_release w :
  (∀ token,
     Slot.emergencyCount <$> slots_of (freeTokenFromSlot token w).1
     = Slot.emergencyCount <$> slots_of w)
  ∧ (∀ now d,
       Slot.emergencyCount <$> slots_of (allocateFromQueue now d w).1
       = Slot.emergencyCount <$> slots_of w)
  ∧ (∀ now d fromSlotIndex tokens,
       Slot.emergencyCount <$> slots_of (reallocate now d fromSlotIndex tokens w).1
       = Slot.emergencyCount <$> slots_of w)
  ∧ (∀ now token,
       Slot.emergencyCount <$> slots_of (handleCancellation now token w).1
       = Slot.emergencyCount <$> slots_of w).
Proof.
  split_and!.
  - intros. apply freeTokenFromSlot_emergencyCounts.
  - intros. apply allocateFromQueue_emergencyCounts.
  - intros now d fromSlotIndex tokens. rewrite reallocate_returns. cbn [fst].
    rewrite allocateFromQueue_emergencyCounts.
    unfold slots_of at 1. rewrite requeue_doctor.
    destruct (reallocate_free_spec fromSlotIndex tokens w) as (h' & -> & _).
    cbn [fst]. change (Doctor.slots (doctor (set_heap ?h (set_slots ?l ?w0)))) with l.
    rewrite fmap_app, <- list_fmap_compose.
    rewrite <- (take_drop fromSlotIndex (slots_of w)) at 3.
    by rewrite fmap_app.
  - intros now token. unfold handleCancellation.
    case_decide; [done|]. case_decide; [done|].
    pose proof (freeTokenFromSlot_emergencyCounts token w) as Hfree.
    destruct (freeTokenFromSlot token w) as [w1 [[]|]]; cbn [fst] in *; [|done].
    by rewrite allocateFromQueue_emergencyCounts.
Qed.

(** X13. Placement and release keep the status a derived view: from a state
    within capacity in which every unblocked slot is FULL exactly when it is
    at capacity, [allocateToken], [allocateFromQueue], [freeTokenFromSlot]
    and [handleCancellation] end in such a state. *)
Theorem status_stays_derived w :
  capacity_invariant w →
  Forall status_derived (slots_of w) →
  (∀ now token, Forall status_derived (slots_of (allocateToken now token w).1))
  ∧ (∀ now d, Forall status_derived (slots_of (allocateFromQueue now d w).1))
  ∧ (∀ token, Forall status_derived (slots_of (freeTokenFromSlot token w).1))
  ∧ (∀ now token,
       Forall status_derived (slots_of (handleCancellation now token w).1)).
Proof.
  intros Hcap Hst.
  assert (∀ now d w0, Forall status_derived (slots_of w0) →
            Forall status_derived (slots_of (allocateFromQueue now d w0).1))
    as Hdrain.
  { intros now d w0.
    apply (allocateFromQueue_doctor
             (λ dr, Forall status_derived (Doctor.slots dr))).
    intros token w1. apply allocateToken_status_derived. }
  split_and!.
  - intros. by apply allocateToken_status_derived.
  - intros. by apply Hdrain.
  - intros. by apply freeTokenFromSlot_status_derived.
  - intros now token. unfold handleCancellation.
    case_decide; [done|]. case_decide; [done|].
    pose proof (freeTokenFromSlot_status_derived token w Hcap Hst) as Hfree.
    destruct (freeTokenFromSlot token w) as [w1 [[]|]]; cbn [fst] in *; [|done].
    by apply Hdrain.
Qed.

Lemma status_stays_derived_witness :
  capacity_invariant Sample.booked_out
  ∧ Forall status_derived (slots_of Sample.booked_out)
  ∧ (∀ now token,
       Forall status_derived (slots_of (allocateToken now token Sample.booked_out).1))
  ∧ (∀ now d,
       Forall status_derived (slots_of (allocateFromQueue now d Sample.booked_out).1))
  ∧ (∀ token,
       Forall status_derived (slots_of (freeTokenFromSlot token Sample.booked_out).1))
  ∧ (∀ now token,
       Forall status_derived
         (slots_of (handleCancellation now token Sample.booked_out).1)).
Proof.
  assert (capacity_invariant Sample.booked_out) as Hcap.
  { repeat constructor. vm_compute. discriminate. }
  assert (Forall status_derived (slots_of Sample.booked_out)) as Hst.
  { repeat constructor. }
  split; [exact Hcap|]. split; [exact Hst|].
  exact (status_stays_derived Sample.booked_out Hcap Hst).
Defined.

Lemma requeue_perm d rs : ∀ w,
  QueueManager.getQueue d (QueueManager.requeue d rs w)
  ≡ₚ rs ++ QueueManager.getQueue d w.
Proof.
  induction rs as [|r rs IH]; intros w; simpl; [done|].
  rewrite IH, getQueue_enqueue, splice_in_perm.
  by rewrite <- Permutation_middle.
Qed.

(** X14. [reallocate] loses nobody: after the call every token it displaced,
    and every token that was waiting in the doctor's queue, either has been
    placed again or is in the doctor's queue. *)
Theorem reallocate_loses_no_token now d fromSlotIndex tokens w r :
  r ∈ (reallocate now d fromSlotIndex tokens w).2
  ∨ r ∈ QueueManager.getQueue d w →
  placed (heap (reallocate now d fromSlotIndex tokens w).1 r)
  ∨ r ∈ QueueManager.getQueue d (reallocate now d fromSlotIndex tokens w).1.
Proof.
  rewrite reallocate_returns. cbn [fst snd]. intros Hr.
  set (w1 := (reallocate_free fromSlotIndex tokens w).1).
  set (displaced := (reallocate_free fromSlotIndex tokens w).2).
  assert (r ∈ QueueManager.getQueue d (QueueManager.requeue d displaced w1)) as Hin.
  { rewrite requeue_perm. apply elem_of_app.
    destruct Hr as [Hr|Hr]; [by left|right].
    unfold w1, QueueManager.getQueue.
    destruct (reallocate_free_spec fromSlotIndex tokens w) as (h' & -> & _).
    done. }
  destruct (allocateFromQueue_spec now d (QueueManager.requeue d displaced w1))
    as (w' & n & -> & _ & _ & _ & _ & Htake & Hrest).
  cbn [fst].
  rewrite <- (take_drop n (QueueManager.getQueue d _)) in Hin.
  apply elem_of_app in Hin as [Hin|Hin]; [left; by apply Htake|right].
  destruct (drop n _) as [|x rest]; [by apply elem_of_nil in Hin|].
  destruct Hrest as [-> _]. by rewrite splice_in_perm.
Qed.

Lemma reallocate_loses_no_token_witness :
  (0 ∈ (reallocate 5000 "DOC1" 0 (Sample.token_map Sample.late_booking 1)
          Sample.late_booking).2
   ∨ 0 ∈ QueueManager.getQueue "DOC1" Sample.late_booking)
  ∧ (placed (heap (reallocate 5000 "DOC1" 0 (Sample.token_map Sample.late_booking 1)
                     Sample.late_booking).1 0)
     ∨ 0 ∈ QueueManager.getQueue "DOC1"
             (reallocate 5000 "DOC1" 0 (Sample.token_map Sample.late_booking 1)
                Sample.late_booking).1).
Proof.
  assert (0 ∈ (reallocate 5000 "DOC1" 0 (Sample.token_map Sample.late_booking 1)
                 Sample.late_booking).2
          ∨ 0 ∈ QueueManager.getQueue "DOC1" Sample.late_booking) as Hin.
  { left. vm_compute. apply list_elem_of_here. }
  split; [exact Hin|].
  exact (reallocate_loses_no_token 5000 "DOC1" 0
           (Sample.token_map Sample.late_booking 1) Sample.late_booking 0 Hin).
Defined.

End ReleaseProperties.

(** ** The reshuffler's searches *)

Section ReshufflerSearches.

Import AllocationEngine EmergencyReshuffler.

(** X15. [findMostFlexibleToken] returns the first occupant of highest
    flexibility rank among those the token map resolves (HIGH 3, MEDIUM 2,
    LOW 1, untagged 0): every resolved occupant ahead of it ranks strictly
    lower, every one behind it ranks no higher.  It returns null only when
    no occupant id resolves. *)
Theorem findMostFlexibleToken_first_maximum slot tokens h :
  let resolved :=
    omap (λ tokenId, tokens !! tokenId) (Slot.allocatedTokenIds slot) in
  match findMostFlexibleToken slot tokens h with
  | None => resolved = []
  | Some r =>
      ∃ ahead behind,
        resolved = ahead ++ r :: behind
        ∧ Forall (λ x, (flexScore (h x) < flexScore (h r))%Z) ahead
        ∧ Forall (λ x, (flexScore (h x) ≤ flexScore (h r))%Z) behind
  end.
Proof.
  unfold findMostFlexibleToken.
  destruct (findMostFlexible_loop_spec tokens h (Slot.allocatedTokenIds slot)
              None (-1))
    as [[Hall ->]|(ahead & r & behind & Hres & -> & _ & Hahead & Hbehind)].
  - cbv zeta.
    destruct (omap _ (Slot.allocatedTokenIds slot)) as [|x rest]; [done|].
    apply Forall_cons in Hall as [Hx _].
    pose proof (flexScore_nonneg (h x)). lia.
  - by exists ahead, behind.
Qed.

Lemma room_at_inv ss z :
  room_at ss z → ∃ slot, ss !! Z.to_nat z = Some slot ∧ has_room slot.
Proof.
  unfold room_at. destruct (ss !! Z.to_nat z) as [slot|]; [|done]. by exists slot.
Qed.

(** X16. [findNearbySlotWithCapacity] looks at the slots up to [window]
    positions after the current one, nearest first, then at those up to
    [window] positions before it, nearest first, and never at the current
    slot.  A returned index is within the window and its slot is AVAILABLE
    with spare capacity; an index before the current slot is returned only
    when no later slot of the window qualifies; null is returned only when
    no slot of the window qualifies. *)
Theorem findNearbySlotWithCapacity_window w currentSlotIndex window :
  let in_window (j : nat) :=
    j ≠ currentSlotIndex
    ∧ (Z.of_nat currentSlotIndex - window ≤ Z.of_nat j
       ≤ Z.of_nat currentSlotIndex + window)%Z in
  match findNearbySlotWithCapacity w currentSlotIndex window with
  | Some i =>
      in_window i
      ∧ (∃ slot, slots_of w !! i = Some slot ∧ has_room slot)
      ∧ (∀ j slot, in_window j → slots_of w !! j = Some slot → has_room slot →
           (currentSlotIndex < i ∧ (i ≤ j ∨ j < currentSlotIndex))
           ∨ (i < currentSlotIndex ∧ j ≤ i))
  | None =>
      ∀ j slot, in_window j → slots_of w !! j = Some slot → ¬ has_room slot
  end.
Proof.
  intros in_window. unfold findNearbySlotWithCapacity.
  set (c := Z.of_nat currentSlotIndex).
  set (n := Z.of_nat (length (slots_of w))).
  set (maxSlot := Z.min (n - 1) (c + window)).
  set (minSlot := Z.max 0 (c - window)).
  assert (c = Z.of_nat currentSlotIndex
          ∧ n = Z.of_nat (length (slots_of w))
          ∧ maxSlot = Z.min (n - 1) (c + window)
          ∧ minSlot = Z.max 0 (c - window)) as (Hc & Hn & Hmax & Hmin) by done.
  unfold in_window. clear in_window. clearbody c n maxSlot minSlot.
  rewrite <- !Hc.
  assert (∀ j slot, slots_of w !! j = Some slot → has_room slot →
            room_at (slots_of w) (Z.of_nat j)) as Hroom_at.
  { intros j slot Hj Hroom. unfold room_at. by rewrite Nat2Z.id, Hj. }
  assert (∀ j slot,
            j ≠ currentSlotIndex ∧ (c - window ≤ Z.of_nat j ≤ c + window)%Z →
            slots_of w !! j = Some slot →
            ((c < Z.of_nat j)%Z → Z.of_nat j ∈ seqZ (c + 1) (maxSlot - c))
            ∧ ((Z.of_nat j < c)%Z → Z.of_nat j ∈ reverse (seqZ minSlot (c - minSlot))))
    as Hcover.
  { intros j slot [Hne Hwin] Hj. apply lookup_lt_Some in Hj.
    split; intros Hside.
    - apply elem_of_seqZ. lia.
    - apply elem_of_reverse, elem_of_seqZ. lia. }
  destruct (list_find _ (seqZ _ _)) as [[k z]|] eqn:Hfwd.
  - apply list_find_Some in Hfwd as (Hk & Hz & Hfirst).
    assert (z ∈ seqZ (c + 1) (maxSlot - c)) as Hin
      by (apply list_elem_of_lookup; eauto).
    apply elem_of_seqZ in Hin.
    apply room_at_inv in Hz as Hslot.
    split; [lia|]. split; [done|].
    intros j slot Hwin Hj Hroom. left. split; [lia|].
    {
      destruct (decide (currentSlotIndex < j)) as [Hafter|]; [|right; lia].
      left. destruct (decide (Z.to_nat z ≤ j)) as [|Hlt]; [done|exfalso].
      destruct (Hcover j slot Hwin Hj) as [Hf _].
      apply list_elem_of_lookup in Hf as [k' Hk']; [|lia].
      apply (Hfirst k' (Z.of_nat j)); [done| |by eapply Hroom_at].
      apply lookup_seqZ in Hk as [-> _]. apply lookup_seqZ in Hk' as [Hk' _]. lia. }
  - apply list_find_None in Hfwd.
    destruct (list_find _ (reverse _)) as [[k z]|] eqn:Hbwd.
    + apply list_find_Some in Hbwd as (Hk & Hz & Hfirst).
      assert (z ∈ reverse (seqZ minSlot (c - minSlot))) as Hin
        by (apply list_elem_of_lookup; eauto).
      apply elem_of_reverse, elem_of_seqZ in Hin.
      apply room_at_inv in Hz as Hslot.
      split; [lia|]. split; [done|].
      intros j slot Hwin Hj Hroom. right. split; [lia|].
        destruct (Hcover j slot Hwin Hj) as [Hf Hb].
        destruct (decide (c < Z.of_nat j)%Z) as [Hafter|Hbefore].
        { exfalso. apply (proj1 (Forall_forall _ _) Hfwd _ (Hf Hafter)).
          by eapply Hroom_at. }
        destruct (decide (j ≤ Z.to_nat z)) as [|Hlt]; [done|exfalso].
        destruct Hwin as [Hne Hwin].
        apply list_elem_of_lookup in Hb as [k' Hk']; [|lia].
        apply (Hfirst k' (Z.of_nat j)); [done| |by eapply Hroom_at].
        pose proof (lookup_lt_Some _ _ _ Hk) as Hklt.
        pose proof (lookup_lt_Some _ _ _ Hk') as Hklt'.
        rewrite length_reverse in Hklt, Hklt'.
        rewrite reverse_lookup in Hk by done.
        rewrite reverse_lookup in Hk' by done.
        rewrite length_seqZ in Hk, Hk', Hklt, Hklt'.
        apply lookup_seqZ in Hk as [Hk _]. apply lookup_seqZ in Hk' as [Hk' _]. lia.
    + apply list_find_None in Hbwd.
      intros j slot Hwin Hj Hroom.
      destruct (Hcover j slot Hwin Hj) as [Hf Hb].
      destruct Hwin as [Hne Hwin].
      destruct (decide (c < Z.of_nat j)%Z) as [Hafter|Hbefore].
      * apply (proj1 (Forall_forall _ _) Hfwd _ (Hf Hafter)). by eapply Hroom_at.
      * apply (proj1 (Forall_forall _ _) Hbwd (Z.of_nat j));
          [apply Hb; lia|by eapply Hroom_at].
Qed.

End ReshufflerSearches.

(** ** Reshuffling moves occupants, it does not lose them *)

Section ReshuffleConservation.

Import AllocationEngine EmergencyReshuffler.

Lemma unplace_perm tokenId s :
  tokenId ∈ Slot.allocatedTokenIds s →
  Slot.allocatedTokenIds s ≡ₚ tokenId :: Slot.allocatedTokenIds (unplace tokenId s).
Proof.
  intros Hin. unfold unplace.
  destruct (indexOf _ _) as [index|] eqn:Hix.
  - pose proof (indexOf_Some _ _ _ Hix) as Hlook.
    assert (Slot.allocatedTokenIds s
            ≡ₚ tokenId :: delete index (Slot.allocatedTokenIds s)) as Hperm.
    { rewrite delete_take_drop, Permutation_middle.
      by rewrite (take_drop_middle _ _ _ Hlook). }
    by case_decide.
  - exfalso. unfold indexOf in Hix.
    destruct (list_find _ _) as [[? ?]|] eqn:Hfind; [done|].
    apply list_find_None in Hfind.
    by apply (proj1 (Forall_forall _ _) Hfind _ Hin).
Qed.

Lemma shiftToken_occupants now token fromSlotIndex toSlotIndex w fromSlot :
  slots_of w !! fromSlotIndex = Some fromSlot →
  Token.id (heap w token) ∈ Slot.allocatedTokenIds fromSlot →
  toSlotIndex < length (slots_of w) →
  (shiftToken now token fromSlotIndex toSlotIndex w).2 = Normal ()
  ∧ all_occupants (shiftToken now token fromSlotIndex toSlotIndex w).1
    ≡ₚ all_occupants w
  ∧ (∀ r, Token.id (heap (shiftToken now token fromSlotIndex toSlotIndex w).1 r)
          = Token.id (heap w r))
  ∧ doctor (shiftToken now token fromSlotIndex toSlotIndex w).1
    = Doctor.set_slots
        (<[toSlotIndex :=
             place (Token.id (heap w token))
               (default fromSlot
                  (<[fromSlotIndex := unplace (Token.id (heap w token)) fromSlot]>
                     (slots_of w) !! toSlotIndex))]>
           (<[fromSlotIndex := unplace (Token.id (heap w token)) fromSlot]>
              (slots_of w)))
        (doctor w).
Proof.
  intros Hfrom Hin Hto. unfold shiftToken. rewrite Hfrom.
  set (tokenId := Token.id (heap w token)) in *.
  set (ss1 := <[fromSlotIndex := unplace tokenId fromSlot]> (slots_of w)).
  change (slots_of (set_slots ss1 w)) with ss1.
  destruct (ss1 !! toSlotIndex) as [toSlot|] eqn:Hto1.
  2:{ apply lookup_ge_None in Hto1. unfold ss1 in Hto1.
      rewrite length_insert in Hto1. lia. }
  cbn [fst snd]. split_and!; [done| | |done].
  - unfold all_occupants.
    change (slots_of (set_heap ?h (set_slots ?l ?w0))) with l.
    destruct (all_occupants_insert (slots_of w) fromSlotIndex fromSlot Hfrom)
      as (o1 & Hbefore & Hafter1).
    destruct (all_occupants_insert ss1 toSlotIndex toSlot Hto1)
      as (o2 & Hmid & Hafter2).
    transitivity (tokenId :: concat (Slot.allocatedTokenIds <$> ss1)).
    + rewrite Hafter2, place_ids, Hmid, <- app_assoc.
      symmetry. apply Permutation_middle.
    + rewrite Hbefore. unfold ss1. rewrite Hafter1.
      by rewrite (unplace_perm tokenId fromSlot Hin) at 1.
  - intros r. cbn [heap set_heap]. unfold heap_upd. by case_decide.
Qed.

Lemma allocateEmergencyToSlot_with_room now e i w slot :
  slots_of w !! i = Some slot →
  (Slot.occupancy slot < Slot.capacity slot)%Z →
  (allocateEmergencyToSlot now e i w).2 = Normal (Some i)
  ∧ all_occupants (allocateEmergencyToSlot now e i w).1
    ≡ₚ Token.id (heap w e) :: all_occupants w
  ∧ placed (heap (allocateEmergencyToSlot now e i w).1 e)
  ∧ Token.slotIndex (heap (allocateEmergencyToSlot now e i w).1 e) = Some i.
Proof.
  intros Hi Hroom. unfold allocateEmergencyToSlot. rewrite Hi.
  rewrite decide_False by lia. cbn [fst snd]. split_and!; [done| | |].
  - unfold all_occupants.
    change (slots_of (set_heap ?h (set_slots ?l ?w0))) with l.
    destruct (all_occupants_insert (slots_of w) i slot Hi) as (o & Hbefore & Hafter).
    rewrite Hafter, place_ids, Hbefore, <- app_assoc.
    symmetry. apply Permutation_middle.
  - cbn [heap set_heap]. unfold heap_upd, placed. rewrite decide_True by done.
    simpl. eauto.
  - cbn [heap set_heap]. unfold heap_upd. by rewrite decide_True.
Qed.

Lemma findMostFlexibleToken_resolves slot tokens h r :
  findMostFlexibleToken slot tokens h = Some r →
  ∃ tokenId, tokenId ∈ Slot.allocatedTokenIds slot ∧ tokens !! tokenId = Some r.
Proof.
  unfold findMostFlexibleToken. intros Hfind.
  destruct (findMostFlexible_loop_spec tokens h (Slot.allocatedTokenIds slot)
              None (-1))
    as [[_ Hnone]|(ahead & r' & behind & Hres & Hsome & _)]; [congruence|].
  assert (r ∈ omap (λ tokenId, tokens !! tokenId) (Slot.allocatedTokenIds slot))
    as Hin.
  { rewrite Hres. apply elem_of_app. right.
    replace r with r' by congruence. apply list_elem_of_here. }
  by apply list_elem_of_omap in Hin.
Qed.

Lemma attemptReshuffle_loop_occupants now e tokens targets : ∀ w,
  Forall (λ t, t < length (slots_of w)) targets →
  capacity_invariant w →
  consistent_map tokens w →
  match (attemptReshuffle_loop now e tokens targets w).2 with
  | Normal None => (attemptReshuffle_loop now e tokens targets w).1 = w
  | Normal (Some i) =>
      all_occupants (attemptReshuffle_loop now e tokens targets w).1
      ≡ₚ Token.id (heap w e) :: all_occupants w
      ∧ placed (heap (attemptReshuffle_loop now e tokens targets w).1 e)
      ∧ Token.slotIndex (heap (attemptReshuffle_loop now e tokens targets w).1 e)
        = Some i
  | Thrown => False
  end.
Proof.
  induction targets as [|target rest IH]; intros w Hrange Hcap Hmap; [done|].
  apply Forall_cons in Hrange as [Htarget Hrange].
  cbn [attemptReshuffle_loop].
  destruct (slots_of w !! target) as [targetSlot|] eqn:Hslot;
    [|apply lookup_ge_None in Hslot; lia].
  case_decide as Hblocked; [by apply IH|].
  case_decide as Hroom.
  { destruct (allocateEmergencyToSlot_with_room now e target w targetSlot Hslot Hroom)
      as (-> & Hocc & Hplaced & Hidx). done. }
  destruct (findMostFlexibleToken targetSlot tokens (heap w))
    as [flexibleToken|] eqn:Hflex; [|by apply IH].
  destruct (findNearbySlotWithCapacity w target RESHUFFLE_WINDOW)
    as [dest|] eqn:Hdest; [|by apply IH].
  apply findMostFlexibleToken_resolves in Hflex as (tokenId & Hin & Hget).
  apply Hmap in Hget as Hid. rewrite <- Hid in Hin.
  apply findNearbySlotWithCapacity_Some in Hdest as (destSlot & Hdslot & _ & Hdroom).
  assert (dest ≠ target) as Hne by (intros ->; simplify_eq; lia).
  destruct (shiftToken_occupants now flexibleToken target dest w targetSlot
              Hslot Hin (lookup_lt_Some _ _ _ Hdslot))
    as (Hnormal & Hperm & Hids & Hdoc).
  destruct (shiftToken now flexibleToken target dest w) as [w1 [[]|]];
    cbn [fst snd] in *; [|done].
  assert (slots_of w1 !! target
          = Some (unplace (Token.id (heap w flexibleToken)) targetSlot)) as Hslot1.
  { unfold slots_of. rewrite Hdoc. cbn [Doctor.slots Doctor.set_slots].
    rewrite list_lookup_insert_ne by done.
    apply list_lookup_insert_eq. by eapply lookup_lt_Some. }
  assert (Slot.occupancy (unplace (Token.id (heap w flexibleToken)) targetSlot)
          < Slot.capacity (unplace (Token.id (heap w flexibleToken)) targetSlot))%Z
    as Hroom1.
  { rewrite unplace_capacity.
    pose proof (capacity_invariant_lookup w target targetSlot Hcap Hslot) as Hwithin.
    unfold within_capacity in Hwithin.
    pose proof (Permutation_length (unplace_perm _ _ Hin)) as Hlen.
    unfold Slot.occupancy in *. simpl in Hlen. lia. }
  destruct (allocateEmergencyToSlot_with_room now e target w1 _ Hslot1 Hroom1)
    as (-> & Hocc & Hplaced & Hidx).
  split_and!; [|done..]. by rewrite Hocc, Hids, Hperm.
Qed.

(** X17. Reshuffling moves occupants, it never loses or duplicates one.  In
    a state within capacity, with a token map that resolves each id to the
    token carrying it, [attemptReshuffle] never throws; when it returns null
    it has changed nothing; when it returns a slot index the occupants of
    the whole ledger are, as a multiset, the former occupants plus the
    urgent token, and the urgent token is ALLOCATED to that index. *)
Theorem attemptReshuffle_moves_without_loss now e tokens w :
  capacity_invariant w →
  consistent_map tokens w →
  match (attemptReshuffle now e tokens w).2 with
  | Normal None => (attemptReshuffle now e tokens w).1 = w
  | Normal (Some i) =>
      all_occupants (attemptReshuffle now e tokens w).1
      ≡ₚ Token.id (heap w e) :: all_occupants w
      ∧ placed (heap (attemptReshuffle now e tokens w).1 e)
      ∧ Token.slotIndex (heap (attemptReshuffle now e tokens w).1 e) = Some i
  | Thrown => False
  end.
Proof.
  intros Hcap Hmap. apply attemptReshuffle_loop_occupants; [|done..].
  apply Forall_forall. intros t Ht. apply elem_of_seq in Ht. lia.
Qed.

End ReshuffleConservation.

Lemma attemptReshuffle_moves_without_loss_witness :
  capacity_invariant Sample.untagged_full
  ∧ consistent_map (Sample.token_map Sample.untagged_full 1) Sample.untagged_full
  ∧ match (EmergencyReshuffler.attemptReshuffle 5000 1
             (Sample.token_map Sample.untagged_full 1) Sample.untagged_full).2 with
    | Normal None =>
        (EmergencyReshuffler.attemptReshuffle 5000 1
           (Sample.token_map Sample.untagged_full 1) Sample.untagged_full).1
        = Sample.untagged_full
    | Normal (Some i) =>
        all_occupants
          (EmergencyReshuffler.attemptReshuffle 5000 1
             (Sample.token_map Sample.untagged_full 1) Sample.untagged_full).1
        ≡ₚ Token.id (heap Sample.untagged_full 1) :: all_occupants Sample.untagged_full
        ∧ placed
            (heap (EmergencyReshuffler.attemptReshuffle 5000 1
                     (Sample.token_map Sample.untagged_full 1)
                     Sample.untagged_full).1 1)
        ∧ Token.slotIndex
            (heap (EmergencyReshuffler.attemptReshuffle 5000 1
                     (Sample.token_map Sample.untagged_full 1)
                     Sample.untagged_full).1 1) = Some i
    | Thrown => False
    end.
Proof.
  assert (capacity_invariant Sample.untagged_full) as Hcap.
  { repeat constructor; vm_compute; discriminate. }
  assert (consistent_map (Sample.token_map Sample.untagged_full 1)
            Sample.untagged_full) as Hmap.
  { intros tokenId r. unfold Sample.token_map. simpl.
    rewrite lookup_insert_Some, lookup_empty.
    intros [[<- <-]|[_ ?]]; [reflexivity|discriminate]. }
  split; [exact Hcap|]. split; [exact Hmap|].
  exact (attemptReshuffle_moves_without_loss 5000 1
           (Sample.token_map Sample.untagged_full 1) Sample.untagged_full Hcap Hmap).
Defined.

(** ** Urgent intake *)

Section UrgentIntake.

Import AllocationEngine EmergencyReshuffler.

Lemma countDaily_fmap (ss : list Slot.t) : ∀ a,
  foldl (λ sum slot, (sum + Slot.emergencyCount slot)%Z) a ss
  = foldl Z.add a (Slot.emergencyCount <$> ss).
Proof. induction ss as [|s ss IH]; intros a; simpl; [done|]. apply IH. Qed.

Lemma foldl_add_shift (l : list Z) : ∀ a k,
  foldl Z.add (a + k)%Z l = (foldl Z.add a l + k)%Z.
Proof.
  induction l as [|y l IH]; intros a k; simpl; [done|].
  replace (a + k + y)%Z with (a + y + k)%Z by lia. apply IH.
Qed.

Lemma foldl_add_insert (l : list Z) : ∀ i x a,
  l !! i = Some x →
  foldl Z.add a (<[i := (x + 1)%Z]> l) = (foldl Z.add a l + 1)%Z.
Proof.
  induction l as [|y l IH]; intros i x a Hi; [done|].
  destruct i as [|i]; simpl in *.
  - simplify_eq. rewrite !foldl_add_shift. lia.
  - by apply IH.
Qed.

Lemma bump_emergencyCount_daily i w :
  countDailyEmergencies (doctor (bump_emergencyCount i w).1)
  = (countDailyEmergencies (doctor w)
     + (if (bump_emergencyCount i w).2 is Normal true then 1 else 0))%Z.
Proof.
  unfold bump_emergencyCount.
  destruct (slots_of w !! i) as [slot|] eqn:Hi; cbn [fst snd]; [|lia].
  unfold countDailyEmergencies. cbn [doctor set_slots Doctor.slots Doctor.set_slots].
  rewrite !countDaily_fmap, list_fmap_insert. cbn [Slot.emergencyCount Slot.set_emergencyCount].
  apply foldl_add_insert. unfold slots_of in Hi. by rewrite list_lookup_fmap, Hi.
Qed.

Lemma allocateWithQuotaCheck_emergencyCounts now token w :
  Slot.emergencyCount <$> slots_of (allocateWithQuotaCheck now token w).1
  = Slot.emergencyCount <$> slots_of w.
Proof.
  destruct (allocateWithQuotaCheck_cases now token w)
    as [[_ ->]|(i & slot & Hi & _ & ->)]; [done|].
  cbn [fst]. change (slots_of (set_heap ?h (set_slots ?l ?w0))) with l.
  rewrite list_fmap_insert, place_emergencyCount.
  apply list_insert_id. by rewrite list_lookup_fmap, Hi.
Qed.

Lemma shiftToken_emergencyCounts now token fromSlotIndex toSlotIndex w :
  Slot.emergencyCount <$> slots_of (shiftToken now token fromSlotIndex toSlotIndex w).1
  = Slot.emergencyCount <$> slots_of w.
Proof.
  unfold shiftToken.
  destruct (slots_of w !! fromSlotIndex) as [fromSlot|] eqn:Hfrom; [|done].
  set (ss1 := <[fromSlotIndex := _]> (slots_of w)).
  assert (Slot.emergencyCount <$> ss1 = Slot.emergencyCount <$> slots_of w) as H1.
  { apply (emergencyCounts_insert _ _ fromSlot); [done|].
    apply unplace_keeps_emergencyCount. }
  change (slots_of (set_slots ss1 w)) with ss1.
  destruct (ss1 !! toSlotIndex) as [toSlot|] eqn:Hto; cbn [fst]; [|done].
  change (slots_of (set_heap ?h (set_slots ?l ?w0))) with l.
  rewrite <- H1. apply (emergencyCounts_insert _ _ toSlot); [done|].
  apply place_emergencyCount.
Qed.

Lemma allocateEmergencyToSlot_emergencyCounts now e i w :
  Slot.emergencyCount <$> slots_of (allocateEmergencyToSlot now e i w).1
  = Slot.emergencyCount <$> slots_of w.
Proof.
  unfold allocateEmergencyToSlot.
  destruct (slots_of w !! i) as [slot|] eqn:Hi; [|done].
  case_decide; [done|]. cbn [fst].
  change (slots_of (set_heap ?h (set_slots ?l ?w0))) with l.
  apply (emergencyCounts_insert _ _ slot); [done|apply place_emergencyCount].
Qed.

Lemma attemptReshuffle_loop_emergencyCounts now e tokens targets : ∀ w,
  Slot.emergencyCount <$> slots_of (attemptReshuffle_loop now e tokens targets w).1
  = Slot.emergencyCount <$> slots_of w.
Proof.
  induction targets as [|target rest IH]; intros w; [done|].
  cbn [attemptReshuffle_loop].
  destruct (slots_of w !! target) as [targetSlot|]; [|done].
  case_decide; [apply IH|].
  case_decide; [apply allocateEmergencyToSlot_emergencyCounts|].
  destruct (findMostFlexibleToken _ _ _) as [flexibleToken|]; [|apply IH].
  destruct (findNearbySlotWithCapacity _ _ _) as [dest|]; [|apply IH].
  pose proof (shiftToken_emergencyCounts now flexibleToken target dest w) as Hshift.
  destruct (shiftToken _ _ _ _ _) as [w1 [[]|]]; cbn [fst] in *; [|done].
  by rewrite allocateEmergencyToSlot_emergencyCounts.
Qed.

Lemma countDaily_of_counts w w' :
  Slot.emergencyCount <$> slots_of w' = Slot.emergencyCount <$> slots_of w →
  countDailyEmergencies (doctor w') = countDailyEmergencies (doctor w).
Proof.
  intros Heq. unfold countDailyEmergencies. rewrite !countDaily_fmap.
  unfold slots_of in Heq. by rewrite Heq.
Qed.

(** The day's urgent total grows by one when [handleEmergency] reports an
    immediate allocation and is unchanged otherwise. *)
Lemma handleEmergency_daily_count now token reshuffle w :
  countDailyEmergencies (doctor (handleEmergency now token reshuffle w).1)
  = (countDailyEmergencies (doctor w)
     + (if (handleEmergency now token reshuffle w).2 is Normal true then 1 else 0))%Z
  ∧ ((handleEmergency now token reshuffle w).2 = Normal true →
     ¬ dailyQuotaReached (doctor w)).
Proof.
  unfold handleEmergency.
  case_decide; [cbn [fst snd]; split; [lia|done]|].
  set (w0 := set_heap _ w).
  change (doctor w0) with (doctor w).
  destruct (decide (dailyQuotaReached (doctor w))) as [Hq|Hq];
    [cbn [fst snd]; split; [unfold queue_emergency; cbn; lia|done]|].
  pose proof (allocateWithQuotaCheck_emergencyCounts now token w0) as Hdirect.
  apply countDaily_of_counts in Hdirect. change (doctor w0) with (doctor w) in Hdirect.
  destruct (allocateWithQuotaCheck now token w0) as [w1 [slotIndex|]];
    cbn [fst] in Hdirect.
  - split; [|done]. by rewrite bump_emergencyCount_daily, Hdirect.
  - destruct reshuffle as [tokens|];
      [|cbn [fst snd]; split; [unfold queue_emergency; cbn; lia|done]].
    pose proof (attemptReshuffle_loop_emergencyCounts now token tokens
                  (seq 0 (length (slots_of w1))) w1) as Hre.
    apply countDaily_of_counts in Hre. unfold attemptReshuffle.
    destruct (attemptReshuffle_loop _ _ _ _ _) as [w2 [[reshuffledSlot|]|]];
      cbn [fst snd] in *.
    + split; [|done]. by rewrite bump_emergencyCount_daily, Hre, Hdirect.
    + split; [unfold queue_emergency; cbn; lia|done].
    + split; [lia|done].
Qed.

(** X18. The per-day urgent ceiling is kept by [handleEmergency] on every
    path, reshuffling included: the day's total of [emergencyCount] grows by
    exactly one when the call reports an immediate allocation, which it
    does only while the total is below the ceiling, and is unchanged
    otherwise. *)
Theorem handleEmergency_keeps_daily_ceiling now token reshuffle w :
  daily_ceiling_invariant w →
  daily_ceiling_invariant (handleEmergency now token reshuffle w).1
  ∧ countDailyEmergencies (doctor (handleEmergency now token reshuffle w).1)
    = (countDailyEmergencies (doctor w)
       + (if (handleEmergency now token reshuffle w).2 is Normal true
          then 1 else 0))%Z.
Proof.
  intros Hinv.
  destruct (handleEmergency_daily_count now token reshuffle w) as [Hcount Hquota].
  split; [|done].
  assert (Doctor.maxEmergenciesPerDay (doctor (handleEmergency now token reshuffle w).1)
          = Doctor.maxEmergenciesPerDay (doctor w)) as Hmax.
  { clear. unfold handleEmergency.
    case_decide; [done|]. set (w0 := set_heap _ w).
    case_decide; [done|].
    destruct (allocateWithQuotaCheck_cases now token w0)
      as [[_ ->]|(i & slot & _ & _ & ->)].
    - destruct reshuffle as [tokens|]; [|done].
      unfold attemptReshuffle.
      assert (∀ targets w1,
                Doctor.maxEmergenciesPerDay
                  (doctor (attemptReshuffle_loop now token tokens targets w1).1)
                = Doctor.maxEmergenciesPerDay (doctor w1)) as Hloop.
      { induction targets as [|t rest IH]; intros w1; [done|].
        cbn [attemptReshuffle_loop].
        destruct (slots_of w1 !! t) as [ts|]; [|done].
        assert (∀ w2, Doctor.maxEmergenciesPerDay
                        (doctor (allocateEmergencyToSlot now token t w2).1)
                      = Doctor.maxEmergenciesPerDay (doctor w2)) as Halloc.
        { intros w2. unfold allocateEmergencyToSlot.
          destruct (slots_of w2 !! t); [|done]. by case_decide. }
        case_decide; [apply IH|]. case_decide; [apply Halloc|].
        destruct (findMostFlexibleToken _ _ _) as [ft|]; [|apply IH].
        destruct (findNearbySlotWithCapacity _ _ _) as [dest|]; [|apply IH].
        assert (Doctor.maxEmergenciesPerDay (doctor (shiftToken now ft t dest w1).1)
                = Doctor.maxEmergenciesPerDay (doctor w1)) as Hshift.
        { unfold shiftToken. destruct (slots_of w1 !! t); [|done].
          by destruct (slots_of _ !! dest). }
        destruct (shiftToken _ _ _ _ _) as [w2 [[]|]]; cbn [fst] in *; [|done].
        by rewrite Halloc. }
      specialize (Hloop (seq 0 (length (slots_of w0))) w0).
      destruct (attemptReshuffle_loop _ _ _ _ _) as [w2 [[rs|]|]];
        cbn [fst] in *; [|done..].
      unfold bump_emergencyCount. by destruct (slots_of w2 !! rs).
    - cbv beta iota. unfold bump_emergencyCount.
      by destruct (slots_of _ !! i). }
  unfold daily_ceiling_invariant in *. rewrite Hmax.
  destruct (Doctor.maxEmergenciesPerDay (doctor w)) as [m|] eqn:Hm; [|done].
  rewrite Hcount.
  destruct (handleEmergency now token reshuffle w).2 as [[]|]; [|lia..].
  specialize (Hquota eq_refl). unfold dailyQuotaReached in Hquota.
  rewrite Hm in Hquota. lia.
Qed.

End UrgentIntake.

Lemma handleEmergency_keeps_daily_ceiling_witness :
  daily_ceiling_invariant Scenario.capped_day
  ∧ daily_ceiling_invariant
      (handleEmergency 5000 0 (Some ∅) Scenario.capped_day).1
  ∧ countDailyEmergencies
      (doctor (handleEmergency 5000 0 (Some ∅) Scenario.capped_day).1)
    = (countDailyEmergencies (doctor Scenario.capped_day)
       + (if (handleEmergency 5000 0%nat (Some ∅) Scenario.capped_day).2
          is Normal true then 1 else 0))%Z.
Proof.
  assert (daily_ceiling_invariant Scenario.capped_day) as Hinv.
  { vm_compute. discriminate. }
  split; [exact Hinv|].
  exact (handleEmergency_keeps_daily_ceiling 5000 0 (Some ∅)
           Scenario.capped_day Hinv).
Defined.

Section UrgentIntakeDirect.

Import AllocationEngine.

(** X19. Urgent intake without a reshuffler, as the HTTP layer calls it.  A
    token that is not of the urgent class makes [handleEmergency] throw with
    nothing changed.  For an urgent token the score is recomputed, and then:
    if the day's ceiling is not reached and some slot is unblocked, has
    spare capacity and counts fewer urgent occupants than the per-slot
    ceiling, the token is ALLOCATED to the first such slot, whose
    [emergencyCount] grows by one, and true is returned; otherwise no slot
    changes, the token is QUEUED for this doctor, it is added to the
    doctor's queue, and false is returned. *)
Theorem handleEmergency_without_reshuffler now token w :
  let scored := Token.set_priorityScore (calculatePriority (heap w token))
                  (heap w token) in
  let w' := (handleEmergency now token None w).1 in
  let d := Doctor.id (doctor w) in
  if decide (Token.source (heap w token) = EMERGENCY)
  then
    (¬ dailyQuotaReached (doctor w)
     ∧ (∃ i slot slot',
          slots_of w !! i = Some slot
          ∧ quota_room (doctor w) slot
          ∧ (∀ j s, j < i → slots_of w !! j = Some s → ¬ quota_room (doctor w) s)
          ∧ (handleEmergency now token None w).2 = Normal true
          ∧ heap w' token = mark_allocated now d i scored
          ∧ slots_of w' !! i = Some slot'
          ∧ Slot.allocatedTokenIds slot'
            = Slot.allocatedTokenIds slot ++ [Token.id (heap w token)]
          ∧ Slot.emergencyCount slot' = (Slot.emergencyCount slot + 1)%Z
          ∧ (∀ j, j ≠ i → slots_of w' !! j = slots_of w !! j)
          ∧ queues w' = queues w))
    ∨ ((dailyQuotaReached (doctor w)
        ∨ Forall (λ s, ¬ quota_room (doctor w) s) (slots_of w))
       ∧ (handleEmergency now token None w).2 = Normal false
       ∧ doctor w' = doctor w
       ∧ heap w' token = mark_queued d scored
       ∧ QueueManager.getQueue d w' ≡ₚ token :: QueueManager.getQueue d w)
  else handleEmergency now token None w = (w, Thrown).
Proof.
  cbv zeta. unfold handleEmergency.
  destruct (decide (Token.source (heap w token) = EMERGENCY)) as [Hsrc|Hsrc];
    [|by rewrite decide_True].
  rewrite decide_False by (by intros ?).
  set (w0 := set_heap _ w).
  assert (heap w0 token
          = Token.set_priorityScore (calculatePriority (heap w token)) (heap w token))
    as Hscored.
  { unfold w0, heap_upd. cbn [heap set_heap]. by rewrite decide_True. }
  assert (∀ w1, doctor w1 = doctor w → heap w1 = heap w0 → queues w1 = queues w →
            (queue_emergency token w1).2 = Normal false
            ∧ doctor (queue_emergency token w1).1 = doctor w
            ∧ heap (queue_emergency token w1).1 token
              = mark_queued (Doctor.id (doctor w))
                  (Token.set_priorityScore (calculatePriority (heap w token))
                     (heap w token))
            ∧ QueueManager.getQueue (Doctor.id (doctor w)) (queue_emergency token w1).1
              ≡ₚ token :: QueueManager.getQueue (Doctor.id (doctor w)) w) as Hqueue.
  { intros w1 Hd Hh Hq. unfold queue_emergency. cbn [fst snd]. rewrite Hd.
    split_and!; [done..| |].
    - cbn [heap set_heap QueueManager.enqueue set_queues]. unfold heap_upd.
      by rewrite decide_True, Hh, Hscored.
    - rewrite getQueue_enqueue, splice_in_perm.
      unfold QueueManager.getQueue. cbn [queues set_heap]. by rewrite Hq. }
  change (doctor w0) with (doctor w).
  destruct (decide (dailyQuotaReached (doctor w))) as [Hq|Hq].
  { right. destruct (Hqueue w0) as (? & ? & ? & ?); [done..|]. eauto 10. }
  unfold allocateWithQuotaCheck. change (doctor w0) with (doctor w).
  change (slots_of w0) with (slots_of w).
  destruct (list_find (quota_room (doctor w)) (slots_of w)) as [[i slot]|] eqn:Hfind.
  - left. split; [done|].
    apply list_find_Some in Hfind as (Hi & Hroom & Hfirst).
    exists i, slot,
      (Slot.set_emergencyCount
         (Slot.emergencyCount (place (Token.id (heap w0 token)) slot) + 1)
         (place (Token.id (heap w0 token)) slot)).
    assert (Token.id (heap w0 token) = Token.id (heap w token)) as Hid
      by by rewrite Hscored.
    unfold bump_emergencyCount.
    change (slots_of (set_heap ?h (set_slots ?l ?w1))) with l.
    rewrite list_lookup_insert_eq by by eapply lookup_lt_Some.
    cbn [fst snd].
    change (slots_of (set_slots ?l ?w1)) with l.
    split_and!; try done.
    + intros j s Hj Hs. by apply (Hfirst j s).
    + cbn [heap set_heap set_slots]. unfold heap_upd at 1.
      by rewrite decide_True, Hscored.
    + rewrite list_insert_insert_eq.
      apply list_lookup_insert_eq. by eapply lookup_lt_Some.
    + cbn [Slot.allocatedTokenIds Slot.set_emergencyCount].
      by rewrite place_ids, Hid.
    + cbn [Slot.emergencyCount Slot.set_emergencyCount].
      by rewrite place_emergencyCount.
    + intros j Hj. by rewrite !list_lookup_insert_ne.
  - right. apply list_find_None in Hfind.
    destruct (Hqueue w0) as (? & ? & ? & ?); [done..|]. eauto 10.
Qed.

(** X20. On that path the per-slot urgent ceiling is kept: from a state in
    which every slot counts at most the ceiling (the configured value, or 1)
    [handleEmergency] without a reshuffler ends in such a state. *)
Theorem handleEmergency_without_reshuffler_keeps_slot_ceiling now token w :
  ceiling_invariant w → ceiling_invariant (handleEmergency now token None w).1.
Proof. apply handleEmergency_direct_keeps_ceiling. Qed.

Lemma handleEmergency_without_reshuffler_keeps_slot_ceiling_witness :
  ceiling_invariant Scenario.capped_day
  ∧ ceiling_invariant (handleEmergency 5000 0 None Scenario.capped_day).1.
Proof.
  assert (ceiling_invariant Scenario.capped_day) as Hinv.
  { repeat constructor; vm_compute; discriminate. }
  split; [exact Hinv|].
  exact (handleEmergency_without_reshuffler_keeps_slot_ceiling 5000 0
           Scenario.capped_day Hinv).
Defined.

End UrgentIntakeDirect.

(** ** Provider delay: which slots are blocked *)

Section DelayBlocking.

Lemma block_affected_chronological delayEndTime ss : ∀ i first,
  chronological ss →
  (block_affected delayEndTime i first ss).1
  = (λ s, if decide (date_lt (Some (Slot.startTime s)) delayEndTime)
          then Slot.set_status BLOCKED s else s) <$> ss.
Proof.
  induction ss as [|slot ss IH]; intros i first Hchron; [done|].
  apply StronglySorted_inv in Hchron as [Hchron Hall].
  cbn [block_affected fmap list_fmap].
  destruct (decide (date_lt (Some (Slot.startTime slot)) delayEndTime))
    as [Hlt|Hge].
  - specialize (IH (S i) (match first with None => Some i | Some _ => first end)
                  Hchron).
    destruct (block_affected _ _ _ ss) as [rest' f]. cbn [fst] in *.
    by rewrite IH.
  - cbn [fst]. f_equal.
    clear IH Hchron. induction Hall as [|s ss Hs Hall IH]; [done|].
    cbn [fmap list_fmap]. rewrite decide_False; [by rewrite <- IH|].
    destruct delayEndTime as [t|]; cbn [date_lt] in *; [lia|done].
Qed.

(** X21. A delay blocks the slots that start before now + delay and no
    others, as long as now + delay is a valid Date: for slots in
    chronological order, a slot is blocked after [handleDoctorDelay] iff it
    was blocked before or the Date built from now + delay is valid and the
    slot starts strictly before it.  A delay that takes now + delay out of
    the range of Date blocks nothing.  The reallocation that follows neither
    blocks nor unblocks a slot. *)
Theorem handleDoctorDelay_blocks_the_delayed_slots now delayMinutes tokens w :
  chronological (slots_of w) →
  is_blocked <$> slots_of (handleDoctorDelay now delayMinutes tokens w).1
  = (λ s, is_blocked s
          || bool_decide (date_lt (Some (Slot.startTime s))
                            (TimeClip (now + delayMinutes * 60000))))
      <$> slots_of w.
Proof.
  intros Hchron. unfold handleDoctorDelay.
  pose proof (block_affected_chronological
                (TimeClip (now + delayMinutes * 60000))
                (slots_of w) 0 None Hchron) as Hblock.
  destruct (block_affected _ _ _ _) as [ss first]. cbn [fst] in Hblock.
  assert (is_blocked <$> ss
          = (λ s, is_blocked s
                  || bool_decide (date_lt (Some (Slot.startTime s))
                                    (TimeClip (now + delayMinutes * 60000))))
              <$> slots_of w) as Hflags.
  { rewrite Hblock, <- list_fmap_compose. apply list_fmap_ext.
    intros _ s _. unfold compose.
    destruct (decide (date_lt (Some (Slot.startTime s))
                        (TimeClip (now + delayMinutes * 60000)))) as [Hd|Hd].
    - rewrite (bool_decide_eq_true_2 _ Hd), orb_true_r. done.
    - by rewrite (bool_decide_eq_false_2 _ Hd), orb_false_r. }
  destruct first as [i|]; [|done].
  by rewrite reallocate_is_blocked.
Qed.

Lemma handleDoctorDelay_blocks_the_delayed_slots_witness :
  chronological (slots_of Sample.late_booking)
  ∧ is_blocked
      <$> slots_of (handleDoctorDelay 0 1 (Sample.token_map Sample.late_booking 1)
                      Sample.late_booking).1
    = (λ s, is_blocked s
            || bool_decide (date_lt (Some (Slot.startTime s))
                              (TimeClip (0 + 1 * 60000))))
        <$> slots_of Sample.late_booking.
Proof.
  assert (chronological (slots_of Sample.late_booking)) as Hchron.
  { repeat constructor. vm_compute. discriminate. }
  split; [exact Hchron|].
  exact (handleDoctorDelay_blocks_the_delayed_slots 0 1
           (Sample.token_map Sample.late_booking 1) Sample.late_booking Hchron).
Defined.

End DelayBlocking.

(** ** The slot grid *)

Section SlotGrid.

Import SlotGenerator.

Lemma TimeClip_valid t :
  (- MAX_TIME ≤ t ≤ MAX_TIME)%Z → TimeClip t = Some t.
Proof. intros Ht. unfold TimeClip. by rewrite decide_True. Qed.

Lemma TimeClip_invalid t :
  (t < - MAX_TIME ∨ MAX_TIME < t)%Z → TimeClip t = None.
Proof. intros Ht. unfold TimeClip. rewrite decide_False; [done|lia]. Qed.

Lemma grid_cons start len capacity n :
  (0 < n)%Z →
  grid start len capacity n
  = fresh_slot start (start + len) capacity
    :: grid (start + len) len capacity (n - 1).
Proof.
  intros Hn. unfold grid. rewrite seqZ_cons by done. rewrite fmap_cons.
  f_equal; [unfold fresh_slot; f_equal; lia|].
  replace (Z.succ 0) with (1 + 0)%Z by lia.
  rewrite <- fmap_add_seqZ, <- list_fmap_compose.
  replace (Z.pred n) with (n - 1)%Z by lia.
  apply list_fmap_ext. intros _ i _. simpl. unfold fresh_slot. f_equal; lia.
Qed.

Lemma generateSlots_loop_grid scheduleEnd d capacity fuel : ∀ cur acc,
  (0 < d)%Z →
  (- MAX_TIME ≤ cur)%Z →
  (scheduleEnd + d * 60000 ≤ MAX_TIME)%Z →
  Z.to_nat ((scheduleEnd - cur) `div` (d * 60000)) < fuel →
  generateSlots_loop fuel (TimeClip scheduleEnd) d capacity (TimeClip cur) acc
  = Some (acc ++ (built_of <$> grid cur (d * 60000) capacity
                                 ((scheduleEnd - cur) `div` (d * 60000)))).
Proof.
  induction fuel as [|fuel IH]; intros cur acc Hd Hlo Hhi Hfuel; [lia|].
  assert (∀ x y, (x ≤ y)%Z → ((x - y) `div` (d * 60000) ≤ 0)%Z) as Hneg.
  { intros x y Hxy. apply Z.div_le_upper_bound; lia. }
  assert (∀ n, (n ≤ 0)%Z → grid cur (d * 60000) capacity n = []) as Hnil.
  { intros n Hn. unfold grid, seqZ. by replace (Z.to_nat n) with 0 by lia. }
  cbn [generateSlots_loop].
  destruct (TimeClip_cases cur) as [Hcur|Hcur]; rewrite Hcur.
  { assert (MAX_TIME < cur)%Z as Hbig.
    { unfold TimeClip in Hcur. case_decide; [done|lia]. }
    rewrite Hnil by (apply Hneg; lia). by rewrite app_nil_r. }
  assert (cur ≤ MAX_TIME)%Z as Hcur_hi.
  { unfold TimeClip in Hcur. case_decide; [lia|done]. }
  destruct (TimeClip_cases scheduleEnd) as [Hend|Hend]; rewrite Hend.
  { assert (scheduleEnd < - MAX_TIME)%Z as Hlow.
    { unfold TimeClip in Hend. case_decide; [done|]. unfold MAX_TIME in *. lia. }
    rewrite decide_False by (intros []).
    rewrite Hnil by (apply Hneg; lia). by rewrite app_nil_r. }
  cbn [date_lt setMinutes].
  destruct (decide (cur < scheduleEnd)%Z) as [Hlt|Hge].
  - rewrite (TimeClip_valid (cur + d * 60000)) by lia. cbn [date_lt].
    destruct (decide (scheduleEnd < cur + d * 60000)%Z) as [Hfit|Hfit].
    + rewrite Z.div_small by lia. unfold grid. by rewrite app_nil_r.
    + assert ((scheduleEnd - (cur + d * 60000)) `div` (d * 60000)
              = (scheduleEnd - cur) `div` (d * 60000) - 1)%Z as Hdiv.
      { replace (scheduleEnd - (cur + d * 60000))%Z
          with ((scheduleEnd - cur) + (-1) * (d * 60000))%Z by lia.
        rewrite Z.div_add by lia. lia. }
      assert (1 ≤ (scheduleEnd - cur) `div` (d * 60000))%Z as Hpos.
      { apply Z.div_le_lower_bound; lia. }
      rewrite <- (TimeClip_valid (cur + d * 60000)) by lia.
      rewrite <- Hend.
      rewrite IH by (rewrite ?Hdiv; lia).
      rewrite (grid_cons cur) by lia.
      rewrite (TimeClip_valid (cur + d * 60000)) by lia.
      rewrite fmap_cons, Hdiv, <- app_assoc. reflexivity.
  - rewrite Hnil by (apply Hneg; lia). by rewrite app_nil_r.
Qed.

(** X22. For a positive whole slot duration, a schedule start within the
    range of Date and a schedule end that lies at least one slot length
    before the end of that range, [generateSlots] exits and returns the grid
    of back-to-back slots from the schedule start: as many whole slots as
    fit before the schedule end (none when the start is not before the end),
    each with a valid end, of the configured capacity, empty, AVAILABLE,
    with urgent count 0, in chronological order, none reaching past the
    schedule end. *)
Theorem generateSlots_builds_the_grid fuel midnight startHour startMinute
    endHour endMinute slotDurationMinutes slotCapacity :
  (0 < slotDurationMinutes)%Z →
  let start := at_time midnight startHour startMinute in
  let stop := at_time midnight endHour endMinute in
  let len := (slotDurationMinutes * 60000)%Z in
  let n := ((stop - start) `div` len)%Z in
  (- MAX_TIME ≤ start)%Z →
  (stop + len ≤ MAX_TIME)%Z →
  Z.to_nat n < fuel →
  generateSlots fuel midnight startHour startMinute endHour endMinute
    slotDurationMinutes slotCapacity
  = Some (built_of <$> grid start len slotCapacity n)
  ∧ length (grid start len slotCapacity n) = Z.to_nat n
  ∧ chronological (grid start len slotCapacity n)
  ∧ Forall (λ s, (start ≤ Slot.startTime s)%Z
                 ∧ Slot.endTime s = (Slot.startTime s + len)%Z
                 ∧ (Slot.endTime s ≤ stop)%Z
                 ∧ Slot.capacity s = slotCapacity
                 ∧ Slot.allocatedTokenIds s = []
                 ∧ Slot.status s = AVAILABLE
                 ∧ Slot.emergencyCount s = 0%Z)
      (grid start len slotCapacity n).
Proof.
  intros Hd start stop len n Hlo Hhi Hfuel. split_and!.
  - unfold generateSlots, setHours. fold start stop.
    by rewrite generateSlots_loop_grid by done.
  - unfold grid. by rewrite length_fmap, length_seqZ.
  - unfold grid, chronological.
    apply (StronglySorted_fmap _ Z.le).
    + intros x y Hxy. simpl. unfold len. nia.
    + unfold seqZ. apply (StronglySorted_fmap _ le); [intros; lia|].
      clear. generalize 0. induction (Z.to_nat n) as [|k IH]; intros m; simpl;
        constructor; [apply IH|].
      apply Forall_forall. intros x Hx. apply elem_of_seq in Hx. lia.
  - apply Forall_forall. intros s Hs. unfold grid in Hs.
    apply list_elem_of_fmap in Hs as (i & -> & Hi).
    apply elem_of_seqZ in Hi. simpl.
    assert (len * n ≤ stop - start)%Z as Hfit.
    { unfold n. apply Z.mul_div_le. unfold len. lia. }
    unfold len in *. split_and!; try done; nia.
Qed.

Lemma generateSlots_builds_the_grid_witness :
  (0 < 30)%Z
  ∧ (- MAX_TIME ≤ SlotGenerator.at_time 0 9 0)%Z
  ∧ (SlotGenerator.at_time 0 10 0 + 30 * 60000 ≤ MAX_TIME)%Z
  ∧ Z.to_nat ((SlotGenerator.at_time 0 10 0 - SlotGenerator.at_time 0 9 0)
              `div` (30 * 60000)) < 5
  ∧ SlotGenerator.generateSlots 5 0 9 0 10 0 30 3
    = Some (built_of
              <$> grid (SlotGenerator.at_time 0 9 0) (30 * 60000) 3
                    ((SlotGenerator.at_time 0 10 0 - SlotGenerator.at_time 0 9 0)
                     `div` (30 * 60000))).
Proof.
  split; [lia|]. split; [vm_compute; discriminate|].
  split; [vm_compute; discriminate|]. split; [vm_compute; lia|].
  apply (generateSlots_builds_the_grid 5 0 9 0 10 0 30 3);
    [lia|vm_compute; discriminate|vm_compute; discriminate|vm_compute; lia].
Defined.

Lemma generateSlots_loop_runs_on scheduleEnd d capacity fuel : ∀ cur acc,
  (d ≤ 0)%Z →
  (cur < scheduleEnd)%Z → (scheduleEnd ≤ MAX_TIME)%Z →
  (- MAX_TIME ≤ cur + Z.of_nat fuel * (d * 60000))%Z →
  generateSlots_loop fuel (Some scheduleEnd) d capacity (Some cur) acc = None.
Proof.
  induction fuel as [|fuel IH]; intros cur acc Hd Hlt Hhi Hlo; [done|].
  cbn [generateSlots_loop date_lt setMinutes].
  rewrite decide_True by done.
  rewrite (TimeClip_valid (cur + d * 60000)) by nia.
  cbn [date_lt]. rewrite decide_False by nia.
  apply IH; [done|nia|done|nia].
Qed.

(** X23. A slot duration of zero or less keeps the loop of [generateSlots]
    running for as long as the Dates stay within range.  For a schedule
    that starts before it ends, both within the range of Date, the loop has
    not exited after [k] iterations whenever the schedule start moved [k]
    times by the duration is still a valid Date: for the duration 0 it never
    exits, for a negative duration it runs until [currentSlotStart] falls
    below the first valid time value, adding a slot at every iteration. *)
Theorem generateSlots_runs_on_for_nonpositive_duration k midnight startHour
    startMinute endHour endMinute slotDurationMinutes slotCapacity :
  (slotDurationMinutes ≤ 0)%Z →
  (at_time midnight startHour startMinute < at_time midnight endHour endMinute)%Z →
  (at_time midnight endHour endMinute ≤ MAX_TIME)%Z →
  (- MAX_TIME ≤ at_time midnight startHour startMinute
               + Z.of_nat k * (slotDurationMinutes * 60000))%Z →
  generateSlots k midnight startHour startMinute endHour endMinute
    slotDurationMinutes slotCapacity = None.
Proof.
  intros Hd Hlt Hhi Hlo. unfold generateSlots, setHours.
  rewrite !TimeClip_valid by nia.
  by apply generateSlots_loop_runs_on.
Qed.

Lemma generateSlots_runs_on_for_nonpositive_duration_witness :
  (-30 ≤ 0)%Z
  ∧ (SlotGenerator.at_time 0 9 0 < SlotGenerator.at_time 0 10 0)%Z
  ∧ SlotGenerator.generateSlots 1000 0 9 0 10 0 (-30) 3 = None.
Proof.
  split; [lia|]. split; [vm_compute; reflexivity|].
  apply (generateSlots_runs_on_for_nonpositive_duration 1000 0 9 0 10 0 (-30) 3);
    [lia|vm_compute; reflexivity|vm_compute; discriminate|vm_compute; discriminate].
Defined.

(** X29. A slot duration so long that the end of the first slot falls
    beyond the range of Date: for a schedule that starts before it ends,
    both within range, [generateSlots] returns exactly one slot, starting at
    the schedule start, whose [endTime] is an invalid Date.  The invalid
    [slotEnd] does not compare above [scheduleEnd], so the slot is added;
    [currentSlotStart] then becomes invalid as well and the loop exits. *)
Theorem generateSlots_overlong_duration fuel midnight startHour startMinute
    endHour endMinute slotDurationMinutes slotCapacity :
  (- MAX_TIME ≤ at_time midnight startHour startMinute)%Z →
  (at_time midnight startHour startMinute < at_time midnight endHour endMinute)%Z →
  (at_time midnight endHour endMinute ≤ MAX_TIME)%Z →
  (MAX_TIME < at_time midnight startHour startMinute
              + slotDurationMinutes * 60000)%Z →
  generateSlots (S (S fuel)) midnight startHour startMinute endHour endMinute
    slotDurationMinutes slotCapacity
  = Some [mkBuilt (at_time midnight startHour startMinute) None slotCapacity
            [] AVAILABLE 0].
Proof.
  intros Hlo Hlt Hhi Hlong. unfold generateSlots, setHours.
  rewrite !TimeClip_valid by lia.
  cbn [generateSlots_loop date_lt setMinutes].
  rewrite decide_True by done.
  rewrite TimeClip_invalid by lia.
  cbn [date_lt]. by rewrite decide_False by (intros []).
Qed.

Lemma generateSlots_overlong_duration_witness :
  SlotGenerator.generateSlots 2 0 9 0 17 0 144000000000 3
  = Some [mkBuilt (SlotGenerator.at_time 0 9 0) None 3 [] AVAILABLE 0].
Proof.
  apply (generateSlots_overlong_duration 0 0 9 0 17 0 144000000000 3);
    vm_compute; first [discriminate|reflexivity].
Defined.

End SlotGrid.

(** ** Scores in double precision *)

Section ScoreOrder.

Lemma Qabs_bound (x y : Q) : (- y <= x)%Q → (x <= y)%Q → (Qabs x <= y)%Q.
Proof. intros. by apply Qabs_Qle_condition. Qed.

Lemma Qabs_bound_inv (x y : Q) : (Qabs x <= y)%Q → (- y <= x)%Q ∧ (x <= y)%Q.
Proof. intros H. by apply Qabs_Qle_condition in H. Qed.

Lemma tiebreaker_bound t :
  (Z.abs t ≤ 10 ^ 15)%Z →
  (- (1000000 # 1) <= - inject_Z t / 1000000000)%Q
  ∧ (- inject_Z t / 1000000000 <= 1000000 # 1)%Q.
Proof.
  intros Ht.
  assert (inject_Z (- 10 ^ 15) <= inject_Z t)%Q as Hlo
    by (rewrite <- Zle_Qle; lia).
  assert (inject_Z t <= inject_Z (10 ^ 15))%Q as Hhi
    by (rewrite <- Zle_Qle; lia).
  change (inject_Z (- 10 ^ 15)) with (- (1000000000000000 # 1))%Q in Hlo.
  change (inject_Z (10 ^ 15)) with (1000000000000000 # 1)%Q in Hhi.
  unfold Qdiv. change (/ 1000000000)%Q with (1 # 1000000000)%Q.
  split; lra.
Qed.

Lemma basePriority_bound s :
  (0 <= inject_Z (basePriority s))%Q ∧ (inject_Z (basePriority s) <= 1000 # 1)%Q.
Proof. destruct s; split; by vm_compute. Qed.

(** The double the code returns is within 2.3e-10 of the exact score, for
    request times up to 10^15 ms either side of the epoch. *)
Lemma calculatePriority_double_error fl k :
  rounds_to_double fl →
  (Z.abs (Token.requestedAt k) ≤ 10 ^ 15)%Z →
  (- (23 # 100000000000) <= calculatePriority_double fl k - calculatePriority k)%Q
  ∧ (calculatePriority_double fl k - calculatePriority k <= 23 # 100000000000)%Q.
Proof.
  intros Hfl Ht. unfold calculatePriority_double, calculatePriority. cbv zeta.
  destruct (tiebreaker_bound _ Ht) as [Hxlo Hxhi].
  destruct (basePriority_bound (Token.source k)) as [Hblo Hbhi].
  remember (- inject_Z (Token.requestedAt k) / 1000000000)%Q as x eqn:Hx.
  remember (inject_Z (basePriority (Token.source k))) as b eqn:Hb.
  clear Hx Hb Ht.
  assert (0 <= 1 # (2 ^ 1075)%positive)%Q as Heps0 by (by vm_compute).
  assert (1 # (2 ^ 1075)%positive <= 1 # 100000000000000000000)%Q as Heps1
    by (by vm_compute).
  assert (Qabs x <= 1000000 # 1)%Q as Hax by (by apply Qabs_bound).
  unfold rounds_to_double in Hfl.
  change (inject_Z (2 ^ 53)) with (9007199254740992 # 1)%Q in Hfl.
  change (2 ^ 53)%positive with 9007199254740992%positive in Hfl.
  remember (1 # (2 ^ 1075)%positive)%Q as eps eqn:Heps. clear Heps.
  pose proof (Hfl x) as H1.
  pose proof (Qabs_nonneg x) as Hax0.
  apply Qabs_bound_inv in H1 as [H1lo H1hi]; [|lra].
  remember (fl x) as q eqn:Hq. clear Hq.
  assert (Qabs (b + q) <= 1001001 # 1)%Q as Hay by (apply Qabs_bound; lra).
  pose proof (Hfl (b + q)%Q) as H2.
  pose proof (Qabs_nonneg (b + q)) as Hay0.
  apply Qabs_bound_inv in H2 as [H2lo H2hi]; [|lra].
  remember (fl (b + q)%Q) as r eqn:Hr. clear Hr.
  split; lra.
Qed.

(** The order of the two scores of C4 is the same in double precision: the
    exact scores are 26 apart. *)
Lemma online_2024_below_walkin_2020_in_doubles fl :
  rounds_to_double fl →
  (calculatePriority_double fl Sample.online_2024
   < calculatePriority_double fl Sample.walkin_2020)%Q.
Proof.
  intros Hfl.
  destruct (calculatePriority_double_error fl Sample.online_2024 Hfl)
    as [_ Hhi]; [vm_compute; discriminate|].
  destruct (calculatePriority_double_error fl Sample.walkin_2020 Hfl)
    as [Hlo _]; [vm_compute; discriminate|].
  assert (calculatePriority Sample.online_2024 + 26
          <= calculatePriority Sample.walkin_2020)%Q as Hgap by (by vm_compute).
  lra.
Qed.

Lemma inject_Z_lt_step a b :
  (a < b)%Z → (inject_Z a + 1 <= inject_Z b)%Q.
Proof.
  intros Hlt. change (inject_Z a + 1)%Q with (inject_Z a + inject_Z 1)%Q.
  rewrite <- (inject_Z_plus a 1). rewrite <- Zle_Qle. lia.
Qed.

Lemma identity_rounds_to_double : rounds_to_double (λ x, x).
Proof.
  intros x _.
  assert (x - x == 0)%Q as -> by ring.
  pose proof (Qabs_nonneg x).
  assert (0 <= 1 # (2 ^ 1075)%positive)%Q by (by vm_compute).
  change (Qabs 0) with 0%Q.
  change (2 ^ 53)%positive with 9007199254740992%positive.
  remember (1 # (2 ^ 1075)%positive)%Q as eps. lra.
Qed.

(** X24. Within one class the order of the scores the code computes is the
    order of arrival, reversed, for request times up to 10^15 ms either side
    of the epoch: of two tokens of the same source the one requested earlier
    scores strictly higher in double precision, and equal request times give
    equal scores.  (At larger time values a step of a millisecond falls
    below the spacing of the doubles and scores tie.) *)
Theorem calculatePriority_is_fifo_within_class fl ka kb :
  rounds_to_double fl →
  Token.source ka = Token.source kb →
  (Z.abs (Token.requestedAt ka) ≤ 10 ^ 15)%Z →
  (Z.abs (Token.requestedAt kb) ≤ 10 ^ 15)%Z →
  ((calculatePriority_double fl kb < calculatePriority_double fl ka)%Q
   ↔ (Token.requestedAt ka < Token.requestedAt kb)%Z)
  ∧ (Token.requestedAt ka = Token.requestedAt kb →
     calculatePriority_double fl ka = calculatePriority_double fl kb).
Proof.
  intros Hfl Hsrc Hta Htb.
  assert (∀ k1 k2,
            Token.source k1 = Token.source k2 →
            (Z.abs (Token.requestedAt k1) ≤ 10 ^ 15)%Z →
            (Z.abs (Token.requestedAt k2) ≤ 10 ^ 15)%Z →
            (Token.requestedAt k1 < Token.requestedAt k2)%Z →
            (calculatePriority_double fl k2 < calculatePriority_double fl k1)%Q)
    as Hstrict.
  { intros k1 k2 Hs H1 H2 Hlt.
    destruct (calculatePriority_double_error fl k1 Hfl H1) as [Hlo1 Hhi1].
    destruct (calculatePriority_double_error fl k2 Hfl H2) as [Hlo2 Hhi2].
    apply inject_Z_lt_step in Hlt.
    unfold calculatePriority in *. cbv zeta in *. rewrite Hs in *.
    unfold Qdiv in *. change (/ 1000000000)%Q with (1 # 1000000000)%Q in *.
    lra. }
  assert (Token.requestedAt ka = Token.requestedAt kb →
          calculatePriority_double fl ka = calculatePriority_double fl kb) as Heq.
  { intros Hat. unfold calculatePriority_double. by rewrite Hsrc, Hat. }
  split; [|exact Heq]. split.
  - intros Hlt.
    destruct (Z.lt_trichotomy (Token.requestedAt ka) (Token.requestedAt kb))
      as [Hab|[Hab|Hab]]; [done| |].
    + rewrite (Heq Hab) in Hlt. by apply Qlt_irrefl in Hlt.
    + pose proof (Hstrict kb ka (eq_sym Hsrc) Htb Hta Hab). lra.
  - by apply Hstrict.
Qed.

Lemma calculatePriority_is_fifo_within_class_witness :
  (calculatePriority_double (λ x, x) (heap Sample.two_urgent 1%nat)
   < calculatePriority_double (λ x, x) (heap Sample.two_urgent 0%nat))%Q
  ↔ (Token.requestedAt (heap Sample.two_urgent 0%nat)
     < Token.requestedAt (heap Sample.two_urgent 1%nat))%Z.
Proof.
  apply (calculatePriority_is_fifo_within_class (λ x, x)
           (heap Sample.two_urgent 0%nat) (heap Sample.two_urgent 1%nat)).
  - exact identity_rounds_to_double.
  - reflexivity.
  - vm_compute. discriminate.
  - vm_compute. discriminate.
Defined.

(** X25. In double precision, for request times up to 10^15 ms either side
    of the epoch, an urgent token outranks every token of another class
    that was requested less than 5 * 10^11 ms (some 15.8 years) before it,
    and in particular every one requested at the same time or later. *)
Theorem emergency_outranks_within_horizon fl ke k :
  rounds_to_double fl →
  Token.source ke = EMERGENCY →
  Token.source k ≠ EMERGENCY →
  (Z.abs (Token.requestedAt ke) ≤ 10 ^ 15)%Z →
  (Z.abs (Token.requestedAt k) ≤ 10 ^ 15)%Z →
  (Token.requestedAt ke - Token.requestedAt k < 500000000000)%Z →
  (calculatePriority_double fl k < calculatePriority_double fl ke)%Q.
Proof.
  intros Hfl He Hk Hte Htk Hwithin.
  destruct (calculatePriority_double_error fl ke Hfl Hte) as [Hlo1 Hhi1].
  destruct (calculatePriority_double_error fl k Hfl Htk) as [Hlo2 Hhi2].
  assert (inject_Z (Token.requestedAt ke) + 1
          <= inject_Z (Token.requestedAt k) + (500000000000 # 1))%Q as Hgap.
  { change (500000000000 # 1)%Q with (inject_Z 500000000000).
    rewrite <- (inject_Z_plus _ 500000000000).
    apply inject_Z_lt_step. lia. }
  assert (inject_Z (basePriority (Token.source k)) <= 500 # 1)%Q as Hbase.
  { destruct (Token.source k); try done; by vm_compute. }
  unfold calculatePriority in *. cbv zeta in *. rewrite He in *.
  change (inject_Z (basePriority EMERGENCY)) with (1000 # 1)%Q in *.
  unfold Qdiv in *. change (/ 1000000000)%Q with (1 # 1000000000)%Q in *.
  lra.
Qed.

Lemma emergency_outranks_within_horizon_witness :
  (calculatePriority_double (λ x, x) (heap Sample.untagged_full 0%nat)
   < calculatePriority_double (λ x, x) (heap Sample.untagged_full 1%nat))%Q.
Proof.
  apply (emergency_outranks_within_horizon (λ x, x)
           (heap Sample.untagged_full 1%nat) (heap Sample.untagged_full 0%nat)).
  - exact identity_rounds_to_double.
  - reflexivity.
  - discriminate.
  - vm_compute. discriminate.
  - vm_compute. discriminate.
  - vm_compute. reflexivity.
Defined.

End ScoreOrder.

(** ** A cancellation hands the freed place to the queue *)

Section FreedPlace.

Import AllocationEngine.

Lemma unplace_has_room tokenId s :
  tokenId ∈ Slot.allocatedTokenIds s →
  within_capacity s → Slot.status s ≠ BLOCKED →
  has_room (unplace tokenId s).
Proof.
  unfold within_capacity, has_room, unplace, Slot.occupancy.
  destruct s as [start stop cap ids st urgent]. simpl.
  intros Hin Hcap Hst.
  destruct (indexOf tokenId ids) as [index|] eqn:Hidx.
  - pose proof (indexOf_Some _ _ _ Hidx) as Hlook.
    assert (length (delete index ids) = length ids - 1) as Hlen.
    { apply length_delete. eauto. }
    pose proof (lookup_lt_Some _ _ _ Hlook) as Hlt.
    case_decide as Hfull; simpl in *.
    + split; [done|]. lia.
    + split; [|lia]. destruct st; try done.
      exfalso. apply Hfull. split; [done|]. lia.
  - exfalso. unfold indexOf in Hidx.
    destruct (list_find _ ids) as [[j y]|] eqn:Hfind; [done|].
    apply list_find_None in Hfind.
    apply (proj1 (Forall_forall _ _) Hfind tokenId Hin). done.
Qed.

Lemma allocateFromQueue_loop_step fuel now d allocated w r rest :
  QueueManager.getQueue d w = r :: rest →
  allocateFromQueue_loop (S fuel) now d allocated w
  = let w1 := set_queues (<[d := rest]> (queues w)) w in
    match allocateToken now r w1 with
    | (w2, None) => Some (QueueManager.enqueue d r w2, allocated)
    | (w2, Some _) => allocateFromQueue_loop fuel now d (S allocated) w2
    end.
Proof.
  intros Hq. cbn [allocateFromQueue_loop].
  destruct (dequeue_cases d w) as [[Hempty _]|(r0 & rest0 & Hq0 & ->)];
    [congruence|].
  rewrite Hq in Hq0. by injection Hq0 as <- <-.
Qed.

(** X26. A cancellation hands the freed place to the queue.  In a state
    within capacity, when an ALLOCATED token that occupies an unblocked slot
    is cancelled while the doctor's queue is not empty, the call completes
    and the head of the queue ends ALLOCATED; if no slot had room before and
    the head is queued once, it ends in the very slot that was freed. *)
Theorem handleCancellation_hands_place_to_queue_head now token w d i slot r rest :
  capacity_invariant w →
  Token.status (heap w token) = ALLOCATED →
  Token.doctorId (heap w token) = Some d → d ≠ ""%string →
  Token.slotIndex (heap w token) = Some i →
  slots_of w !! i = Some slot →
  Token.id (heap w token) ∈ Slot.allocatedTokenIds slot →
  Slot.status slot ≠ BLOCKED →
  QueueManager.getQueue (Doctor.id (doctor w)) w = r :: rest →
  (handleCancellation now token w).2 = Normal ()
  ∧ placed (heap (handleCancellation now token w).1 r)
  ∧ (Forall (λ s, ¬ has_room s) (slots_of w) → r ∉ rest →
     Token.slotIndex (heap (handleCancellation now token w).1 r) = Some i).
Proof.
  intros Hinv Hst Hdoc Hd Hidx Hslot Hocc Hblocked Hq.
  unfold handleCancellation.
  rewrite decide_False by (intros Hne; by apply Hne).
  rewrite decide_False
    by (unfold missing_allocation_info; intros [?|[?|?]]; congruence).
  destruct (freeTokenFromSlot_cases token w)
    as [[Hnone _]|[(j & Hj & Hlen & _)|(j & slot0 & Hj & Hslot0 & ->)]].
  { congruence. }
  { rewrite Hidx in Hj. injection Hj as <-. apply lookup_lt_Some in Hslot. lia. }
  rewrite Hidx in Hj. injection Hj as <-.
  rewrite Hslot in Hslot0. injection Hslot0 as <-.
  remember (Doctor.id (doctor w)) as dd eqn:Hdd.
  remember (set_heap (heap_upd token (mark_cancelled now)
              (heap (set_heap (heap_upd token clear_allocation (heap w))
                 (set_slots (<[i:=unplace (Token.id (heap w token)) slot]>
                               (slots_of w)) w))))
              (set_heap (heap_upd token clear_allocation (heap w))
                 (set_slots (<[i:=unplace (Token.id (heap w token)) slot]>
                               (slots_of w)) w))) as w2 eqn:Hw2.
  assert (Doctor.id (doctor w2) = dd) as Hid by (by rewrite Hw2, Hdd).
  assert (QueueManager.getQueue dd w2 = r :: rest) as Hq2
    by (by rewrite Hw2, <- Hq).
  assert (slots_of w2 = <[i:=unplace (Token.id (heap w token)) slot]> (slots_of w))
    as Hslots2 by (by rewrite Hw2).
  cbv zeta. rewrite Hid.
  destruct (allocateFromQueue_spec now dd w2) as (w' & n & Hrun & Hloop & _).
  rewrite Hrun. cbn [fst snd]. split; [done|].
  rewrite (allocateFromQueue_loop_step _ _ _ _ _ _ _ Hq2) in Hloop.
  rewrite Hq2 in Hloop. cbn [length] in Hloop. cbv zeta in Hloop.
  remember (set_queues (<[dd:=rest]> (queues w2)) w2) as w3 eqn:Hw3.
  assert (slots_of w3 = slots_of w2) as Hslots3 by (by rewrite Hw3).
  assert (QueueManager.getQueue dd w3 = rest) as Hq3.
  { rewrite Hw3. unfold QueueManager.getQueue. simpl. by rewrite lookup_insert_eq. }
  assert (has_room (unplace (Token.id (heap w token)) slot)) as Hroom.
  { apply unplace_has_room; [done| |done].
    eapply (proj1 (Forall_lookup _ _)); [exact Hinv|exact Hslot]. }
  pose proof (allocateToken_placed now r w3) as Hplaced.
  pose proof (allocateToken_queues now r w3) as Hqueues.
  destruct (allocateToken_cases now r w3)
    as [[Hfull _]|(k & slotk & Hk & Hroomk & Halloc)].
  { exfalso. rewrite Hslots3, Hslots2 in Hfull.
    eapply (proj1 (Forall_lookup _ _) Hfull i); [|exact Hroom].
    apply list_lookup_insert_eq. by eapply lookup_lt_Some. }
  rewrite Halloc in Hloop, Hplaced, Hqueues. cbn [fst snd] in Hloop, Hplaced, Hqueues.
  remember (set_heap
              (heap_upd r (mark_allocated now (Doctor.id (doctor w3)) k) (heap w3))
              (set_slots (<[k:=place (Token.id (heap w3 r)) slotk]> (slots_of w3)) w3))
    as w4 eqn:Hw4.
  assert (QueueManager.getQueue dd w4 = rest) as Hq4.
  { unfold QueueManager.getQueue. rewrite Hqueues. exact Hq3. }
  destruct (allocateFromQueue_loop_spec now dd (S (length rest)) 1 w4)
    as (w'' & n' & Hloop' & Hdrained); [rewrite Hq4; lia|].
  rewrite Hloop' in Hloop. injection Hloop as <- _.
  destruct Hdrained as (_ & _ & Hkeep & _).
  split; [apply Hkeep; by apply (Hplaced k)|].
  intros Hfull Hfresh.
  destruct (allocateFromQueue_loop_frame _ _ _ _ _ _ Hloop') as [Hheap _].
  cbn [fst] in Hheap. rewrite Hheap by (by rewrite Hq4).
  assert (k = i) as ->.
  { destruct (decide (k = i)) as [|Hne]; [done|exfalso].
    rewrite Hslots3, Hslots2, list_lookup_insert_ne in Hk by done.
    by apply (proj1 (Forall_lookup _ _) Hfull k slotk Hk). }
  rewrite Hw4. unfold heap_upd. simpl. by rewrite decide_True.
Qed.

Lemma handleCancellation_hands_place_to_queue_head_witness :
  placed (heap (handleCancellation 5000 0 Sample.booked_out).1 1)
  ∧ Token.slotIndex (heap (handleCancellation 5000 0 Sample.booked_out).1 1)
    = Some 0.
Proof.
  assert (Forall (λ s, ¬ has_room s) (slots_of Sample.booked_out)) as Hfull.
  { repeat constructor. vm_compute. intros [_ Hlt]. discriminate. }
  assert ((1 : tref) ∉ ([] : list tref)) as Hfresh by apply not_elem_of_nil.
  destruct (handleCancellation_hands_place_to_queue_head 5000 0 Sample.booked_out
              "DOC1" 0 (Sample.slot 0 1 ["A"%string] FULL 0) 1 [])
    as (_ & Hplaced & Hslot).
  - repeat constructor. vm_compute. discriminate.
  - reflexivity.
  - reflexivity.
  - discriminate.
  - reflexivity.
  - reflexivity.
  - apply list_elem_of_here.
  - discriminate.
  - reflexivity.
  - split; [exact Hplaced|exact (Hslot Hfull Hfresh)].
Defined.

End FreedPlace.

(** ** The request and cancel handlers *)

Section RouteProperties.

Import QueueManager AllocationEngine.








Lemma filter_Forall_id {A} (P : A → Prop) `{∀ x, Decision (P x)} (l : list A) :
  Forall P l → filter P l = l.
Proof.
  induction 1 as [|x l Hx Hl IH]; [done|].
  rewrite filter_cons_True by done. by rewrite IH.
Qed.

(** X28. Cancelling a waiting token takes it out of the queue.  When the
    entries of the doctor's queue carry pairwise distinct ids, the cancel
    handler for a QUEUED token leaves the queue without the entries that
    carry the token's id, in their order, so that the token is no longer
    waiting; the token ends CANCELLED with [completedAt] set to [now]; no
    other token object and nothing of the doctor changes. *)
Theorem cancel_queued_leaves_the_queue now token w d :
  Token.doctorId (heap w token) = Some d → d ≠ ""%string →
  distinct_ids w (getQueue d w) →
  getQueue d (TokenRoutes.cancel_queued now token w)
  = filter (λ r, Token.id (heap w r) ≠ Token.id (heap w token)) (getQueue d w)
  ∧ (token ∉ getQueue d (TokenRoutes.cancel_queued now token w))
  ∧ heap (TokenRoutes.cancel_queued now token w) token
    = mark_cancelled now (heap w token)
  ∧ (∀ r, r ≠ token →
       heap (TokenRoutes.cancel_queued now token w) r = heap w r)
  ∧ doctor (TokenRoutes.cancel_queued now token w) = doctor w.
Proof.
  intros Hdoc Hd Hdistinct.
  assert (getQueue d (TokenRoutes.cancel_queued now token w)
          = filter (λ r, Token.id (heap w r) ≠ Token.id (heap w token))
              (getQueue d w)
          ∧ heap (TokenRoutes.cancel_queued now token w)
            = heap_upd token (mark_cancelled now) (heap w)
          ∧ doctor (TokenRoutes.cancel_queued now token w) = doctor w)
    as (Hqueue & Hheap & Hdoctor).
  { unfold TokenRoutes.cancel_queued. rewrite Hdoc. cbv zeta.
    rewrite decide_False by done.
    unfold distinct_ids in Hdistinct.
    unfold Queue.remove, Queue.findIndex, getQueue in *.
    destruct (queues w !! d) as [queue|] eqn:Hq; simpl; [|by rewrite Hq].
    destruct (list_find _ queue) as [[index r]|] eqn:Hfind; simpl.
    - apply list_find_Some in Hfind as (Hi & Hid & Hahead).
      rewrite lookup_insert_eq. simpl. split_and!; try done.
      rewrite delete_take_drop.
      assert (Forall (λ y, Token.id (heap w y) ≠ Token.id (heap w token))
                (take index queue)) as Hahead'.
      { apply Forall_forall. intros y Hy.
        apply list_elem_of_lookup in Hy as [j Hj].
        pose proof (lookup_lt_Some _ _ _ Hj) as Hlt. rewrite length_take in Hlt.
        rewrite lookup_take_lt in Hj by lia. apply (Hahead j); [done|lia]. }
      pose proof (take_drop_middle _ _ _ Hi) as Hsplit.
      set (ahead := take index queue) in *.
      set (behind := drop (S index) queue) in *.
      clearbody ahead behind. clear Hi Hahead Hq. subst queue.
      change (default [] (Some (ahead ++ r :: behind))) with (ahead ++ r :: behind)
        in Hdistinct.
      rewrite fmap_app, fmap_cons in Hdistinct.
      apply NoDup_app in Hdistinct as (_ & _ & Hbehind).
      apply NoDup_cons in Hbehind as [Hbehind _].
      rewrite filter_app, filter_cons_False by (intros Hne; by apply Hne).
      rewrite !filter_Forall_id; [done| |done].
      apply Forall_forall. intros y Hy Heq. apply Hbehind.
      rewrite Hid, <- Heq. apply list_elem_of_fmap. by exists y.
    - rewrite Hq. simpl. split_and!; try done.
      apply list_find_None in Hfind. by rewrite filter_Forall_id. }
  split_and!; try done.
  - rewrite Hqueue. intros Hin. apply list_elem_of_filter in Hin as [Hne _].
    by apply Hne.
  - rewrite Hheap. unfold heap_upd. by rewrite decide_True.
  - intros r Hne. rewrite Hheap. unfold heap_upd. by rewrite decide_False.
Qed.

Lemma cancel_queued_leaves_the_queue_witness :
  getQueue "DOC1" (TokenRoutes.cancel_queued 5000 1 Sample.booked_out)
  = filter (λ r, Token.id (heap Sample.booked_out r)
                 ≠ Token.id (heap Sample.booked_out 1))
      (getQueue "DOC1" Sample.booked_out).
Proof.
  destruct (cancel_queued_leaves_the_queue 5000 1 Sample.booked_out "DOC1")
    as (Hqueue & _).
  - reflexivity.
  - discriminate.
  - unfold distinct_ids. vm_compute. repeat constructor.
    + apply not_elem_of_nil.
  - exact Hqueue.
Defined.

End RouteProperties.
